(** * gmail-mcp: the batch mutation engine and the message builder

    A shallow embedding of
      - [EmailService.processBatches]   (src/services/gmail-api.client.ts)
      - [EmailBuilder]                  (src/builders/email.builder.ts)
      - [validateEmail], [validateEmailArray] (utils/validation.util.ts)
    and the properties the specification states about them.

    JavaScript strings are sequences of UTF-16 code units; a code unit is an
    integer in [0, 65536).  Bytes of a Node [Buffer] are integers in [0, 256).
    JavaScript numbers that the code uses as array indices are modelled as
    [Z]: the loop counter of [processBatches] can leave the index range. *)

From Stdlib Require Import String Ascii ZArith List Bool Lia Permutation.
Import ListNotations.
Open Scope Z_scope.

(* ================================================================== *)
(** * Part I: the embedding *)
(* ================================================================== *)

(** ** JavaScript values used by the code *)

Module JS.

Definition jsstring : Type := list Z.

(** An ASCII literal of the source, as code units. *)
Definition str (s : string) : jsstring :=
  map (fun a => Z.of_N (N_of_ascii a)) (list_ascii_of_string s).

(** Truthiness of a string: [Boolean(s)] is false exactly on the empty
    string. *)
Definition truthy (s : jsstring) : bool :=
  match s with
  | [] => false
  | _ :: _ => true
  end.

(** Truthiness of an optional string field ([undefined] is falsy). *)
Definition truthyOpt (o : option jsstring) : bool :=
  match o with
  | None => false
  | Some s => truthy s
  end.

(** [Array.prototype.join] on an array of strings. *)
Fixpoint join (sep : jsstring) (parts : list jsstring) : jsstring :=
  match parts with
  | [] => []
  | [p] => p
  | p :: rest => p ++ sep ++ join sep rest
  end.

(** [arr.filter(Boolean)] on an array of strings. *)
Definition filterBoolean (parts : list jsstring) : list jsstring :=
  filter truthy parts.

(** Relative index resolution of [Array.prototype.slice]: a negative index
    counts from the end, and the result is clamped to [0, len]. *)
Definition relativeIndex (len rel : Z) : Z :=
  if rel <? 0 then Z.max (len + rel) 0 else Z.min rel len.

(** [arr.slice(start, end)] for integer arguments. *)
Definition slice {A : Type} (arr : list A) (start end_ : Z) : list A :=
  let len := Z.of_nat (length arr) in
  let k := relativeIndex len start in
  let final := relativeIndex len end_ in
  firstn (Z.to_nat (final - k)) (skipn (Z.to_nat k) arr).

Fixpoint jsstring_eqb (a b : jsstring) : bool :=
  match a, b with
  | [], [] => true
  | x :: a', y :: b' => (x =? y) && jsstring_eqb a' b'
  | _, _ => false
  end.

(** [s.startsWith(prefix)] and [s.includes(t)]. *)
Fixpoint startsWith (s prefix : jsstring) {struct prefix} : bool :=
  match prefix, s with
  | [], _ => true
  | p :: prefix', c :: s' => (c =? p) && startsWith s' prefix'
  | _ :: _, [] => false
  end.

Fixpoint includes (s t : jsstring) : bool :=
  startsWith s t ||
  match s with
  | [] => false
  | _ :: s' => includes s' t
  end.

(** Ranges: a base64 digit value, a byte of a [Buffer], an ASCII code
    unit. *)
Definition isSextet (v : Z) : Prop := 0 <= v < 64.
Definition isByte (b : Z) : Prop := 0 <= b < 256.
Definition isAscii (u : Z) : Prop := 0 <= u < 128.

(** A Unicode scalar value: a code point that is not a surrogate. *)
Definition isScalar (cp : Z) : Prop :=
  0 <= cp < 0x110000 /\ ~ (0xD800 <= cp <= 0xDFFF).

(** A JavaScript outcome: a returned value or a thrown [Error] with its
    message. *)
Inductive result (A : Type) : Type :=
| Ok (a : A)
| Throw (message : jsstring).
Arguments Ok {A} a.
Arguments Throw {A} message.

Definition bind {A B : Type} (r : result A) (k : A -> result B) : result B :=
  match r with
  | Ok a => k a
  | Throw m => Throw m
  end.

End JS.

Import JS.

Notation "x <- r ;; k" := (bind r (fun x => k))
  (at level 61, r at next level, right associativity).
Notation "r ;;; k" := (bind r (fun _ => k))
  (at level 61, right associativity).

(** ** The batch mutation engine: [EmailService.processBatches] *)

Module Batch.

(** What a rejected [processFn] promise carries: an [Error] with its
    message, or some other value. *)
Inductive thrown : Type :=
| ErrorObject (message : jsstring)
| NonError.

(** [itemError instanceof Error ? itemError.message : 'Unknown error'] *)
Definition errorMessage (e : thrown) : jsstring :=
  match e with
  | ErrorObject m => m
  | NonError => str "Unknown error"
  end.

Record Failure : Type := mkFailure { item : jsstring; error : jsstring }.

Record BatchResult : Type :=
  mkBatchResult { successes : Z; failures : list Failure }.

Section ProcessBatches.

(** The item type, JavaScript's [String(item)], the state of the remote
    collaborator, and the caller-supplied action: one call either resolves
    ([None]) or rejects ([Some e]), and may change the collaborator. *)
Context {T W : Type}.
Variable String_ : T -> jsstring.
Variable processFn : list T -> W -> option thrown * W.

(** The two local arrays of [processBatches], and the collaborator. *)
Record Acc : Type := mkAcc {
  acc_successes : list jsstring;
  acc_failures : list Failure;
  acc_world : W
}.

(** One iteration of the inner [for (const item of batch)] loop. *)
Definition processItem (acc : Acc) (it : T) : Acc :=
  match processFn [it] (acc_world acc) with
  | (None, w) =>
      mkAcc (acc_successes acc ++ [String_ it]) (acc_failures acc) w
  | (Some itemError, w) =>
      mkAcc (acc_successes acc)
            (acc_failures acc ++ [mkFailure (String_ it) (errorMessage itemError)])
            w
  end.

(** The body of the outer loop: the [try]/[catch] around
    [await processFn(batch)]. *)
Definition processChunk (batch : list T) (acc : Acc) : Acc :=
  match processFn batch (acc_world acc) with
  | (None, w) =>
      mkAcc (acc_successes acc ++ map String_ batch) (acc_failures acc) w
  | (Some _, w) =>
      fold_left processItem batch
                (mkAcc (acc_successes acc) (acc_failures acc) w)
  end.

(** [for (let i = 0; i < items.length; i += batchSize) { ... }]: each unit
    of fuel pays for one evaluation of the loop test. *)
Fixpoint loop (items : list T) (batchSize : Z) (fuel : nat) (i : Z) (acc : Acc)
  : option Acc :=
  match fuel with
  | O => None
  | S fuel' =>
      if i <? Z.of_nat (length items)
      then loop items batchSize fuel' (i + batchSize)
                (processChunk (slice items i (i + batchSize)) acc)
      else Some acc
  end.

Definition run (fuel : nat) (items : list T) (batchSize : Z) (w : W)
  : option Acc :=
  loop items batchSize fuel 0 (mkAcc [] [] w).

(** [return { successes: successes.length, failures }] *)
Definition processBatches (fuel : nat) (items : list T) (batchSize : Z) (w : W)
  : option (BatchResult * W) :=
  match run fuel items batchSize w with
  | None => None
  | Some acc =>
      Some (mkBatchResult (Z.of_nat (length (acc_successes acc)))
                          (acc_failures acc),
            acc_world acc)
  end.

End ProcessBatches.

Arguments Acc W : clear implicits.

(** What a piece of a run added to the two arrays: [ss] to the successes
    and [fs] to the failures, which together are the items [its] that the
    piece handled, each of them once. *)
Definition extends {T W : Type} (String_ : T -> jsstring)
  (its : list T) (acc acc' : Acc W) : Prop :=
  exists (ss : list jsstring) (fs : list Failure),
    acc_successes acc' = acc_successes acc ++ ss /\
    acc_failures acc' = acc_failures acc ++ fs /\
    Permutation (map String_ its) (ss ++ map item fs).

(** A collaborator that also records the argument of every call made to
    the action, in call order. *)
Definition traced {T W : Type} (processFn : list T -> W -> option thrown * W)
  : list T -> W * list (list T) -> option thrown * (W * list (list T)) :=
  fun batch st =>
    let '(r, w) := processFn batch (fst st) in
    (r, (w, snd st ++ [batch])).

End Batch.

(** ** Node's [Buffer]: UTF-8 encoding of a string and base64 rendering *)

Module Node.

Definition isHighSurrogate (u : Z) : bool := (0xD800 <=? u) && (u <=? 0xDBFF).
Definition isLowSurrogate (u : Z) : bool := (0xDC00 <=? u) && (u <=? 0xDFFF).

(** The code points of a string as [Buffer.from(text)] reads them: a
    surrogate pair is one supplementary code point, an unpaired surrogate is
    read as U+FFFD. *)
Fixpoint codePoints (text : jsstring) : list Z :=
  match text with
  | [] => []
  | u :: rest =>
      if isHighSurrogate u then
        match rest with
        | v :: rest' =>
            if isLowSurrogate v
            then (0x10000 + (u - 0xD800) * 0x400 + (v - 0xDC00)) :: codePoints rest'
            else 0xFFFD :: codePoints rest
        | [] => [0xFFFD]
        end
      else if isLowSurrogate u then 0xFFFD :: codePoints rest
      else u :: codePoints rest
  end.

(** UTF-8 bytes of one code point. *)
Definition utf8Bytes (cp : Z) : list Z :=
  if cp <? 0x80 then [cp]
  else if cp <? 0x800 then
    [0xC0 + cp / 0x40; 0x80 + cp mod 0x40]
  else if cp <? 0x10000 then
    [0xE0 + cp / 0x1000; 0x80 + (cp / 0x40) mod 0x40; 0x80 + cp mod 0x40]
  else
    [0xF0 + cp / 0x40000; 0x80 + (cp / 0x1000) mod 0x40;
     0x80 + (cp / 0x40) mod 0x40; 0x80 + cp mod 0x40].

(** [Buffer.from(text)] (the default encoding is UTF-8). *)
Definition Buffer_from (text : jsstring) : list Z :=
  flat_map utf8Bytes (codePoints text).

Definition base64Alphabet : jsstring :=
  str "ABCDEFGHIJKLMNOPQRSTUVWXYZabcdefghijklmnopqrstuvwxyz0123456789+/".

Definition base64Char (v : Z) : Z := nth (Z.to_nat v) base64Alphabet 0.

Definition padChar : Z := 61.

(** [buf.toString('base64')]: three bytes give four characters, and a last
    group of one or two bytes is padded with [=]. *)
Fixpoint toBase64 (bytes : list Z) : jsstring :=
  match bytes with
  | [] => []
  | [a] =>
      [base64Char (a / 4); base64Char ((a mod 4) * 16); padChar; padChar]
  | [a; b] =>
      [base64Char (a / 4); base64Char ((a mod 4) * 16 + b / 16);
       base64Char ((b mod 16) * 4); padChar]
  | a :: b :: c :: rest =>
      base64Char (a / 4) :: base64Char ((a mod 4) * 16 + b / 16)
      :: base64Char ((b mod 16) * 4 + c / 64) :: base64Char (c mod 64)
      :: toBase64 rest
  end.

End Node.

(** ** Address validation: utils/validation.util.ts *)

Module Validation.

(** The class [\s] of a JavaScript regular expression: white space and
    line terminators. *)
Definition isWhiteSpace (u : Z) : bool :=
  ((9 <=? u) && (u <=? 13)) || (u =? 32) || (u =? 0xA0) || (u =? 0x1680)
  || ((0x2000 <=? u) && (u <=? 0x200A)) || (u =? 0x2028) || (u =? 0x2029)
  || (u =? 0x202F) || (u =? 0x205F) || (u =? 0x3000) || (u =? 0xFEFF).

Definition atSign : Z := 64.
Definition dot : Z := 46.

(** The class [[^\s@]]. *)
Definition addrChar (u : Z) : bool := negb (isWhiteSpace u) && negb (u =? atSign).

(** The longest prefix of class characters, and what follows it. *)
Fixpoint spanAddr (s : jsstring) : jsstring * jsstring :=
  match s with
  | [] => ([], [])
  | u :: s' =>
      if addrChar u
      then let '(p, r) := spanAddr s' in (u :: p, r)
      else ([], s)
  end.

(** Some [.] of [s] is followed by at least one more character. *)
Fixpoint dotBeforeLast (s : jsstring) : bool :=
  match s with
  | [] => false
  | u :: s' => ((u =? dot) && truthy s') || dotBeforeLast s'
  end.

(** [/^[^\s@]+@[^\s@]+\.[^\s@]+$/.test(email)] *)
Definition validateEmail (email : jsstring) : bool :=
  let '(local, rest) := spanAddr email in
  truthy local &&
  match rest with
  | [] => false
  | u :: domain =>
      (u =? atSign) && forallb addrChar domain &&
      match domain with
      | [] => false
      | _ :: domain' => dotBeforeLast domain'
      end
  end.

(** The language of the regular expression, stated on its three
    repetitions. *)
Definition matchesEmailRegex (email : jsstring) : Prop :=
  exists a b c : jsstring,
    email = a ++ atSign :: b ++ dot :: c /\
    a <> [] /\ b <> [] /\ c <> [] /\
    forallb addrChar a = true /\ forallb addrChar b = true /\
    forallb addrChar c = true.

(** [validateEmailArray]: throws at the first address that fails. *)
Fixpoint validateEmailArray (emails : list jsstring) : result unit :=
  match emails with
  | [] => Ok tt
  | email :: rest =>
      if validateEmail email
      then validateEmailArray rest
      else Throw (str "Invalid email address: " ++ email)
  end.

End Validation.

(** ** The message builder: builders/email.builder.ts *)

Module Builder.

Import Node Validation.

Inductive MimeType : Type := TextPlain | TextHtml | MultipartAlternative.

Definition MimeType_eqb (a b : MimeType) : bool :=
  match a, b with
  | TextPlain, TextPlain => true
  | TextHtml, TextHtml => true
  | MultipartAlternative, MultipartAlternative => true
  | _, _ => false
  end.

(** [SendEmailParams] (types/email.types.ts): optional fields are
    [option]s, [None] for [undefined]. *)
Record SendEmailParams : Type := mkParams {
  to : list jsstring;
  subject : jsstring;
  body : jsstring;
  htmlBody : option jsstring;
  mimeType : option MimeType;
  cc : option (list jsstring);
  bcc : option (list jsstring);
  threadId : option jsstring;
  inReplyTo : option jsstring;
  attachments : option (list jsstring)
}.

Definition CRLF : jsstring := [13; 10].

(** [if (o) f(o)] for an optional array: an array is always truthy. *)
Definition whenPresent (o : option (list jsstring))
  (f : list jsstring -> result unit) : result unit :=
  match o with
  | Some emails => f emails
  | None => Ok tt
  end.

(** [o ? f(o) : ''] for an optional array. *)
Definition ifArray (o : option (list jsstring))
  (f : list jsstring -> jsstring) : jsstring :=
  match o with
  | Some l => f l
  | None => []
  end.

(** [o ? f(o) : ''] for an optional string: the empty string is falsy. *)
Definition ifString (o : option jsstring) (f : jsstring -> jsstring) : jsstring :=
  match o with
  | Some s => if truthy s then f s else []
  | None => []
  end.

(** [o || d] for an optional string. *)
Definition orElse (o : option jsstring) (d : jsstring) : jsstring :=
  match o with
  | Some s => if truthy s then s else d
  | None => d
  end.

(** [/[^\x00-\x7F]/.test(text)] *)
Definition hasNonAscii (text : jsstring) : bool :=
  existsb (fun u => 0x7F <? u) text.

Definition encodeHeader (text : jsstring) : jsstring :=
  if hasNonAscii text
  then str "=?UTF-8?B?" ++ toBase64 (Buffer_from text) ++ str "?="
  else text.

(** The array literal of [buildPlainTextEmail], before [filter(Boolean)]. *)
Definition plainTextParts (params : SendEmailParams) : list jsstring :=
  let encodedSubject := encodeHeader (subject params) in
  [ str "From: me";
    str "To: " ++ join (str ", ") (to params);
    ifArray (cc params) (fun l => str "Cc: " ++ join (str ", ") l);
    ifArray (bcc params) (fun l => str "Bcc: " ++ join (str ", ") l);
    str "Subject: " ++ encodedSubject;
    ifString (inReplyTo params) (fun r => str "In-Reply-To: " ++ r);
    ifString (inReplyTo params) (fun r => str "References: " ++ r);
    str "MIME-Version: 1.0";
    str "Content-Type: text/plain; charset=UTF-8";
    str "Content-Transfer-Encoding: 7bit";
    [];
    body params ].

Definition buildPlainTextEmail (params : SendEmailParams) : result jsstring :=
  validateEmailArray (to params) ;;;
  whenPresent (cc params) validateEmailArray ;;;
  whenPresent (bcc params) validateEmailArray ;;;
  let emailParts := filterBoolean (plainTextParts params) in
  Ok (join CRLF emailParts).

(** The array literal of [buildHTMLEmail]. *)
Definition htmlParts (params : SendEmailParams) : list jsstring :=
  let encodedSubject := encodeHeader (subject params) in
  [ str "From: me";
    str "To: " ++ join (str ", ") (to params);
    ifArray (cc params) (fun l => str "Cc: " ++ join (str ", ") l);
    ifArray (bcc params) (fun l => str "Bcc: " ++ join (str ", ") l);
    str "Subject: " ++ encodedSubject;
    ifString (inReplyTo params) (fun r => str "In-Reply-To: " ++ r);
    ifString (inReplyTo params) (fun r => str "References: " ++ r);
    str "MIME-Version: 1.0";
    str "Content-Type: text/html; charset=UTF-8";
    str "Content-Transfer-Encoding: 7bit";
    [];
    orElse (htmlBody params) (body params) ].

Definition buildHTMLEmail (params : SendEmailParams) : result jsstring :=
  validateEmailArray (to params) ;;;
  whenPresent (cc params) validateEmailArray ;;;
  whenPresent (bcc params) validateEmailArray ;;;
  let emailParts := filterBoolean (htmlParts params) in
  Ok (join CRLF emailParts).

(** [`----=_NextPart_${Math.random().toString(36).substring(2)}`], where
    [random36] is the string that the call to [Math.random] gave. *)
Definition makeBoundary (random36 : jsstring) : jsstring :=
  str "----=_NextPart_" ++ random36.

Definition quote : Z := 34.

(** The array literal of [buildMultipartEmail]. *)
Definition multipartParts (boundary : jsstring) (params : SendEmailParams)
  : list jsstring :=
  let encodedSubject := encodeHeader (subject params) in
  [ str "From: me";
    str "To: " ++ join (str ", ") (to params);
    ifArray (cc params) (fun l => str "Cc: " ++ join (str ", ") l);
    ifArray (bcc params) (fun l => str "Bcc: " ++ join (str ", ") l);
    str "Subject: " ++ encodedSubject;
    ifString (inReplyTo params) (fun r => str "In-Reply-To: " ++ r);
    ifString (inReplyTo params) (fun r => str "References: " ++ r);
    str "MIME-Version: 1.0";
    str "Content-Type: multipart/alternative; boundary="
      ++ quote :: boundary ++ [quote];
    [];
    str "--" ++ boundary;
    str "Content-Type: text/plain; charset=UTF-8";
    str "Content-Transfer-Encoding: 7bit";
    [];
    body params;
    [];
    str "--" ++ boundary;
    str "Content-Type: text/html; charset=UTF-8";
    str "Content-Transfer-Encoding: 7bit";
    [];
    orElse (htmlBody params) (body params);
    [];
    str "--" ++ boundary ++ str "--" ].

Definition buildMultipartEmail (random36 : jsstring) (params : SendEmailParams)
  : result jsstring :=
  validateEmailArray (to params) ;;;
  whenPresent (cc params) validateEmailArray ;;;
  whenPresent (bcc params) validateEmailArray ;;;
  let boundary := makeBoundary random36 in
  let emailParts := filterBoolean (multipartParts boundary params) in
  Ok (join CRLF emailParts).

(** What [buildEmailWithAttachments] hands to nodemailer. *)
Record Attachment : Type := mkAttachment { filename : jsstring; path : jsstring }.

Record MailOptions : Type := mkMailOptions {
  mo_from : jsstring;
  mo_to : jsstring;
  mo_cc : option jsstring;
  mo_bcc : option jsstring;
  mo_subject : jsstring;
  mo_text : jsstring;
  mo_html : option jsstring;
  mo_attachments : list Attachment;
  mo_inReplyTo : option jsstring;
  mo_references : option jsstring
}.

Section WithCollaborators.

(** The file system at build time ([fs.existsSync]), [path.basename], and
    nodemailer's stream transport: [sendMail] followed by
    [info.message.toString()], which may reject. *)
Variable existsSync : jsstring -> bool.
Variable basename : jsstring -> jsstring.
Variable sendMail : MailOptions -> result jsstring.

(** The [for (const filePath of params.attachments)] loop: it throws at
    the first path that does not exist. *)
Fixpoint prepareAttachments (paths : list jsstring) : result (list Attachment) :=
  match paths with
  | [] => Ok []
  | filePath :: rest =>
      if existsSync filePath
      then atts <- prepareAttachments rest ;;
           Ok (mkAttachment (basename filePath) filePath :: atts)
      else Throw (str "File does not exist: " ++ filePath)
  end.

Definition buildEmailWithAttachments (params : SendEmailParams)
  : result jsstring :=
  validateEmailArray (to params) ;;;
  whenPresent (cc params) validateEmailArray ;;;
  whenPresent (bcc params) validateEmailArray ;;;
  match attachments params with
  | None | Some [] => Throw (str "No attachments provided")
  | Some paths =>
      atts <- prepareAttachments paths ;;
      let mailOptions := mkMailOptions
        (str "me")
        (join (str ", ") (to params))
        (option_map (join (str ", ")) (cc params))
        (option_map (join (str ", ")) (bcc params))
        (subject params)
        (body params)
        (htmlBody params)
        atts
        (inReplyTo params)
        (inReplyTo params) in
      sendMail mailOptions
  end.

(** [params.attachments && params.attachments.length > 0] *)
Definition hasAttachments (params : SendEmailParams) : bool :=
  match attachments params with
  | Some (_ :: _) => true
  | _ => false
  end.

Definition buildEmail (random36 : jsstring) (params : SendEmailParams)
  : result jsstring :=
  if hasAttachments params then buildEmailWithAttachments params
  else
    let mimeType :=
      match mimeType params with Some m => m | None => TextPlain end in
    if truthyOpt (htmlBody params) && negb (MimeType_eqb mimeType TextPlain)
    then buildMultipartEmail random36 params
    else if MimeType_eqb mimeType TextHtml
    then buildHTMLEmail params
    else buildPlainTextEmail params.

End WithCollaborators.

(** Every address that a build call validates, in the order of the
    three validation statements. *)
Definition addresses (params : SendEmailParams) : list jsstring :=
  to params
  ++ match cc params with Some l => l | None => [] end
  ++ match bcc params with Some l => l | None => [] end.

End Builder.

(** ** Reading an encoded word back

    The repository only encodes.  The round-trip property of the
    specification speaks of a reader of the word encoding: it removes the
    charset tag [=?UTF-8?B?] and the closing [?=], decodes the base64
    payload to bytes and reads the bytes as UTF-8.  The reader below is
    strict: it refuses malformed base64 and malformed UTF-8. *)

Module Decode.

Import Node.

(** JavaScript's [String.prototype.isWellFormed]: no unpaired surrogate. *)
Fixpoint isWellFormed (text : jsstring) : bool :=
  match text with
  | [] => true
  | u :: rest =>
      if isHighSurrogate u then
        match rest with
        | v :: rest' => isLowSurrogate v && isWellFormed rest'
        | [] => false
        end
      else negb (isLowSurrogate u) && isWellFormed rest
  end.

(** Every element is a 16-bit code unit. *)
Definition isCodeUnits (text : jsstring) : bool :=
  forallb (fun u => (0 <=? u) && (u <? 0x10000)) text.

Definition base64Value (c : Z) : option Z :=
  if (65 <=? c) && (c <=? 90) then Some (c - 65)
  else if (97 <=? c) && (c <=? 122) then Some (c - 71)
  else if (48 <=? c) && (c <=? 57) then Some (c + 4)
  else if c =? 43 then Some 62
  else if c =? 47 then Some 63
  else None.

Definition isNil {A : Type} (l : list A) : bool :=
  match l with
  | [] => true
  | _ :: _ => false
  end.

Fixpoint fromBase64 (s : jsstring) : option (list Z) :=
  match s with
  | [] => Some []
  | c1 :: c2 :: c3 :: c4 :: rest =>
      match base64Value c1, base64Value c2 with
      | Some v1, Some v2 =>
          if c3 =? padChar then
            if (c4 =? padChar) && isNil rest
            then Some [v1 * 4 + v2 / 16]
            else None
          else
            match base64Value c3 with
            | Some v3 =>
                if c4 =? padChar then
                  if isNil rest
                  then Some [v1 * 4 + v2 / 16; (v2 mod 16) * 16 + v3 / 4]
                  else None
                else
                  match base64Value c4 with
                  | Some v4 =>
                      option_map
                        (fun t => (v1 * 4 + v2 / 16)
                                  :: ((v2 mod 16) * 16 + v3 / 4)
                                  :: ((v3 mod 4) * 64 + v4) :: t)
                        (fromBase64 rest)
                  | None => None
                  end
            | None => None
            end
      | _, _ => None
      end
  | _ => None
  end.

Definition isContinuation (b : Z) : bool := (0x80 <=? b) && (b <? 0xC0).

Definition isSurrogate (cp : Z) : bool := (0xD800 <=? cp) && (cp <=? 0xDFFF).

(** Strict UTF-8: no stray or missing continuation byte, no overlong
    form, no encoded surrogate, nothing above U+10FFFF. *)
Fixpoint utf8CodePoints (bytes : list Z) : option (list Z) :=
  match bytes with
  | [] => Some []
  | b0 :: r0 =>
      if (0 <=? b0) && (b0 <? 0x80) then
        option_map (cons b0) (utf8CodePoints r0)
      else if (0xC0 <=? b0) && (b0 <? 0xE0) then
        match r0 with
        | b1 :: r1 =>
            let cp := (b0 - 0xC0) * 0x40 + (b1 - 0x80) in
            if isContinuation b1 && (0x80 <=? cp)
            then option_map (cons cp) (utf8CodePoints r1)
            else None
        | _ => None
        end
      else if (0xE0 <=? b0) && (b0 <? 0xF0) then
        match r0 with
        | b1 :: b2 :: r2 =>
            let cp := (b0 - 0xE0) * 0x1000 + (b1 - 0x80) * 0x40 + (b2 - 0x80) in
            if isContinuation b1 && isContinuation b2 && (0x800 <=? cp)
               && negb (isSurrogate cp)
            then option_map (cons cp) (utf8CodePoints r2)
            else None
        | _ => None
        end
      else if (0xF0 <=? b0) && (b0 <? 0xF8) then
        match r0 with
        | b1 :: b2 :: b3 :: r3 =>
            let cp := (b0 - 0xF0) * 0x40000 + (b1 - 0x80) * 0x1000
                      + (b2 - 0x80) * 0x40 + (b3 - 0x80) in
            if isContinuation b1 && isContinuation b2 && isContinuation b3
               && (0x10000 <=? cp) && (cp <=? 0x10FFFF)
            then option_map (cons cp) (utf8CodePoints r3)
            else None
        | _ => None
        end
      else None
  end.

(** The UTF-16 code units of a code point. *)
Definition utf16Units (cp : Z) : jsstring :=
  if cp <? 0x10000 then [cp]
  else [0xD800 + (cp - 0x10000) / 0x400; 0xDC00 + (cp - 0x10000) mod 0x400].

Definition utf8Decode (bytes : list Z) : option jsstring :=
  option_map (flat_map utf16Units) (utf8CodePoints bytes).

Fixpoint stripPrefix (prefix s : jsstring) {struct prefix} : option jsstring :=
  match prefix, s with
  | [], _ => Some s
  | p :: prefix', c :: s' => if c =? p then stripPrefix prefix' s' else None
  | _ :: _, [] => None
  end.

Definition stripSuffix (suffix s : jsstring) : option jsstring :=
  option_map (@rev Z) (stripPrefix (rev suffix) (rev s)).

Definition decodeWord (word : jsstring) : option jsstring :=
  match stripPrefix (str "=?UTF-8?B?") word with
  | Some tail =>
      match stripSuffix (str "?=") tail with
      | Some payload =>
          match fromBase64 payload with
          | Some bytes => utf8Decode bytes
          | None => None
          end
      | None => None
      end
  | None => None
  end.

End Decode.

(** ** Concrete inputs used by the examples of the specification *)

Module Examples.

Import Batch.

Definition items5 : list jsstring :=
  [str "a"; str "b"; str "c"; str "d"; str "e"].

Definition chunkCD : list jsstring := [str "c"; str "d"].

Fixpoint batch_eqb (a b : list jsstring) : bool :=
  match a, b with
  | [], [] => true
  | x :: a', y :: b' => jsstring_eqb x y && batch_eqb a' b'
  | _, _ => false
  end.

(** An action that rejects exactly the argument [["c","d"]]. *)
Definition throwsOnCD (batch : list jsstring) (w : unit) : option thrown * unit :=
  if batch_eqb batch chunkCD
  then (Some (ErrorObject (str "bulk call failed")), tt)
  else (None, tt).

(** An action that rejects exactly the one-item argument [["b"]]: item
    [b] fails on its own and passes inside a larger chunk. *)
Definition throwsOnB (batch : list jsstring) (w : unit) : option thrown * unit :=
  if batch_eqb batch [str "b"]
  then (Some (ErrorObject (str "item failed")), tt)
  else (None, tt).

Import Builder.

Definition alice : jsstring := str "alice@example.com".

(** "Cafe" with an e-acute, a space and an emoji: an accented letter and a
    surrogate pair. *)
Definition cafe : jsstring := [67; 97; 102; 0xE9; 32; 0xD83D; 0xDE00].

(** A string that is one unpaired high surrogate: JSON text can carry it
    as the escape \uD800. *)
Definition loneSurrogate : jsstring := [0xD800].

Definition plainSample : SendEmailParams :=
  mkParams [alice] (str "Hi") (str "Hello") None None None None None None None.

(** No recipient at all. *)
Definition emptyTo : SendEmailParams :=
  mkParams [] (str "Hi") (str "Hello") None None None None None None None.

(** A malformed copy address next to a valid recipient. *)
Definition badCc : SendEmailParams :=
  mkParams [alice] (str "Hi") (str "Hello") None None
           (Some [str "not an address"]) None None None None.

Definition multipartSample : SendEmailParams :=
  mkParams [alice] (str "Hi") (str "Hello") (Some (str "<p>Hello</p>"))
           (Some MultipartAlternative) None None None None None.

(** [htmlBody] is present and is the empty string. *)
Definition emptyHtml : SendEmailParams :=
  mkParams [alice] (str "Hi") (str "Hello") (Some [])
           (Some MultipartAlternative) None None None None None.

(** [Math.random()] returned 0.5, which prints as "0.i" in base 36. *)
Definition randomHalf : jsstring := str "i".

(** A plain body that quotes the boundary that [randomHalf] gives. *)
Definition collidingBody : SendEmailParams :=
  mkParams [alice] (str "Hi") (str "see ----=_NextPart_i above")
           (Some (str "<p>Hello</p>")) (Some MultipartAlternative)
           None None None None None.

Definition withAttachment : SendEmailParams :=
  mkParams [alice] (str "Hi") (str "Hello") None None None None None None
           (Some [str "/tmp/report.pdf"]).

Definition noAttachment : SendEmailParams :=
  mkParams [alice] (str "Hi") (str "Hello") None None None None None None
           (Some []).

(** An empty file system, and a transport that renders nothing of
    interest. *)
Definition noFiles (filePath : jsstring) : bool := false.
Definition allFiles (filePath : jsstring) : bool := true.
Definition sameName (filePath : jsstring) : jsstring := filePath.
Definition renderSubject (options : MailOptions) : result jsstring :=
  Ok (str "Subject: " ++ mo_subject options).

End Examples.

(** ** Order-preserving accounting *)

Module Accounting.

(** [Interleaving l r m]: [m] is [l] and [r] shuffled together, each of
    them in its own order. *)
Inductive Interleaving {A : Type} : list A -> list A -> list A -> Prop :=
| interleave_nil : Interleaving [] [] []
| interleave_left (x : A) (l r m : list A) :
    Interleaving l r m -> Interleaving (x :: l) r (x :: m)
| interleave_right (x : A) (l r m : list A) :
    Interleaving l r m -> Interleaving l (x :: r) (x :: m).

(** A stateless action: the outcome of a call depends on its argument
    only. *)
Definition stateless {T W : Type} (f : list T -> option Batch.thrown)
  : list T -> W -> option Batch.thrown * W :=
  fun batch w => (f batch, w).

(** Uniform actions for the examples: every call rejects, every call
    resolves, and a stateless action that rejects only the argument
    [["b"]]. *)
Definition alwaysRejects (batch : list jsstring) (w : unit)
  : option Batch.thrown * unit :=
  (Some (Batch.ErrorObject (str "remote unavailable")), tt).

Definition alwaysResolves (batch : list jsstring) (w : unit)
  : option Batch.thrown * unit :=
  (None, tt).

Definition rejectsOnlyB (batch : list jsstring) : option Batch.thrown :=
  if Examples.batch_eqb batch [str "b"]
  then Some (Batch.ErrorObject (str "item failed"))
  else None.

End Accounting.

(** ** The raw payload of [sendEmail] and [createDraft] *)

Module Transport.

Import Node Decode.

(** [s.replace(/c/g, r)] for a one-character pattern. *)
Definition replaceAll (c r : Z) (s : jsstring) : jsstring :=
  map (fun u => if u =? c then r else u) s.

Fixpoint dropLeadingPad (s : jsstring) : jsstring :=
  match s with
  | [] => []
  | u :: s' => if u =? padChar then dropLeadingPad s' else s
  end.

(** [s.replace(/=+$/, '')]: the run of [=] that ends the string goes. *)
Definition stripTrailingPad (s : jsstring) : jsstring :=
  rev (dropLeadingPad (rev s)).

(** [Buffer.from(message).toString('base64').replace(/\+/g, '-')
    .replace(/\//g, '_').replace(/=+$/, '')] *)
Definition encodeMessage (message : jsstring) : jsstring :=
  stripTrailingPad
    (replaceAll 47 95 (replaceAll 43 45 (toBase64 (Buffer_from message)))).

(** Letters, digits, [-] and [_]. *)
Definition isUrlSafe (u : Z) : bool :=
  ((65 <=? u) && (u <=? 90)) || ((97 <=? u) && (u <=? 122))
  || ((48 <=? u) && (u <=? 57)) || (u =? 45) || (u =? 95).

(** The reader on the receiving side, used to show that the payload
    determines the message: the two substitutions are undone, the
    padding is put back, and the text is read as base64 of UTF-8. *)
Definition decodeMessage (raw : jsstring) : option jsstring :=
  let text := replaceAll 45 43 (replaceAll 95 47 raw) in
  let missing := Z.to_nat ((4 - Z.of_nat (length text) mod 4) mod 4) in
  match fromBase64 (text ++ repeat padChar missing) with
  | Some bytes => utf8Decode bytes
  | None => None
  end.

End Transport.

(** ** Errors: the error utilities (unnamed/part_004) *)

Module Errors.

(** [GmailMCPError]: an [Error] with a code and an HTTP status. *)
Record GmailMCPError : Type := mkError {
  message : jsstring;
  code : option jsstring;
  statusCode : option Z
}.

Definition createAuthError (m : jsstring) : GmailMCPError :=
  mkError m (Some (str "AUTH_ERROR")) (Some 401).

Definition createAPIError (m : jsstring) (status : option Z) : GmailMCPError :=
  mkError m (Some (str "API_ERROR")) status.

Definition createValidationError (m : jsstring) : GmailMCPError :=
  mkError m (Some (str "VALIDATION_ERROR")) (Some 400).

Definition createNotFoundError (m : jsstring) : GmailMCPError :=
  mkError m (Some (str "NOT_FOUND")) (Some 404).

(** What a [throw] or a rejected promise carries: a [GmailMCPError], some
    other [Error], or a value that is not an [Error]. *)
Inductive thrown : Type :=
| Mcp (e : GmailMCPError)
| PlainError (m : jsstring)
| NotAnError.

(** [error instanceof Error ? error.message : 'Unknown error'] *)
Definition errorMessageOf (t : thrown) : jsstring :=
  match t with
  | Mcp e => message e
  | PlainError m => m
  | NotAnError => str "Unknown error"
  end.

(** [error instanceof Error && error.message.includes(needle)] *)
Definition isErrorWith (needle : jsstring) (t : thrown) : bool :=
  match t with
  | Mcp e => includes (message e) needle
  | PlainError m => includes m needle
  | NotAnError => false
  end.

Inductive outcome (A : Type) : Type :=
| Returned (a : A)
| Threw (t : thrown).
Arguments Returned {A} a.
Arguments Threw {A} t.

End Errors.

(** ** Filter templates: [FilterService.createFilterFromTemplate] *)

Module Filters.

Import Errors.

Record FilterTemplateParams : Type := mkTemplateParams {
  senderEmail : option jsstring;
  subjectText : option jsstring;
  searchText : option jsstring;
  listIdentifier : option jsstring;
  sizeInBytes : option Z;
  labelIds : option (list jsstring);
  archive : option bool;
  markAsRead : option bool;
  markImportant : option bool
}.

Inductive SizeComparison : Type := unspecified | smaller | larger.

Record GmailFilterCriteria : Type := mkCriteria {
  from : option jsstring;
  to : option jsstring;
  subject : option jsstring;
  query : option jsstring;
  negatedQuery : option jsstring;
  hasAttachment : option bool;
  excludeChats : option bool;
  size : option Z;
  sizeComparison : option SizeComparison
}.

Record GmailFilterAction : Type := mkAction {
  addLabelIds : option (list jsstring);
  removeLabelIds : option (list jsstring);
  forward : option jsstring
}.

Record FilterConfig : Type := mkConfig {
  criteria : GmailFilterCriteria;
  action : GmailFilterAction
}.

(** An object literal that sets no field. *)
Definition noCriteria : GmailFilterCriteria :=
  mkCriteria None None None None None None None None None.

(** Truthiness of an optional boolean and of an optional number. *)
Definition truthyFlag (o : option bool) : bool :=
  match o with
  | Some b => b
  | None => false
  end.

Definition truthyNumber (o : option Z) : bool :=
  match o with
  | Some n => negb (n =? 0)
  | None => false
  end.

(** [flag ? [label] : undefined] *)
Definition labelIf (flag : option bool) (label : jsstring)
  : option (list jsstring) :=
  if truthyFlag flag then Some [label] else None.

Definition createFilterFromTemplate (template : jsstring)
  (params : FilterTemplateParams) : outcome FilterConfig :=
  if jsstring_eqb template (str "fromSender") then
    if negb (truthyOpt (senderEmail params)) then
      Threw (Mcp (createAPIError
                    (str "senderEmail is required for fromSender template")
                    (Some 400)))
    else
      Returned (mkConfig
        (mkCriteria (senderEmail params) None None None None None None None None)
        (mkAction (labelIds params) (labelIf (archive params) (str "INBOX"))
                  None))
  else if jsstring_eqb template (str "withSubject") then
    if negb (truthyOpt (subjectText params)) then
      Threw (Mcp (createAPIError
                    (str "subjectText is required for withSubject template")
                    (Some 400)))
    else
      Returned (mkConfig
        (mkCriteria None None (subjectText params) None None None None None None)
        (mkAction (labelIds params) (labelIf (markAsRead params) (str "UNREAD"))
                  None))
  else if jsstring_eqb template (str "withAttachments") then
    Returned (mkConfig
      (mkCriteria None None None None None (Some true) None None None)
      (mkAction (labelIds params) None None))
  else if jsstring_eqb template (str "largeEmails") then
    if negb (truthyNumber (sizeInBytes params)) then
      Threw (Mcp (createAPIError
                    (str "sizeInBytes is required for largeEmails template")
                    (Some 400)))
    else
      Returned (mkConfig
        (mkCriteria None None None None None None None (sizeInBytes params)
                    (Some larger))
        (mkAction (labelIds params) None None))
  else if jsstring_eqb template (str "containingText") then
    match searchText params with
    | Some text =>
        if truthy text then
          Returned (mkConfig
            (mkCriteria None None None (Some (34 :: text ++ [34])) None None
                        None None None)
            (mkAction
               (if truthyFlag (markImportant params)
                then Some (match labelIds params with
                           | Some ids => ids
                           | None => []
                           end ++ [str "IMPORTANT"])
                else labelIds params)
               None None))
        else
          Threw (Mcp (createAPIError
                        (str "searchText is required for containingText template")
                        (Some 400)))
    | None =>
        Threw (Mcp (createAPIError
                      (str "searchText is required for containingText template")
                      (Some 400)))
    end
  else if jsstring_eqb template (str "mailingList") then
    match listIdentifier params with
    | Some id =>
        if truthy id then
          Returned (mkConfig
            (mkCriteria None None None
               (Some (str "list:" ++ id ++ str " OR subject:[" ++ id ++ str "]"))
               None None None None None)
            (mkAction (labelIds params)
                      (labelIf (archive params) (str "INBOX")) None))
        else
          Threw (Mcp (createAPIError
                        (str "listIdentifier is required for mailingList template")
                        (Some 400)))
    | None =>
        Threw (Mcp (createAPIError
                      (str "listIdentifier is required for mailingList template")
                      (Some 400)))
    end
  else
    Threw (Mcp (createAPIError (str "Unknown template: " ++ template) (Some 400))).

End Filters.

(** ** Message parts: [extractEmailContent], [extractAttachments] and the
    [findAttachment] of [downloadAttachment] *)

Module Mime.

Record PartBody : Type := mkBody {
  attachmentId : option jsstring;
  size : option Z;
  data : option jsstring
}.

(** [GmailMessagePart].  An absent [parts] and an empty one are treated
    alike by every function below, and are both the empty list here. *)
Local Unset Elimination Schemes.
Inductive GmailMessagePart : Type :=
| mkPart (partId : option jsstring) (mimeType : option jsstring)
         (filename : option jsstring) (body : option PartBody)
         (parts : list GmailMessagePart).
Local Set Elimination Schemes.

Definition mimeType (p : GmailMessagePart) : option jsstring :=
  let '(mkPart _ m _ _ _) := p in m.
Definition filename (p : GmailMessagePart) : option jsstring :=
  let '(mkPart _ _ f _ _) := p in f.
Definition body (p : GmailMessagePart) : option PartBody :=
  let '(mkPart _ _ _ b _) := p in b.
Definition parts (p : GmailMessagePart) : list GmailMessagePart :=
  let '(mkPart _ _ _ _ ps) := p in ps.

Record EmailAttachment : Type := mkAttachment {
  att_id : jsstring;
  att_filename : jsstring;
  att_mimeType : jsstring;
  att_size : Z
}.

(** [o === s] for an optional string [o] and a string [s]. *)
Definition isString (o : option jsstring) (s : jsstring) : bool :=
  match o with
  | Some t => jsstring_eqb t s
  | None => false
  end.

(** [part.body && part.body.attachmentId], when truthy. *)
Definition ownAttachmentId (p : GmailMessagePart) : option jsstring :=
  match body p with
  | Some b =>
      match attachmentId b with
      | Some id => if truthy id then Some id else None
      | None => None
      end
  | None => None
  end.

(** The attachment that the first [if] of [extractAttachments] pushes
    for the part itself, if any. *)
Definition ownAttachment (p : GmailMessagePart) : list EmailAttachment :=
  match ownAttachmentId p, body p with
  | Some id, Some b =>
      [mkAttachment id
         (Builder.orElse (filename p) (str "attachment-" ++ id))
         (Builder.orElse (mimeType p) (str "application/octet-stream"))
         (match size b with Some n => n | None => 0 end)]
  | _, _ => []
  end.

(** [extractAttachments(part, attachments)]: the array is returned
    instead of being changed in place. *)
Fixpoint extractAttachments (part : GmailMessagePart)
  (attachments : list EmailAttachment) : list EmailAttachment :=
  let '(mkPart _ _ _ _ subparts) := part in
  fold_left (fun collected subpart => extractAttachments subpart collected)
            subparts (attachments ++ ownAttachment part).

(** The closure [findAttachment] of [downloadAttachment]: [None] is
    [null]. *)
Fixpoint findAttachment (wanted : jsstring) (part : GmailMessagePart)
  : option jsstring :=
  let '(mkPart _ _ name partBody subparts) := part in
  if match partBody with
     | Some b => isString (attachmentId b) wanted
     | None => false
     end
  then Some (Builder.orElse name (str "attachment-" ++ wanted))
  else
    (fix firstFound (ps : list GmailMessagePart) : option jsstring :=
       match ps with
       | [] => None
       | subpart :: rest =>
           match findAttachment wanted subpart with
           | Some found => if truthy found then Some found else firstFound rest
           | None => firstFound rest
           end
       end) subparts.

(** [findAttachment(payload) || `attachment-${attachmentId}`] *)
Definition finalFilename (wanted : jsstring) (payload : GmailMessagePart)
  : jsstring :=
  Builder.orElse (findAttachment wanted payload) (str "attachment-" ++ wanted).

Section Content.

(** [Buffer.from(data, 'base64').toString('utf8')] *)
Variable decodeBody : jsstring -> jsstring.

(** What the first [if] of [extractEmailContent] finds in the part
    itself: its text and its html. *)
Definition ownContent (p : GmailMessagePart) : jsstring * jsstring :=
  match body p with
  | Some b =>
      match data b with
      | Some d =>
          if truthy d then
            let content := decodeBody d in
            if isString (mimeType p) (str "text/plain") then (content, [])
            else if isString (mimeType p) (str "text/html") then ([], content)
            else ([], [])
          else ([], [])
      | None => ([], [])
      end
  | None => ([], [])
  end.

Fixpoint extractEmailContent (messagePart : GmailMessagePart)
  : jsstring * jsstring :=
  let '(mkPart _ _ _ _ subparts) := messagePart in
  fold_left
    (fun content part =>
       let '(text, html) := extractEmailContent part in
       (fst content ++ (if truthy text then text else []),
        snd content ++ (if truthy html then html else [])))
    subparts (ownContent messagePart).

End Content.

(** Every part of a message, the part itself first, then its subparts
    in order with theirs. *)
Fixpoint allParts (p : GmailMessagePart) : list GmailMessagePart :=
  let '(mkPart _ _ _ _ subparts) := p in
  p :: flat_map allParts subparts.

End Mime.

(** ** Calls to the remote mailbox

    A remote call changes the mailbox and resolves or rejects; [W] is
    the state of everything outside the process. *)

Module Remote.

Import Errors.

Definition M (W A : Type) : Type := W -> outcome A * W.

Definition ret {W A : Type} (a : A) : M W A := fun w => (Returned a, w).

Definition throw {W A : Type} (t : thrown) : M W A := fun w => (Threw t, w).

Definition bindM {W A B : Type} (m : M W A) (k : A -> M W B) : M W B :=
  fun w =>
    match m w with
    | (Returned a, w') => k a w'
    | (Threw t, w') => (Threw t, w')
    end.

(** [try { m } catch (error) { handler(error) }] *)
Definition tryCatch {W A : Type} (m : M W A) (handler : thrown -> M W A)
  : M W A :=
  fun w =>
    match m w with
    | (Returned a, w') => (Returned a, w')
    | (Threw t, w') => handler t w'
    end.

End Remote.

Notation "x <~ m ;; k" := (Remote.bindM m (fun x => k))
  (at level 61, m at next level, right associativity).

(** ** Labels: class LabelService of services/gmail-api.client.ts *)

Module Labels.

Import Errors Remote.

Inductive LabelType : Type := system | user.
Inductive MessageListVisibility : Type := show | hide.
Inductive LabelListVisibility : Type :=
  labelShow | labelShowIfUnread | labelHide.

Record GmailLabel : Type := mkLabel {
  id : jsstring;
  name : jsstring;
  type : option LabelType;
  messageListVisibility : option MessageListVisibility;
  labelListVisibility : option LabelListVisibility;
  messagesTotal : option Z;
  messagesUnread : option Z;
  color : option (option jsstring * option jsstring)
}.

Record LabelOptions : Type := mkOptions {
  opt_messageListVisibility : option MessageListVisibility;
  opt_labelListVisibility : option LabelListVisibility
}.

Record LabelCount : Type := mkCount {
  count_total : Z;
  count_system : Z;
  count_user : Z
}.

Record LabelListResult : Type := mkListResult {
  all : list GmailLabel;
  systemLabels : list GmailLabel;
  userLabels : list GmailLabel;
  count : LabelCount
}.

Definition hasType (t : LabelType) (label : GmailLabel) : bool :=
  match type label, t with
  | Some system, system => true
  | Some user, user => true
  | _, _ => false
  end.

Section Service.

Context {W : Type}.

(** [GmailAPIClient.getGmailAPI], the four calls of [gmail.users.labels]
    that the service uses, and [String.prototype.toLowerCase]. *)
Variable getGmailAPI : M W unit.
Variable labelsList : M W (option (list GmailLabel)).
Variable labelsCreate :
  jsstring -> MessageListVisibility -> LabelListVisibility -> M W GmailLabel.
Variable labelsGet : jsstring -> M W GmailLabel.
Variable labelsDelete : jsstring -> M W unit.
Variable toLowerCase : jsstring -> jsstring.

Definition createLabel (labelName : jsstring) (options : LabelOptions)
  : M W GmailLabel :=
  _ <~ getGmailAPI ;;
  let messageListVisibility :=
    match opt_messageListVisibility options with Some v => v | None => show end in
  let labelListVisibility :=
    match opt_labelListVisibility options with Some v => v | None => labelShow end in
  tryCatch
    (labelsCreate labelName messageListVisibility labelListVisibility)
    (fun error =>
       if isErrorWith (str "already exists") error then
         throw (Mcp (createAPIError
                       (str "Label " ++ 34 :: labelName ++ 34
                          :: str " already exists. Please use a different name.")
                       (Some 409)))
       else
         throw (Mcp (createAPIError
                       (str "Failed to create label: " ++ errorMessageOf error)
                       None))).

Definition deleteLabel (labelId : jsstring) : M W unit :=
  _ <~ getGmailAPI ;;
  tryCatch
    (label <~ labelsGet labelId ;;
     if hasType system label then
       throw (Mcp (createAPIError
                     (str "Cannot delete system label with ID "
                        ++ 34 :: labelId ++ 34 :: str ".")
                     (Some 403)))
     else labelsDelete labelId)
    (fun error =>
       if isErrorWith (str "404") error then
         throw (Mcp (createNotFoundError
                       (str "Label with ID " ++ 34 :: labelId ++ 34
                          :: str " not found.")))
       else
         throw (Mcp (createAPIError
                       (str "Failed to delete label: " ++ errorMessageOf error)
                       None))).

Definition listLabels : M W LabelListResult :=
  _ <~ getGmailAPI ;;
  tryCatch
    (response <~ labelsList ;;
     let labels := match response with Some l => l | None => [] end in
     let systemLabels := filter (hasType system) labels in
     let userLabels := filter (hasType user) labels in
     ret (mkListResult labels systemLabels userLabels
            (mkCount (Z.of_nat (length labels))
                     (Z.of_nat (length systemLabels))
                     (Z.of_nat (length userLabels)))))
    (fun error =>
       throw (Mcp (createAPIError
                     (str "Failed to list labels: " ++ errorMessageOf error)
                     None))).

Definition findLabelByName (labelName : jsstring) : M W (option GmailLabel) :=
  tryCatch
    (labelList <~ listLabels ;;
     ret (find (fun label =>
                  jsstring_eqb (toLowerCase (name label)) (toLowerCase labelName))
               (all labelList)))
    (fun error =>
       throw (Mcp (createAPIError
                     (str "Failed to find label: " ++ errorMessageOf error)
                     None))).

Definition getOrCreateLabel (labelName : jsstring) (options : LabelOptions)
  : M W GmailLabel :=
  tryCatch
    (existingLabel <~ findLabelByName labelName ;;
     match existingLabel with
     | Some label => ret label
     | None => createLabel labelName options
     end)
    (fun error =>
       throw (Mcp (createAPIError
                     (str "Failed to get or create label: "
                        ++ errorMessageOf error)
                     None))).

End Service.

(** The word that the handler of get_or_create_label puts in its reply:
    [result.name === name ? 'found existing' : 'created new']. *)
Definition replyAction (result : GmailLabel) (requested : jsstring) : jsstring :=
  if jsstring_eqb (name result) requested
  then str "found existing" else str "created new".

End Labels.

(** ** Sending and reading: class EmailService of
    services/gmail-api.client.ts, and the reply of the read_email
    handler of tools/tool-handlers.ts *)

Module EmailService.

Import Errors Remote Builder Transport Mime.

(** [gmail_v1.Schema$Message] as the service fills it. *)
Record MessageRequest : Type := mkRequest {
  raw : jsstring;
  req_threadId : option jsstring
}.

Record Header : Type := mkHeader {
  h_name : option jsstring;
  h_value : option jsstring
}.

(** The response of [messages.get]: the payload is a message part and
    its headers. *)
Record MessageResponse : Type := mkResponse {
  payload : option (option (list Header) * GmailMessagePart);
  res_threadId : option jsstring
}.

Record EmailHeaders : Type := mkEmailHeaders {
  eh_subject : jsstring;
  eh_from : jsstring;
  eh_to : jsstring;
  eh_date : jsstring;
  eh_cc : option jsstring;
  eh_bcc : option jsstring
}.

Record EmailContent : Type := mkEmailContent {
  text : jsstring;
  html : jsstring;
  attachments : list EmailAttachment;
  headers : EmailHeaders;
  threadId : option jsstring
}.

(** [s ? s : undefined] *)
Definition whenTruthy (s : jsstring) : option jsstring :=
  if truthy s then Some s else None.

Section Service.

Context {W : Type}.

(** The mailbox: [getGmailAPI], [messages.send] (what it resolves to is
    [response.data.id]) and [messages.get]; the collaborators of the
    builder; the decoder of body data; [toLowerCase]. *)
Variable getGmailAPI : M W unit.
Variable messagesSend : MessageRequest -> M W (option jsstring).
Variable messagesGet : jsstring -> M W MessageResponse.
Variable existsSync : jsstring -> bool.
Variable basename : jsstring -> jsstring.
Variable sendMail : MailOptions -> result jsstring.
Variable decodeBody : jsstring -> jsstring.
Variable toLowerCase : jsstring -> jsstring.

(** [await this.emailBuilder.buildEmail(params)]: a build error is
    rethrown as it is. *)
Definition awaitBuild (built : result jsstring) : M W jsstring :=
  match built with
  | Ok message => ret message
  | Throw m => throw (PlainError m)
  end.

Definition sendEmail (random36 : jsstring) (params : SendEmailParams)
  : M W jsstring :=
  _ <~ getGmailAPI ;;
  message <~ awaitBuild (buildEmail existsSync basename sendMail random36 params) ;;
  let encodedMessage := encodeMessage message in
  let messageRequest :=
    mkRequest encodedMessage
              (if truthyOpt (Builder.threadId params)
               then Builder.threadId params else None) in
  tryCatch
    (response <~ messagesSend messageRequest ;;
     if truthyOpt response then
       ret (match response with Some id => id | None => [] end)
     else
       throw (Mcp (createAPIError
                     (str "Failed to send email: No message ID returned") None)))
    (fun error =>
       throw (Mcp (createAPIError
                     (str "Failed to send email: " ++ errorMessageOf error)
                     None))).

(** The closure [getHeader] of [readEmail]. *)
Definition getHeader (hs : list Header) (wanted : jsstring) : jsstring :=
  match find (fun h => match h_name h with
                       | Some n => jsstring_eqb (toLowerCase n) (toLowerCase wanted)
                       | None => false
                       end) hs with
  | Some h => orElse (h_value h) []
  | None => []
  end.

Definition readEmail (messageId : jsstring) : M W EmailContent :=
  _ <~ getGmailAPI ;;
  tryCatch
    (response <~ messagesGet messageId ;;
     match payload response with
     | None =>
         throw (Mcp (createNotFoundError
                       (str "Email with ID " ++ messageId ++ str " not found")))
     | Some (payloadHeaders, part) =>
         let hs := match payloadHeaders with Some l => l | None => [] end in
         let emailHeaders :=
           mkEmailHeaders (getHeader hs (str "subject")) (getHeader hs (str "from"))
                          (getHeader hs (str "to")) (getHeader hs (str "date"))
                          (whenTruthy (getHeader hs (str "cc")))
                          (whenTruthy (getHeader hs (str "bcc"))) in
         let '(t, h) := extractEmailContent decodeBody part in
         ret (mkEmailContent
                (if truthy t then t else h)
                h
                (extractAttachments part [])
                emailHeaders
                (match res_threadId response with
                 | Some id => whenTruthy id
                 | None => None
                 end))
     end)
    (fun error =>
       if isErrorWith (str "404") error then
         throw (Mcp (createNotFoundError
                       (str "Email with ID " ++ messageId ++ str " not found")))
       else
         throw (Mcp (createAPIError
                       (str "Failed to read email: " ++ errorMessageOf error)
                       None))).

End Service.

(** The note that the read_email handler puts before the body:
    [!email.text && email.html ? '[Note: ...]\n\n' : '']. *)
Definition contentTypeNote (email : EmailContent) : jsstring :=
  if negb (truthy (text email)) && truthy (html email)
  then str "[Note: This email is HTML-formatted. Plain text version not available.]"
       ++ [10; 10]
  else [].

End EmailService.

(** ** More concrete inputs *)

Module MoreExamples.

Import Errors Filters Remote.

(** A sender, a subject and a label, with [archive] set and [markAsRead]
    not set. *)
Definition newsletter : FilterTemplateParams :=
  mkTemplateParams (Some (str "news@example.com")) (Some (str "Weekly"))
                   None None None (Some [str "Label_7"]) (Some true) None None.

(** What the template withSubject makes of it: [archive] plays no part. *)
Definition newsletterBySubject : FilterConfig :=
  mkConfig
    (mkCriteria None None (Some (str "Weekly")) None None None None None None)
    (mkAction (Some [str "Label_7"]) None None).

(** A size threshold of 0. *)
Definition zeroSize : FilterTemplateParams :=
  mkTemplateParams None None None None (Some 0) None None None None.

(** A message with a plain and an html alternative and two attachments,
    the second without a file name or a MIME type. *)
Definition sampleMessage : Mime.GmailMessagePart :=
  Mime.mkPart None (Some (str "multipart/mixed")) None None
    [ Mime.mkPart None (Some (str "multipart/alternative")) None None
        [ Mime.mkPart None (Some (str "text/plain")) None
            (Some (Mime.mkBody None (Some 5) (Some (str "SGVsbG8")))) [];
          Mime.mkPart None (Some (str "text/html")) None
            (Some (Mime.mkBody None (Some 12) (Some (str "PHA-SGk8L3A-")))) [] ];
      Mime.mkPart None (Some (str "application/pdf")) (Some (str "report.pdf"))
        (Some (Mime.mkBody (Some (str "att-1")) (Some 2048) None)) [];
      Mime.mkPart None None None
        (Some (Mime.mkBody (Some (str "att-2")) None None)) [] ].

(** A message whose only content is an html part. *)
Definition htmlOnlyMessage : Mime.GmailMessagePart :=
  Mime.mkPart None (Some (str "text/html")) None
    (Some (Mime.mkBody None (Some 12) (Some (str "PHA-SGk8L3A-")))) [].

(** A mailbox of labels: its state is the list of its labels. *)
Definition inbox : Labels.GmailLabel :=
  Labels.mkLabel (str "INBOX") (str "INBOX") (Some Labels.system)
                 None None None None None.

Definition work : Labels.GmailLabel :=
  Labels.mkLabel (str "Label_1") (str "Work") (Some Labels.user)
                 None None None None None.

Definition twoLabels : list Labels.GmailLabel := [inbox; work].

Definition signedIn {W : Type} : M W unit := ret tt.

Definition listAll : M (list Labels.GmailLabel) (option (list Labels.GmailLabel)) :=
  fun w => (Returned (Some w), w).

Definition listFails : M (list Labels.GmailLabel) (option (list Labels.GmailLabel)) :=
  throw (PlainError (str "quota exceeded")).

Definition createIn (labelName : jsstring)
  (mlv : Labels.MessageListVisibility) (llv : Labels.LabelListVisibility)
  : M (list Labels.GmailLabel) Labels.GmailLabel :=
  fun w =>
    let label := Labels.mkLabel (str "Label_2") labelName (Some Labels.user)
                                (Some mlv) (Some llv) None None None in
    (Returned label, w ++ [label]).

Definition getFrom (labelId : jsstring)
  : M (list Labels.GmailLabel) Labels.GmailLabel :=
  fun w =>
    match find (fun l => jsstring_eqb (Labels.id l) labelId) w with
    | Some label => (Returned label, w)
    | None => (Threw (PlainError (str "Requested entity was not found.")), w)
    end.

Definition deleteFrom (labelId : jsstring) : M (list Labels.GmailLabel) unit :=
  fun w =>
    (Returned tt, filter (fun l => negb (jsstring_eqb (Labels.id l) labelId)) w).

(** [toLowerCase] on the letters A to Z. *)
Definition asciiLower (s : jsstring) : jsstring :=
  map (fun u => if (65 <=? u) && (u <=? 90) then u + 32 else u) s.

(** A mailbox of messages: its state is the list of the requests that
    were sent.  One transport answers with an id, one without; one
    store knows no message, one answers every id with the html-only
    message. *)
Definition sendAccepted (request : EmailService.MessageRequest)
  : M (list EmailService.MessageRequest) (option jsstring) :=
  fun w => (Returned (Some (str "msg-1")), w ++ [request]).

Definition sendWithoutId (request : EmailService.MessageRequest)
  : M (list EmailService.MessageRequest) (option jsstring) :=
  fun w => (Returned None, w ++ [request]).

Definition getNothing (messageId : jsstring)
  : M (list EmailService.MessageRequest) EmailService.MessageResponse :=
  ret (EmailService.mkResponse None None).

Definition getHtmlOnly (messageId : jsstring)
  : M (list EmailService.MessageRequest) EmailService.MessageResponse :=
  ret (EmailService.mkResponse
         (Some (Some [EmailService.mkHeader (Some (str "Subject"))
                                            (Some (str "Hi"))],
                htmlOnlyMessage))
         (Some (str "thread-1"))).

End MoreExamples.

(* ================================================================== *)
(** * Part II: the properties *)
(* ================================================================== *)

(** ** Lists, slices and joins *)

Section ListFacts.

Context {A : Type}.

Lemma firstn_min_length (n : nat) (l : list A) :
  firstn (Nat.min n (length l)) l = firstn n l.
Proof.
  destruct (Nat.le_ge_cases n (length l)) as [Hle | Hge].
  - now rewrite Nat.min_l.
  - rewrite Nat.min_r by assumption.
    now rewrite firstn_all, firstn_all2.
Qed.

(** Inside the array and with a positive width, [slice] is the next
    [width] elements. *)
Lemma slice_chunk (l : list A) (i width : Z) :
  0 <= i -> 0 <= width ->
  slice l i (i + width) = firstn (Z.to_nat width) (skipn (Z.to_nat i) l).
Proof.
  intros Hi Hw. unfold slice, relativeIndex.
  destruct (Z.ltb_spec i 0); [lia|].
  destruct (Z.ltb_spec (i + width) 0); [lia|].
  set (len := Z.of_nat (length l)).
  destruct (Z.le_gt_cases i len) as [Hin | Hout].
  - rewrite (Z.min_l i len) by assumption.
    rewrite <- (firstn_min_length (Z.to_nat width)).
    f_equal. rewrite length_skipn. subst len. lia.
  - rewrite (Z.min_r i len) by lia.
    rewrite !skipn_all2 by (subst len; lia).
    now rewrite !firstn_nil.
Qed.

(** A chunk followed by what is after it is what was left. *)
Lemma skipn_chunk (l : list A) (i width : Z) :
  0 <= i -> 0 <= width ->
  skipn (Z.to_nat i) l = slice l i (i + width) ++ skipn (Z.to_nat (i + width)) l.
Proof.
  intros Hi Hw. rewrite slice_chunk by assumption.
  rewrite Z2Nat.inj_add by assumption.
  rewrite Nat.add_comm, <- skipn_skipn.
  now rewrite firstn_skipn.
Qed.

End ListFacts.

(** ** The batch engine *)

Section BatchFacts.

Import Batch.

Context {T W : Type}.
Variable String_ : T -> jsstring.
Variable processFn : list T -> W -> option thrown * W.

Local Abbreviation processItem := (processItem String_ processFn).
Local Abbreviation processChunk := (processChunk String_ processFn).
Local Abbreviation loop := (loop String_ processFn).
Local Abbreviation run := (run String_ processFn).
Local Abbreviation processBatches := (processBatches String_ processFn).
Local Abbreviation extends := (extends String_).

Lemma extends_nil (acc : Acc W) : extends [] acc acc.
Proof.
  exists [], []. now rewrite !app_nil_r.
Qed.

Lemma extends_trans (xs ys : list T) (a b c : Acc W) :
  extends xs a b -> extends ys b c -> extends (xs ++ ys) a c.
Proof.
  intros (ss1 & fs1 & Hs1 & Hf1 & P1) (ss2 & fs2 & Hs2 & Hf2 & P2).
  exists (ss1 ++ ss2), (fs1 ++ fs2).
  rewrite Hs2, Hs1, Hf2, Hf1, !app_assoc. repeat split.
  rewrite !map_app.
  rewrite (Permutation_app P1 P2).
  rewrite <- !app_assoc. apply Permutation_app_head.
  rewrite !app_assoc. apply Permutation_app_tail.
  apply Permutation_app_comm.
Qed.

Lemma processItem_extends (acc : Acc W) (it : T) :
  extends [it] acc (processItem acc it).
Proof.
  unfold Batch.processItem.
  destruct (processFn [it] (acc_world acc)) as [[e|] w]; cbn.
  - exists [], [mkFailure (String_ it) (errorMessage e)].
    now rewrite app_nil_r.
  - exists [String_ it], []. now rewrite app_nil_r.
Qed.

Lemma fallback_extends (batch : list T) (acc : Acc W) :
  extends batch acc (fold_left processItem batch acc).
Proof.
  revert acc. induction batch as [|it batch IH]; intros acc; cbn.
  - apply extends_nil.
  - apply (extends_trans [it] batch _ (processItem acc it)).
    + apply processItem_extends.
    + apply IH.
Qed.

Lemma processChunk_extends (batch : list T) (acc : Acc W) :
  extends batch acc (processChunk batch acc).
Proof.
  unfold Batch.processChunk.
  destruct (processFn batch (acc_world acc)) as [[e|] w].
  - apply (fallback_extends batch (mkAcc _ _ w)).
  - exists (map String_ batch), []. cbn. now rewrite !app_nil_r.
Qed.

Lemma loop_extends (items : list T) (batchSize : Z) (fuel : nat) :
  1 <= batchSize ->
  forall (i : Z) (acc acc' : Acc W),
    0 <= i ->
    loop items batchSize fuel i acc = Some acc' ->
    extends (skipn (Z.to_nat i) items) acc acc'.
Proof.
  intros Hbs. induction fuel as [|fuel IH]; intros i acc acc' Hi Hrun.
  - discriminate.
  - cbn in Hrun. destruct (Z.ltb_spec i (Z.of_nat (length items))).
    + rewrite (skipn_chunk items i batchSize) by lia.
      eapply extends_trans.
      * apply processChunk_extends.
      * apply IH; [lia | exact Hrun].
    + injection Hrun as <-. rewrite skipn_all2 by lia. apply extends_nil.
Qed.

Lemma loop_terminates (items : list T) (batchSize : Z) (fuel : nat) :
  1 <= batchSize ->
  forall (i : Z) (acc : Acc W),
    Z.max 0 (Z.of_nat (length items) - i) < Z.of_nat fuel ->
    exists acc', loop items batchSize fuel i acc = Some acc'.
Proof.
  intros Hbs. induction fuel as [|fuel IH]; intros i acc Hfuel.
  - lia.
  - cbn. destruct (Z.ltb_spec i (Z.of_nat (length items))).
    + apply IH. lia.
    + now exists acc.
Qed.

Lemma loop_diverges (items : list T) (batchSize : Z) (fuel : nat) :
  batchSize <= 0 ->
  forall (i : Z) (acc : Acc W),
    i < Z.of_nat (length items) ->
    loop items batchSize fuel i acc = None.
Proof.
  intros Hbs. induction fuel as [|fuel IH]; intros i acc Hi.
  - reflexivity.
  - cbn. destruct (Z.ltb_spec i (Z.of_nat (length items))); [|lia].
    apply IH. lia.
Qed.

End BatchFacts.

Section BatchClaims.

Import Batch.

Context {T W : Type}.
Variable String_ : T -> jsstring.
Variable processFn : list T -> W -> option thrown * W.

Local Abbreviation run := (run String_ processFn).
Local Abbreviation processBatches := (processBatches String_ processFn).

Lemma run_extends (items : list T) (batchSize : Z) (w : W) (fuel : nat) :
  1 <= batchSize -> (length items < fuel)%nat ->
  exists acc : Acc W,
    run fuel items batchSize w = Some acc /\
    Permutation (map String_ items) (acc_successes acc ++ map item (acc_failures acc)).
Proof.
  intros Hbs Hfuel. unfold Batch.run.
  destruct (loop_terminates String_ processFn items batchSize fuel Hbs 0
              (mkAcc [] [] w)) as [acc Hacc]; [lia|].
  exists acc. split; [exact Hacc|].
  destruct (loop_extends String_ processFn items batchSize fuel Hbs 0 _ _
              (Z.le_refl 0) Hacc) as (ss & fs & Hs & Hf & P).
  cbn in Hs, Hf, P. now rewrite Hs, Hf.
Qed.

(** C1.  For every item list, every batch size of at least one and every
    action, [processBatches] returns a result in which the success count
    plus the number of failures is the number of items; the successes
    array the count is taken from, followed by the items of the failures,
    is a rearrangement of the stringified input, so each input item is
    accounted for exactly once. *)
Theorem processBatches_accounts_for_every_item
  (items : list T) (batchSize : Z) (w : W) (fuel : nat) :
  1 <= batchSize -> (length items < fuel)%nat ->
  exists (r : BatchResult) (w' : W) (ss : list jsstring),
    processBatches fuel items batchSize w = Some (r, w') /\
    successes r + Z.of_nat (length (failures r)) = Z.of_nat (length items) /\
    option_map (@acc_successes W) (run fuel items batchSize w) = Some ss /\
    successes r = Z.of_nat (length ss) /\
    Permutation (map String_ items) (ss ++ map item (failures r)).
Proof.
  intros Hbs Hfuel.
  destruct (run_extends items batchSize w fuel Hbs Hfuel) as (acc & Hrun & P).
  exists (mkBatchResult (Z.of_nat (length (acc_successes acc))) (acc_failures acc)),
         (acc_world acc), (acc_successes acc).
  unfold Batch.processBatches. rewrite Hrun. cbn.
  repeat split; try assumption.
  apply Permutation_length in P.
  rewrite length_app, !length_map in P. lia.
Qed.

(** C10.  With a batch size of at least one the loop of [processBatches]
    ends: [length items + 1] evaluations of the loop test are enough for
    any action.  The hypothesis is needed: with a batch size of zero or
    less and at least one item, no number of loop steps reaches the
    [return]. *)
Theorem processBatches_terminates_iff_positive
  (items : list T) (batchSize : Z) (w : W) :
  (1 <= batchSize ->
   exists (r : BatchResult) (w' : W),
     processBatches (S (length items)) items batchSize w = Some (r, w')) /\
  (batchSize <= 0 -> items <> [] ->
   forall fuel : nat, processBatches fuel items batchSize w = None).
Proof.
  split.
  - intros Hbs.
    destruct (run_extends items batchSize w (S (length items)) Hbs
                (Nat.lt_succ_diag_r _)) as (acc & Hrun & _).
    unfold Batch.processBatches. rewrite Hrun. eauto.
  - intros Hbs Hne fuel. unfold Batch.processBatches, Batch.run.
    rewrite (loop_diverges String_ processFn items batchSize fuel Hbs); [reflexivity|].
    destruct items; [contradiction | cbn; lia].
Qed.

(** C3.  When the chunk-level call succeeds, the loop body records every
    item of the chunk as a success, leaves the failures alone, and the
    only call made to the action is the one with the whole chunk: no
    [processFn([item])] follows, whatever such a call would have
    answered.  The outer loop runs its body on each chunk in turn. *)
Theorem chunk_success_skips_fallback
  (batch : list T) (acc : Acc W) (calls : list (list T)) (w' : W) :
  processFn batch (acc_world acc) = (None, w') ->
  let traced_acc :=
    mkAcc (acc_successes acc) (acc_failures acc) (acc_world acc, calls) in
  processChunk String_ (traced processFn) batch traced_acc
  = mkAcc (acc_successes acc ++ map String_ batch) (acc_failures acc)
          (w', calls ++ [batch])
  /\ forall (items : list T) (batchSize i : Z) (fuel : nat),
       i < Z.of_nat (length items) ->
       slice items i (i + batchSize) = batch ->
       loop String_ (traced processFn) items batchSize (S fuel) i traced_acc
       = loop String_ (traced processFn) items batchSize fuel (i + batchSize)
           (mkAcc (acc_successes acc ++ map String_ batch) (acc_failures acc)
                  (w', calls ++ [batch])).
Proof.
  intros Hok traced_acc.
  assert (Hbody :
    processChunk String_ (traced processFn) batch traced_acc
    = mkAcc (acc_successes acc ++ map String_ batch) (acc_failures acc)
            (w', calls ++ [batch])).
  { unfold Batch.processChunk, traced, traced_acc. cbn. now rewrite Hok. }
  split; [exact Hbody|].
  intros items batchSize i fuel Hi Hslice. cbn.
  destruct (Z.ltb_spec i (Z.of_nat (length items))); [|lia].
  now rewrite Hslice, Hbody.
Qed.

End BatchClaims.

Section BatchExample.

Import Batch Examples.

Lemma jsstring_eqb_eq (a b : jsstring) : jsstring_eqb a b = true <-> a = b.
Proof.
  revert b. induction a as [|x a IH]; intros [|y b]; cbn; try easy.
  rewrite andb_true_iff, Z.eqb_eq, IH. split.
  - now intros [-> ->].
  - intros [= -> ->]. easy.
Qed.

Lemma batch_eqb_eq (a b : list jsstring) : batch_eqb a b = true <-> a = b.
Proof.
  revert b. induction a as [|x a IH]; intros [|y b]; cbn; try easy.
  rewrite andb_true_iff, jsstring_eqb_eq, IH. split.
  - now intros [-> ->].
  - intros [= -> ->]. easy.
Qed.

Context {W : Type}.
Variable processFn : list jsstring -> W -> option thrown * W.

Hypothesis rejects_cd : forall w : W, fst (processFn chunkCD w) <> None.
Hypothesis resolves_otherwise :
  forall (batch : list jsstring) (w : W),
    batch <> chunkCD -> fst (processFn batch w) = None.

Local Abbreviation processItem := (processItem (fun s : jsstring => s) processFn).
Local Abbreviation processChunk := (processChunk (fun s : jsstring => s) processFn).
Local Abbreviation loop := (loop (fun s : jsstring => s) processFn).

(** The same run with every call of the action recorded. *)
Local Abbreviation tracedItem :=
  (Batch.processItem (fun s : jsstring => s) (traced processFn)).
Local Abbreviation tracedChunk :=
  (Batch.processChunk (fun s : jsstring => s) (traced processFn)).
Local Abbreviation tracedLoop :=
  (Batch.loop (fun s : jsstring => s) (traced processFn)).

Lemma other_call (batch : list jsstring) (w : W) :
  batch_eqb batch chunkCD = false ->
  exists w', processFn batch w = (None, w').
Proof.
  intros Hne. destruct (processFn batch w) as [r w'] eqn:E.
  exists w'. f_equal.
  change r with (fst (r, w')). rewrite <- E. apply resolves_otherwise.
  intros Heq. apply batch_eqb_eq in Heq. congruence.
Qed.

(** A call on one item resolves: the item is a success, and the log
    gains the one-item call. *)
Lemma single_item_succeeds (ss : list jsstring) (fs : list Failure) (w : W)
  (log : list (list jsstring)) (it : jsstring) :
  exists w',
    processItem (mkAcc ss fs w) it = mkAcc (ss ++ [it]) fs w' /\
    tracedItem (mkAcc ss fs (w, log)) it
    = mkAcc (ss ++ [it]) fs (w', log ++ [[it]]).
Proof.
  unfold Batch.processItem, traced.
  cbn [acc_world acc_successes acc_failures fst snd].
  destruct (other_call [it] w) as [w' ->]; [|now exists w'].
  cbn. now rewrite andb_false_r.
Qed.

(** A chunk other than [["c","d"]] resolves as a whole: one call. *)
Lemma other_chunk_succeeds (batch : list jsstring) (ss : list jsstring)
  (fs : list Failure) (w : W) (log : list (list jsstring)) :
  batch_eqb batch chunkCD = false ->
  exists w',
    processChunk batch (mkAcc ss fs w) = mkAcc (ss ++ batch) fs w' /\
    tracedChunk batch (mkAcc ss fs (w, log))
    = mkAcc (ss ++ batch) fs (w', log ++ [batch]).
Proof.
  intros Hne. unfold Batch.processChunk, traced.
  cbn [acc_world acc_successes acc_failures fst snd].
  destruct (other_call batch w Hne) as [w' ->].
  exists w'. now rewrite map_id.
Qed.

(** The chunk [["c","d"]] is rejected as a whole, and its two items are
    then called one by one and resolve: three calls. *)
Lemma chunk_cd_falls_back (ss : list jsstring) (fs : list Failure) (w : W)
  (log : list (list jsstring)) :
  exists w',
    processChunk chunkCD (mkAcc ss fs w) = mkAcc (ss ++ chunkCD) fs w' /\
    tracedChunk chunkCD (mkAcc ss fs (w, log))
    = mkAcc (ss ++ chunkCD) fs
            (w', log ++ [chunkCD; [str "c"]; [str "d"]]).
Proof.
  unfold Batch.processChunk. unfold traced at 1.
  cbn [acc_world acc_successes acc_failures fst snd].
  destruct (processFn chunkCD w) as [[e|] w1] eqn:E.
  - unfold chunkCD. cbn [fold_left].
    destruct (single_item_succeeds ss fs w1 (log ++ [[str "c"; str "d"]])
                (str "c"))
      as (w2 & -> & ->).
    destruct (single_item_succeeds (ss ++ [str "c"]) fs w2
                ((log ++ [[str "c"; str "d"]]) ++ [[str "c"]]) (str "d"))
      as (w3 & -> & ->).
    exists w3. now rewrite <- !app_assoc.
  - exfalso. apply (rejects_cd w). now rewrite E.
Qed.

Lemma loop_step {V : Type}
  (fn : list jsstring -> V -> option thrown * V)
  (items : list jsstring) (batchSize : Z) (fuel : nat) (i : Z) (acc : Acc V) :
  Batch.loop (fun s : jsstring => s) fn items batchSize (S fuel) i acc
  = if i <? Z.of_nat (length items)
    then Batch.loop (fun s : jsstring => s) fn items batchSize fuel
           (i + batchSize)
           (Batch.processChunk (fun s : jsstring => s) fn
              (slice items i (i + batchSize)) acc)
    else Some acc.
Proof. reflexivity. Qed.

(** C2, as the code has it.  With items a, b, c, d, e, batch size 2 and an
    action that rejects exactly the argument [["c","d"]], the run makes
    five calls, in this order: [["a","b"]], [["c","d"]] (the bulk call
    that is rejected), the two fallback calls [["c"]] and [["d"]] (which
    resolve), and [["e"]]; the result counts five successes and no
    failure, with or without the calls recorded. *)
Theorem example_cd_fallback_all_succeed (fuel : nat) (w : W) :
  (4 <= fuel)%nat ->
  exists w' : W,
    processBatches (fun s => s) processFn fuel items5 2 w
    = Some (mkBatchResult 5 [], w') /\
    processBatches (fun s => s) (traced processFn) fuel items5 2 (w, [])
    = Some (mkBatchResult 5 [],
            (w', [[str "a"; str "b"]; [str "c"; str "d"];
                  [str "c"]; [str "d"]; [str "e"]])).
Proof.
  intros Hfuel.
  do 4 (destruct fuel as [|fuel]; [lia|]). clear Hfuel.
  unfold processBatches, run.
  rewrite !loop_step.
  change (0 <? Z.of_nat (length items5)) with true. cbv iota.
  change (slice items5 0 (0 + 2)) with [str "a"; str "b"].
  destruct (other_chunk_succeeds [str "a"; str "b"] [] [] w [] eq_refl)
    as (w1 & -> & ->).
  change (0 + 2 <? Z.of_nat (length items5)) with true. cbv iota.
  change (slice items5 (0 + 2) (0 + 2 + 2)) with chunkCD.
  destruct (chunk_cd_falls_back ([] ++ [str "a"; str "b"]) [] w1
              ([] ++ [[str "a"; str "b"]]))
    as (w2 & -> & ->).
  change (0 + 2 + 2 <? Z.of_nat (length items5)) with true. cbv iota.
  change (slice items5 (0 + 2 + 2) (0 + 2 + 2 + 2)) with [str "e"].
  destruct (other_chunk_succeeds [str "e"]
              (([] ++ [str "a"; str "b"]) ++ chunkCD) [] w2
              (([] ++ [[str "a"; str "b"]])
               ++ [chunkCD; [str "c"]; [str "d"]]) eq_refl)
    as (w3 & -> & ->).
  change (0 + 2 + 2 + 2 <? Z.of_nat (length items5)) with false. cbv iota.
  exists w3. split; reflexivity.
Qed.

End BatchExample.

(** ** The batch engine on the examples *)

Section BatchWitnesses.

Import Batch Examples.

Lemma throwsOnCD_rejects_cd (w : unit) : fst (throwsOnCD chunkCD w) <> None.
Proof. discriminate. Qed.

Lemma throwsOnCD_resolves_otherwise (batch : list jsstring) (w : unit) :
  batch <> chunkCD -> fst (throwsOnCD batch w) = None.
Proof.
  intros Hne. unfold throwsOnCD.
  destruct (batch_eqb batch chunkCD) eqn:E; [|reflexivity].
  apply batch_eqb_eq in E. contradiction.
Qed.

Lemma processBatches_accounts_for_every_item_witness :
  1 <= 2 /\ (length items5 < 6)%nat /\
  exists (r : BatchResult) (w' : unit) (ss : list jsstring),
    processBatches (fun s => s) throwsOnCD 6 items5 2 tt = Some (r, w') /\
    successes r + Z.of_nat (length (failures r)) = Z.of_nat (length items5) /\
    option_map (@acc_successes unit) (run (fun s => s) throwsOnCD 6 items5 2 tt)
    = Some ss /\
    successes r = Z.of_nat (length ss) /\
    Permutation (map (fun s => s) items5) (ss ++ map item (failures r)).
Proof.
  split; [lia|]. split; [cbn; lia|].
  apply (processBatches_accounts_for_every_item (fun s => s) throwsOnCD
           items5 2 tt 6); [lia | cbn; lia].
Defined.

Lemma example_cd_fallback_all_succeed_witness :
  (4 <= 4)%nat /\
  exists w' : unit,
    processBatches (fun s => s) throwsOnCD 4 items5 2 tt
    = Some (mkBatchResult 5 [], w') /\
    processBatches (fun s => s) (traced throwsOnCD) 4 items5 2 (tt, [])
    = Some (mkBatchResult 5 [],
            (w', [[str "a"; str "b"]; [str "c"; str "d"];
                  [str "c"]; [str "d"]; [str "e"]])).
Proof.
  split; [lia|].
  apply (example_cd_fallback_all_succeed throwsOnCD throwsOnCD_rejects_cd
           throwsOnCD_resolves_otherwise 4 tt); lia.
Defined.

(** The result the specification's example announces, three successes
    with c and d among the failures, is not what the code returns, with
    any amount of fuel. *)
Lemma example_cd_three_successes_refuted :
  ~ exists (fuel : nat) (r : BatchResult) (w' : unit),
      processBatches (fun s => s) throwsOnCD fuel items5 2 tt = Some (r, w') /\
      successes r = 3 /\
      map item (failures r) = [str "c"; str "d"].
Proof.
  intros (fuel & r & w' & Hrun & H3 & _).
  do 4 (destruct fuel as [|fuel]; [discriminate Hrun|]).
  vm_compute in Hrun. injection Hrun as <- _.
  discriminate H3.
Qed.

Lemma chunk_success_skips_fallback_witness :
  throwsOnB [str "a"; str "b"] tt = (None, tt) /\
  processChunk (fun s => s) (traced throwsOnB) [str "a"; str "b"]
    (mkAcc [] [] (tt, []))
  = mkAcc [str "a"; str "b"] [] (tt, [[str "a"; str "b"]]).
Proof.
  split; [reflexivity|].
  exact (proj1 (chunk_success_skips_fallback (fun s => s) throwsOnB
                  [str "a"; str "b"] (mkAcc [] [] tt) [] tt eq_refl)).
Defined.

(** Item b is rejected on its own, and counted as a success when the bulk
    call on its chunk passes: the run makes one call per chunk. *)
Example masked_failure_run :
  processBatches (fun s => s) (traced throwsOnB) 3
    [str "a"; str "b"; str "c"] 2 (tt, [])
  = Some (mkBatchResult 3 [],
          (tt, [[str "a"; str "b"]; [str "c"]]))
  /\ throwsOnB [str "b"] tt = (Some (ErrorObject (str "item failed")), tt).
Proof. split; reflexivity. Qed.

Lemma processBatches_terminates_iff_positive_witness :
  1 <= 2 /\
  (exists (r : BatchResult) (w' : unit),
     processBatches (fun s => s) throwsOnCD 6 items5 2 tt = Some (r, w')) /\
  0 <= 0 /\ items5 <> [] /\
  (forall fuel : nat,
     processBatches (fun s => s) throwsOnCD fuel items5 0 tt = None).
Proof.
  split; [lia|]. split.
  - apply (proj1 (processBatches_terminates_iff_positive (fun s => s)
                    throwsOnCD items5 2 tt)). lia.
  - split; [lia|]. split; [discriminate|].
    apply (proj2 (processBatches_terminates_iff_positive (fun s => s)
                    throwsOnCD items5 0 tt)); [lia | discriminate].
Defined.

End BatchWitnesses.

(** ** Address validation *)

Section ValidationFacts.

Import Validation.

Lemma spanAddr_spec (s : jsstring) :
  forall p r, spanAddr s = (p, r) ->
    s = p ++ r /\ forallb addrChar p = true /\
    match r with
    | [] => True
    | u :: _ => addrChar u = false
    end.
Proof.
  induction s as [|u s IH]; intros p r; cbn.
  - intros [= <- <-]. easy.
  - destruct (addrChar u) eqn:Hu.
    + destruct (spanAddr s) as [p' r'].
      intros [= <- <-]. destruct (IH p' r' eq_refl) as (-> & Hp & Hr).
      cbn. now rewrite Hu, Hp.
    + intros [= <- <-]. cbn. now rewrite Hu.
Qed.

Lemma spanAddr_app (a r : jsstring) (u : Z) :
  forallb addrChar a = true -> addrChar u = false ->
  spanAddr (a ++ u :: r) = (a, u :: r).
Proof.
  intros Ha Hu. induction a as [|x a IH]; cbn.
  - now rewrite Hu.
  - cbn in Ha. apply andb_true_iff in Ha as [Hx Ha].
    now rewrite Hx, (IH Ha).
Qed.

Lemma dotBeforeLast_split (s : jsstring) :
  dotBeforeLast s = true <->
  exists m c : jsstring, s = m ++ dot :: c /\ c <> [].
Proof.
  induction s as [|u s IH]; cbn.
  - split; [discriminate|]. intros (m & c & H & _). now destruct m.
  - rewrite orb_true_iff, andb_true_iff, Z.eqb_eq, IH. split.
    + intros [[-> Hs] | (m & c & -> & Hc)].
      * exists [], s. split; [reflexivity|]. now destruct s.
      * now exists (u :: m), c.
    + intros (m & c & H & Hc). destruct m as [|x m]; cbn in H.
      * injection H as -> ->. left. split; [reflexivity|]. now destruct c.
      * injection H as -> ->. right. now exists m, c.
Qed.

(** [validateEmail] decides the language of the regular expression
    [/^[^\s@]+@[^\s@]+\.[^\s@]+$/]. *)
Lemma validateEmail_regex (email : jsstring) :
  validateEmail email = true <-> matchesEmailRegex email.
Proof.
  unfold validateEmail, matchesEmailRegex. split.
  - destruct (spanAddr email) as [a r] eqn:Hspan.
    destruct (spanAddr_spec _ _ _ Hspan) as (-> & Ha & _).
    rewrite andb_true_iff. intros [Hne Hrest].
    destruct r as [|u domain]; [discriminate|].
    rewrite !andb_true_iff, Z.eqb_eq in Hrest.
    destruct Hrest as [[-> Hdom] Hdot].
    destruct domain as [|x domain']; [discriminate|].
    apply dotBeforeLast_split in Hdot as (m & c & -> & Hc).
    exists a, (x :: m), c.
    change (forallb addrChar ((x :: m) ++ dot :: c) = true) in Hdom.
    rewrite forallb_app in Hdom. cbn [forallb] in Hdom.
    apply andb_true_iff in Hdom as [Hb Hdom].
    apply andb_true_iff in Hdom as [_ Hcs].
    repeat split; try assumption; try discriminate.
    now destruct a.
  - intros (a & b & c & -> & Hane & Hbne & Hcne & Ha & Hb & Hc).
    rewrite (spanAddr_app a (b ++ dot :: c) atSign Ha eq_refl).
    destruct a as [|a0 a]; [contradiction|]. cbn [truthy andb].
    rewrite Z.eqb_refl, forallb_app. cbn [forallb andb].
    rewrite Hb, Hc. change (addrChar dot) with true. cbn [andb].
    destruct b as [|b0 b]; [contradiction|]. cbn [app].
    apply dotBeforeLast_split. now exists b, c.
Qed.

Lemma validateEmailArray_app (xs ys : list jsstring) :
  validateEmailArray (xs ++ ys)
  = (validateEmailArray xs ;;; validateEmailArray ys).
Proof.
  induction xs as [|x xs IH]; cbn; [reflexivity|].
  now destruct (validateEmail x).
Qed.

(** The outcome of [validateEmailArray] is decided by the first address
    that fails [validateEmail]. *)
Lemma validateEmailArray_find (emails : list jsstring) :
  validateEmailArray emails
  = match find (fun e => negb (validateEmail e)) emails with
    | Some e => Throw (str "Invalid email address: " ++ e)
    | None => Ok tt
    end.
Proof.
  induction emails as [|e emails IH]; cbn; [reflexivity|].
  now destruct (validateEmail e).
Qed.

Lemma find_invalid (emails : list jsstring) :
  forallb validateEmail emails = false ->
  exists e, find (fun e => negb (validateEmail e)) emails = Some e /\
            In e emails /\ validateEmail e = false.
Proof.
  induction emails as [|x emails IH]; cbn; [discriminate|].
  destruct (validateEmail x) eqn:Hx; cbn.
  - intros H. destruct (IH H) as (e & Hf & Hin & He). eauto.
  - intros _. exists x. auto.
Qed.

Lemma find_all_valid (emails : list jsstring) :
  forallb validateEmail emails = true ->
  find (fun e => negb (validateEmail e)) emails = None.
Proof.
  induction emails as [|x emails IH]; cbn; [reflexivity|].
  destruct (validateEmail x); cbn; [exact IH | discriminate].
Qed.

End ValidationFacts.

(** ** Joined lines and substrings *)

Section StringFacts.

Lemma startsWith_app (t rest : jsstring) : startsWith (t ++ rest) t = true.
Proof.
  induction t as [|c t IH]; cbn; [reflexivity|].
  now rewrite Z.eqb_refl, IH.
Qed.

Lemma startsWith_prefix (s p q : jsstring) :
  startsWith s (p ++ q) = true -> startsWith s p = true.
Proof.
  revert s. induction p as [|c p IH]; intros s; cbn; [reflexivity|].
  destruct s as [|x s]; [discriminate|].
  rewrite !andb_true_iff. intros [Hx Hs]. split; [exact Hx | now apply IH].
Qed.

Lemma includes_cons (s t : jsstring) (c : Z) :
  includes s t = true -> includes (c :: s) t = true.
Proof.
  intros H. cbn [includes]. rewrite H. apply orb_true_r.
Qed.

Lemma includes_middle (pre t post : jsstring) :
  includes (pre ++ t ++ post) t = true.
Proof.
  induction pre as [|c pre IH].
  - cbn [app]. destruct (t ++ post) eqn:E; cbn [includes];
      rewrite <- E, startsWith_app; reflexivity.
  - apply includes_cons, IH.
Qed.

(** A body that does not contain a prefix of the token does not contain
    the token. *)
Lemma includes_prefix (s p q : jsstring) :
  includes s p = false -> includes s (p ++ q) = false.
Proof.
  induction s as [|c s IH]; cbn [includes]; rewrite !orb_false_iff.
  - intros [Hp _]. split; [|reflexivity].
    destruct (startsWith [] (p ++ q)) eqn:E; [|reflexivity].
    apply startsWith_prefix in E. congruence.
  - intros [Hp Hs]. split; [|now apply IH].
    destruct (startsWith (c :: s) (p ++ q)) eqn:E; [|reflexivity].
    apply startsWith_prefix in E. congruence.
Qed.

Lemma join_cons (sep p : jsstring) (rest : list jsstring) :
  rest <> [] -> join sep (p :: rest) = p ++ sep ++ join sep rest.
Proof. now destruct rest. Qed.

Lemma join_In (sep l : jsstring) (parts : list jsstring) :
  In l parts -> exists pre post, join sep parts = pre ++ l ++ post.
Proof.
  induction parts as [|p parts IH]; [contradiction|].
  intros [-> | Hin].
  - destruct parts as [|q parts].
    + exists [], []. cbn. now rewrite app_nil_r.
    + exists [], (sep ++ join sep (q :: parts)). reflexivity.
  - destruct (IH Hin) as (pre & post & E).
    destruct parts as [|q parts]; [contradiction|].
    exists (p ++ sep ++ pre), post.
    rewrite join_cons by discriminate. rewrite E.
    now rewrite <- !app_assoc.
Qed.

Lemma join_includes (sep l : jsstring) (parts : list jsstring) :
  In l parts -> includes (join sep parts) l = true.
Proof.
  intros Hin. destruct (join_In sep l parts Hin) as (pre & post & ->).
  apply includes_middle.
Qed.

Lemma filterBoolean_keeps (l : jsstring) (parts : list jsstring) :
  In l parts -> truthy l = true -> In l (filterBoolean parts).
Proof. intros. apply filter_In. auto. Qed.

(** [filter(Boolean)] removes every empty string, the ones that stand
    for blank lines included. *)
Lemma filterBoolean_drops_blank (parts : list jsstring) :
  ~ In [] (filterBoolean parts).
Proof.
  intros H. apply filter_In in H as [_ H]. discriminate.
Qed.

End StringFacts.

(** ** The message builder *)

Section BuilderFacts.

Import Validation Builder.

Variable existsSync : jsstring -> bool.
Variable basename : jsstring -> jsstring.
Variable sendMail : MailOptions -> result jsstring.

Local Abbreviation buildEmailWithAttachments :=
  (buildEmailWithAttachments existsSync basename sendMail).
Local Abbreviation buildEmail := (buildEmail existsSync basename sendMail).

(** The three validation statements that open every build function
    validate [addresses params] from left to right. *)
Lemma validation_prelude {A : Type} (params : SendEmailParams) (k : result A) :
  (validateEmailArray (to params) ;;;
   whenPresent (cc params) validateEmailArray ;;;
   whenPresent (bcc params) validateEmailArray ;;; k)
  = (validateEmailArray (addresses params) ;;; k).
Proof.
  unfold addresses, whenPresent. rewrite !validateEmailArray_app.
  destruct (validateEmailArray (to params)) as [[]|m]; cbn; [|reflexivity].
  destruct (cc params) as [l|]; cbn.
  - destruct (validateEmailArray l) as [[]|m]; cbn; [|reflexivity].
    destruct (bcc params) as [l'|]; cbn; [|reflexivity].
    now destruct (validateEmailArray l') as [[]|m].
  - destruct (bcc params) as [l'|]; cbn; [|reflexivity].
    now destruct (validateEmailArray l') as [[]|m].
Qed.

Lemma valid_addresses (params : SendEmailParams) :
  forallb validateEmail (addresses params) = true ->
  validateEmailArray (addresses params) = Ok tt.
Proof.
  intros H. rewrite validateEmailArray_find. now rewrite find_all_valid.
Qed.

Lemma buildPlainTextEmail_valid (params : SendEmailParams) :
  forallb validateEmail (addresses params) = true ->
  buildPlainTextEmail params
  = Ok (join CRLF (filterBoolean (plainTextParts params))).
Proof.
  intros H. unfold buildPlainTextEmail.
  now rewrite validation_prelude, valid_addresses.
Qed.

Lemma buildHTMLEmail_valid (params : SendEmailParams) :
  forallb validateEmail (addresses params) = true ->
  buildHTMLEmail params = Ok (join CRLF (filterBoolean (htmlParts params))).
Proof.
  intros H. unfold buildHTMLEmail.
  now rewrite validation_prelude, valid_addresses.
Qed.

Lemma buildMultipartEmail_valid (random36 : jsstring) (params : SendEmailParams) :
  forallb validateEmail (addresses params) = true ->
  buildMultipartEmail random36 params
  = Ok (join CRLF (filterBoolean
                     (multipartParts (makeBoundary random36) params))).
Proof.
  intros H. unfold buildMultipartEmail.
  now rewrite validation_prelude, valid_addresses.
Qed.

Lemma buildEmailWithAttachments_prelude (params : SendEmailParams) :
  buildEmailWithAttachments params
  = (validateEmailArray (addresses params) ;;;
     match attachments params with
     | None | Some [] => Throw (str "No attachments provided")
     | Some paths =>
         atts <- prepareAttachments existsSync basename paths ;;
         sendMail (mkMailOptions (str "me") (join (str ", ") (to params))
                     (option_map (join (str ", ")) (cc params))
                     (option_map (join (str ", ")) (bcc params))
                     (subject params) (body params) (htmlBody params) atts
                     (inReplyTo params) (inReplyTo params))
     end).
Proof.
  unfold Builder.buildEmailWithAttachments. apply validation_prelude.
Qed.

(** The attachment loop fails at the first path that does not exist. *)
Lemma prepareAttachments_missing (paths : list jsstring) :
  forallb existsSync paths = false ->
  exists p,
    find (fun p => negb (existsSync p)) paths = Some p /\
    In p paths /\ existsSync p = false /\
    prepareAttachments existsSync basename paths
    = Throw (str "File does not exist: " ++ p).
Proof.
  induction paths as [|q paths IH]; cbn; [discriminate|].
  destruct (existsSync q) eqn:Hq; cbn.
  - intros H. destruct (IH H) as (p & Hf & Hin & Hp & ->).
    exists p. auto.
  - intros _. exists q. auto.
Qed.

End BuilderFacts.

Section BuilderClaims.

Import Validation Builder.

Variable existsSync : jsstring -> bool.
Variable basename : jsstring -> jsstring.
Variable sendMail : MailOptions -> result jsstring.

Local Abbreviation buildEmailWithAttachments :=
  (buildEmailWithAttachments existsSync basename sendMail).
Local Abbreviation buildEmail := (buildEmail existsSync basename sendMail).

(** C5, as the code has it.  Whenever some address of [to], or of [cc] or
    [bcc] when present, fails [validateEmail], every build function, the
    dispatching [buildEmail] included, throws the validation error that
    names the first such address and returns no document.  An empty [to]
    is not among the failures: the validation loop has nothing to reject
    there. *)
Theorem invalid_address_fails_every_build
  (random36 : jsstring) (params : SendEmailParams) :
  forallb validateEmail (addresses params) = false ->
  exists e : jsstring,
    In e (addresses params) /\ validateEmail e = false /\
    find (fun a => negb (validateEmail a)) (addresses params) = Some e /\
    buildPlainTextEmail params = Throw (str "Invalid email address: " ++ e) /\
    buildHTMLEmail params = Throw (str "Invalid email address: " ++ e) /\
    buildMultipartEmail random36 params
    = Throw (str "Invalid email address: " ++ e) /\
    buildEmailWithAttachments params
    = Throw (str "Invalid email address: " ++ e) /\
    buildEmail random36 params = Throw (str "Invalid email address: " ++ e).
Proof.
  intros Hbad. destruct (find_invalid _ Hbad) as (e & Hfind & Hin & He).
  exists e. repeat split; try assumption.
  - unfold buildPlainTextEmail.
    now rewrite validation_prelude, validateEmailArray_find, Hfind.
  - unfold buildHTMLEmail.
    now rewrite validation_prelude, validateEmailArray_find, Hfind.
  - unfold buildMultipartEmail.
    now rewrite validation_prelude, validateEmailArray_find, Hfind.
  - rewrite buildEmailWithAttachments_prelude.
    now rewrite validateEmailArray_find, Hfind.
  - unfold Builder.buildEmail.
    rewrite buildEmailWithAttachments_prelude.
    unfold buildMultipartEmail, buildHTMLEmail, buildPlainTextEmail.
    rewrite !validation_prelude, validateEmailArray_find, Hfind.
    cbn [bind].
    destruct (hasAttachments params); [reflexivity|].
    destruct (truthyOpt (htmlBody params) && _); [reflexivity|].
    now destruct (MimeType_eqb _ TextHtml).
Qed.

(** C9.  [buildEmailWithAttachments] throws, and so returns no document,
    whenever the attachments are absent or empty or some listed path does
    not exist.  When the addresses are valid the error names the missing
    precondition: no attachment at all, or the first listed path that
    does not exist. *)
Theorem missing_attachment_fails_build (params : SendEmailParams) :
  (attachments params = None \/ attachments params = Some [] \/
   exists paths, attachments params = Some paths /\
                 forallb existsSync paths = false) ->
  (exists m : jsstring, buildEmailWithAttachments params = Throw m) /\
  (forallb validateEmail (addresses params) = true ->
   match attachments params with
   | None | Some [] =>
       buildEmailWithAttachments params = Throw (str "No attachments provided")
   | Some paths =>
       exists p : jsstring,
         find (fun q => negb (existsSync q)) paths = Some p /\
         In p paths /\ existsSync p = false /\
         buildEmailWithAttachments params
         = Throw (str "File does not exist: " ++ p)
   end).
Proof.
  intros Hmissing. rewrite buildEmailWithAttachments_prelude.
  destruct (validateEmailArray (addresses params)) as [[]|m] eqn:Hv;
    cbn [bind].
  - destruct Hmissing as [Hn | [Hn | (paths & Hn & Hpaths)]]; rewrite Hn.
    + split; [eauto | reflexivity].
    + split; [eauto | reflexivity].
    + destruct paths as [|q paths]; [discriminate|].
      destruct (prepareAttachments_missing existsSync basename _ Hpaths)
        as (p & Hf & Hin & Hp & Hthrow).
      rewrite Hthrow. cbn [bind]. split; [eauto|].
      intros _. exists p. auto.
  - split; [eauto|]. intros Hvalid.
    rewrite (valid_addresses params Hvalid) in Hv. discriminate.
Qed.

Lemma hasAttachments_spec (params : SendEmailParams) :
  hasAttachments params = true <->
  exists p ps, attachments params = Some (p :: ps).
Proof.
  unfold hasAttachments. destruct (attachments params) as [[|p ps]|].
  - split; [discriminate | intros (? & ? & [=])].
  - split; eauto.
  - split; [discriminate | intros (? & ? & [=])].
Qed.

(** C4, as the code has it.  [buildEmail] chooses by this order: a
    present, non-empty attachments list gives the attachment builder
    whatever the other fields are; otherwise an [htmlBody] that is present
    and not the empty string, with a content mode other than plain (the
    default), gives the multipart builder; otherwise the html content mode
    gives the html builder; otherwise the plain builder.  A request with a
    non-empty [htmlBody], content mode multipart/alternative, no
    attachments and valid addresses yields a multipart document with a
    text/plain and a text/html part. *)
Theorem buildEmail_decision_order
  (random36 : jsstring) (params : SendEmailParams) :
  ((exists p ps, attachments params = Some (p :: ps)) ->
   buildEmail random36 params = buildEmailWithAttachments params) /\
  (hasAttachments params = false ->
   truthyOpt (htmlBody params) = true ->
   mimeType params = Some TextHtml \/
   mimeType params = Some MultipartAlternative ->
   buildEmail random36 params = buildMultipartEmail random36 params) /\
  (hasAttachments params = false ->
   truthyOpt (htmlBody params) = false ->
   mimeType params = Some TextHtml ->
   buildEmail random36 params = buildHTMLEmail params) /\
  (hasAttachments params = false ->
   mimeType params = None \/ mimeType params = Some TextPlain \/
   (truthyOpt (htmlBody params) = false /\
    mimeType params = Some MultipartAlternative) ->
   buildEmail random36 params = buildPlainTextEmail params) /\
  (hasAttachments params = false ->
   truthyOpt (htmlBody params) = true ->
   mimeType params = Some MultipartAlternative ->
   forallb validateEmail (addresses params) = true ->
   exists doc : jsstring,
     buildEmail random36 params = Ok doc /\
     includes doc (str "Content-Type: multipart/alternative; boundary=") = true /\
     includes doc (str "Content-Type: text/plain; charset=UTF-8") = true /\
     includes doc (str "Content-Type: text/html; charset=UTF-8") = true).
Proof.
  assert (Hmulti :
    hasAttachments params = false ->
    truthyOpt (htmlBody params) = true ->
    mimeType params = Some TextHtml \/
    mimeType params = Some MultipartAlternative ->
    buildEmail random36 params = buildMultipartEmail random36 params).
  { intros Hatt Hhtml Hmime. unfold Builder.buildEmail.
    rewrite Hatt, Hhtml. now destruct Hmime as [-> | ->]. }
  repeat split.
  - intros Hatt. apply hasAttachments_spec in Hatt.
    unfold Builder.buildEmail. now rewrite Hatt.
  - exact Hmulti.
  - intros Hatt Hhtml Hmime. unfold Builder.buildEmail.
    now rewrite Hatt, Hhtml, Hmime.
  - intros Hatt Hmime. unfold Builder.buildEmail. rewrite Hatt.
    destruct Hmime as [-> | [-> | [-> ->]]];
      cbn; now rewrite ?andb_false_r.
  - intros Hatt Hhtml Hmime Hvalid.
    rewrite (Hmulti Hatt Hhtml (or_intror Hmime)).
    rewrite (buildMultipartEmail_valid random36 params Hvalid).
    eexists. split; [reflexivity|].
    repeat split.
    + destruct (join_In CRLF
                 (str "Content-Type: multipart/alternative; boundary="
                  ++ quote :: makeBoundary random36 ++ [quote])
                 (filterBoolean (multipartParts (makeBoundary random36) params)))
        as (pre & post & ->).
      { apply filterBoolean_keeps; [|reflexivity]. cbn. tauto. }
      rewrite <- !app_assoc. apply includes_middle.
    + apply join_includes, filterBoolean_keeps; [|reflexivity]. cbn. tauto.
    + apply join_includes, filterBoolean_keeps; [|reflexivity]. cbn. tauto.
Qed.

(** C7, as the code has it.  For valid addresses the multipart document
    is the CRLF-joined sequence of: the header lines, the Content-Type
    line that declares the boundary token, then the text/plain part and
    the text/html part in this order, each opened by the delimiter line
    ["--" ++ token] and its own Content-Type and
    Content-Transfer-Encoding lines and followed by its body text (when
    not empty), then the closing delimiter ["--" ++ token ++ "--"].  The
    token is ["----=_NextPart_"] followed by the random string: a body
    text without ["----=_NextPart_"] does not contain the token, and
    nothing else keeps the token out of the bodies. *)
Theorem multipart_two_parts_in_order
  (random36 : jsstring) (params : SendEmailParams) :
  forallb validateEmail (addresses params) = true ->
  let token := makeBoundary random36 in
  let plain := body params in
  let html := orElse (htmlBody params) (body params) in
  buildMultipartEmail random36 params
  = Ok (join CRLF
          (filterBoolean (firstn 8 (plainTextParts params))
           ++ [str "Content-Type: multipart/alternative; boundary="
                 ++ quote :: token ++ [quote]]
           ++ [str "--" ++ token;
               str "Content-Type: text/plain; charset=UTF-8";
               str "Content-Transfer-Encoding: 7bit"]
           ++ filterBoolean [plain]
           ++ [str "--" ++ token;
               str "Content-Type: text/html; charset=UTF-8";
               str "Content-Transfer-Encoding: 7bit"]
           ++ filterBoolean [html]
           ++ [str "--" ++ token ++ str "--"]))
  /\ (includes plain (str "----=_NextPart_") = false ->
      includes plain token = false)
  /\ (includes html (str "----=_NextPart_") = false ->
      includes html token = false).
Proof.
  intros Hvalid token plain html. repeat split.
  - rewrite (buildMultipartEmail_valid random36 params Hvalid).
    subst token plain html. do 2 f_equal.
    unfold multipartParts, plainTextParts, filterBoolean, orElse, ifArray,
      ifString.
    destruct (cc params), (bcc params), (inReplyTo params) as [[|]|],
      (body params), (htmlBody params) as [[|]|]; reflexivity.
  - apply includes_prefix.
  - apply includes_prefix.
Qed.

End BuilderClaims.

(** ** The message builder on the examples *)

Section BuilderWitnesses.

Import Validation Builder Examples.

Local Abbreviation buildEmail := (buildEmail noFiles sameName renderSubject).
Local Abbreviation buildEmailWithAttachments :=
  (buildEmailWithAttachments noFiles sameName renderSubject).

Lemma join_app_nonempty (sep : jsstring) (xs ys : list jsstring) :
  xs <> [] -> ys <> [] ->
  join sep (xs ++ ys) = join sep xs ++ sep ++ join sep ys.
Proof.
  intros Hxs Hys. induction xs as [|x xs IH]; [contradiction|].
  destruct xs as [|x' xs].
  - cbn [app]. now rewrite join_cons.
  - change ((x :: x' :: xs) ++ ys) with (x :: ((x' :: xs) ++ ys)).
    rewrite !join_cons by discriminate.
    rewrite IH by discriminate. now rewrite <- !app_assoc.
Qed.

(** In every plain-text document with a non-empty body, the body starts
    on the line after the last header: the empty array element that
    stands for the separating blank line does not survive
    [filter(Boolean)]. *)
Lemma plain_text_body_follows_last_header (params : SendEmailParams) :
  forallb validateEmail (addresses params) = true ->
  truthy (body params) = true ->
  exists headers : jsstring,
    buildPlainTextEmail params
    = Ok (headers ++ str "Content-Transfer-Encoding: 7bit" ++ CRLF
                  ++ body params).
Proof.
  intros Hvalid Hbody. rewrite (buildPlainTextEmail_valid params Hvalid).
  exists (join CRLF (filterBoolean (firstn 9 (plainTextParts params))) ++ CRLF).
  f_equal.
  replace (filterBoolean (plainTextParts params))
    with (filterBoolean (firstn 9 (plainTextParts params))
          ++ [str "Content-Transfer-Encoding: 7bit"; body params]).
  - rewrite join_app_nonempty; [|discriminate|discriminate].
    now rewrite <- !app_assoc.
  - unfold plainTextParts, filterBoolean, ifArray, ifString.
    destruct (body params) as [|b bs]; [discriminate Hbody|].
    destruct (cc params), (bcc params), (inReplyTo params) as [[|]|];
      reflexivity.
Qed.

(** C6, on the code.  The documents built for the sample requests: the
    array element that stands for the blank line between the headers and
    the body is removed by [filter(Boolean)], so the body follows the last
    header line directly and no document contains an empty line. *)
Theorem documents_lack_the_blank_line :
  buildPlainTextEmail plainSample
  = Ok (str "From: me" ++ CRLF
        ++ str "To: alice@example.com" ++ CRLF
        ++ str "Subject: Hi" ++ CRLF
        ++ str "MIME-Version: 1.0" ++ CRLF
        ++ str "Content-Type: text/plain; charset=UTF-8" ++ CRLF
        ++ str "Content-Transfer-Encoding: 7bit" ++ CRLF
        ++ str "Hello")
  /\ buildHTMLEmail multipartSample
  = Ok (str "From: me" ++ CRLF
        ++ str "To: alice@example.com" ++ CRLF
        ++ str "Subject: Hi" ++ CRLF
        ++ str "MIME-Version: 1.0" ++ CRLF
        ++ str "Content-Type: text/html; charset=UTF-8" ++ CRLF
        ++ str "Content-Transfer-Encoding: 7bit" ++ CRLF
        ++ str "<p>Hello</p>")
  /\ buildMultipartEmail randomHalf multipartSample
  = Ok (str "From: me" ++ CRLF
        ++ str "To: alice@example.com" ++ CRLF
        ++ str "Subject: Hi" ++ CRLF
        ++ str "MIME-Version: 1.0" ++ CRLF
        ++ str "Content-Type: multipart/alternative; boundary="
        ++ [quote] ++ str "----=_NextPart_i" ++ [quote] ++ CRLF
        ++ str "------=_NextPart_i" ++ CRLF
        ++ str "Content-Type: text/plain; charset=UTF-8" ++ CRLF
        ++ str "Content-Transfer-Encoding: 7bit" ++ CRLF
        ++ str "Hello" ++ CRLF
        ++ str "------=_NextPart_i" ++ CRLF
        ++ str "Content-Type: text/html; charset=UTF-8" ++ CRLF
        ++ str "Content-Transfer-Encoding: 7bit" ++ CRLF
        ++ str "<p>Hello</p>" ++ CRLF
        ++ str "------=_NextPart_i--")
  /\ map (fun built : result jsstring =>
            match built with
            | Ok doc => includes doc (CRLF ++ CRLF)
            | Throw _ => false
            end)
         [buildPlainTextEmail plainSample;
          buildHTMLEmail multipartSample;
          buildMultipartEmail randomHalf multipartSample]
     = [false; false; false].
Proof.
  repeat split.
Qed.

Lemma invalid_address_fails_every_build_witness :
  forallb validateEmail (addresses badCc) = false /\
  exists e : jsstring,
    In e (addresses badCc) /\ validateEmail e = false /\
    find (fun a => negb (validateEmail a)) (addresses badCc) = Some e /\
    buildPlainTextEmail badCc = Throw (str "Invalid email address: " ++ e) /\
    buildHTMLEmail badCc = Throw (str "Invalid email address: " ++ e) /\
    buildMultipartEmail randomHalf badCc
    = Throw (str "Invalid email address: " ++ e) /\
    buildEmailWithAttachments badCc
    = Throw (str "Invalid email address: " ++ e) /\
    buildEmail randomHalf badCc = Throw (str "Invalid email address: " ++ e).
Proof.
  split; [reflexivity|].
  apply (invalid_address_fails_every_build noFiles sameName renderSubject
           randomHalf badCc).
  reflexivity.
Defined.

(** With an empty [to] every address check passes vacuously and the
    builders return a document whose [To:] header is empty. *)
Lemma empty_to_builds_a_document :
  to emptyTo = [] /\
  buildPlainTextEmail emptyTo
  = Ok (str "From: me" ++ CRLF
        ++ str "To: " ++ CRLF
        ++ str "Subject: Hi" ++ CRLF
        ++ str "MIME-Version: 1.0" ++ CRLF
        ++ str "Content-Type: text/plain; charset=UTF-8" ++ CRLF
        ++ str "Content-Transfer-Encoding: 7bit" ++ CRLF
        ++ str "Hello")
  /\ buildEmail randomHalf emptyTo = buildPlainTextEmail emptyTo
  /\ (exists doc, buildHTMLEmail emptyTo = Ok doc)
  /\ (exists doc, buildMultipartEmail randomHalf emptyTo = Ok doc)
  /\ ~ (exists m, buildPlainTextEmail emptyTo = Throw m).
Proof.
  repeat split.
  - eexists. reflexivity.
  - eexists. reflexivity.
  - intros [m H]. discriminate H.
Qed.

Lemma missing_attachment_fails_build_witness :
  (attachments withAttachment = None \/ attachments withAttachment = Some [] \/
   exists paths, attachments withAttachment = Some paths /\
                 forallb noFiles paths = false) /\
  (exists m : jsstring, buildEmailWithAttachments withAttachment = Throw m) /\
  (forallb validateEmail (addresses withAttachment) = true ->
   exists p : jsstring,
     find (fun q => negb (noFiles q)) [str "/tmp/report.pdf"] = Some p /\
     In p [str "/tmp/report.pdf"] /\ noFiles p = false /\
     buildEmailWithAttachments withAttachment
     = Throw (str "File does not exist: " ++ p)).
Proof.
  assert (H : attachments withAttachment = None \/
              attachments withAttachment = Some [] \/
              exists paths, attachments withAttachment = Some paths /\
                            forallb noFiles paths = false).
  { right. right. exists [str "/tmp/report.pdf"]. split; reflexivity. }
  split; [exact H|].
  exact (missing_attachment_fails_build noFiles sameName renderSubject
           withAttachment H).
Defined.

Lemma buildEmail_decision_order_witness :
  hasAttachments multipartSample = false /\
  truthyOpt (htmlBody multipartSample) = true /\
  mimeType multipartSample = Some MultipartAlternative /\
  forallb validateEmail (addresses multipartSample) = true /\
  exists doc : jsstring,
    buildEmail randomHalf multipartSample = Ok doc /\
    includes doc (str "Content-Type: multipart/alternative; boundary=") = true /\
    includes doc (str "Content-Type: text/plain; charset=UTF-8") = true /\
    includes doc (str "Content-Type: text/html; charset=UTF-8") = true.
Proof.
  do 4 (split; [reflexivity|]).
  apply (proj2 (proj2 (proj2 (proj2
           (buildEmail_decision_order noFiles sameName renderSubject
              randomHalf multipartSample)))));
    reflexivity.
Defined.

(** The attachment builder on the sample collaborators: a missing file,
    no attachment, and a file that exists. *)
Example attachment_builder_outcomes :
  buildEmailWithAttachments withAttachment
  = Throw (str "File does not exist: /tmp/report.pdf")
  /\ buildEmailWithAttachments noAttachment
  = Throw (str "No attachments provided")
  /\ Builder.buildEmailWithAttachments allFiles sameName renderSubject
       withAttachment
  = Ok (str "Subject: Hi")
  /\ Builder.buildEmail allFiles sameName renderSubject randomHalf
       withAttachment
  = Ok (str "Subject: Hi").
Proof. repeat split. Qed.

(** An [htmlBody] that is present and empty, with content mode
    multipart/alternative and no attachment, is built by the plain
    builder, not by the multipart builder. *)
Lemma empty_htmlBody_is_built_plain :
  htmlBody emptyHtml = Some [] /\
  mimeType emptyHtml = Some MultipartAlternative /\
  attachments emptyHtml = None /\
  buildEmail randomHalf emptyHtml = buildPlainTextEmail emptyHtml /\
  buildEmail randomHalf emptyHtml <> buildMultipartEmail randomHalf emptyHtml.
Proof.
  repeat split. vm_compute. discriminate.
Qed.

Lemma multipart_two_parts_in_order_witness :
  forallb validateEmail (addresses multipartSample) = true /\
  buildMultipartEmail randomHalf multipartSample
  = Ok (join CRLF
          (filterBoolean (firstn 8 (plainTextParts multipartSample))
           ++ [str "Content-Type: multipart/alternative; boundary="
                 ++ quote :: makeBoundary randomHalf ++ [quote]]
           ++ [str "--" ++ makeBoundary randomHalf;
               str "Content-Type: text/plain; charset=UTF-8";
               str "Content-Transfer-Encoding: 7bit"]
           ++ filterBoolean [str "Hello"]
           ++ [str "--" ++ makeBoundary randomHalf;
               str "Content-Type: text/html; charset=UTF-8";
               str "Content-Transfer-Encoding: 7bit"]
           ++ filterBoolean [str "<p>Hello</p>"]
           ++ [str "--" ++ makeBoundary randomHalf ++ str "--"])).
Proof.
  split; [reflexivity|].
  exact (proj1 (multipart_two_parts_in_order randomHalf multipartSample
                  eq_refl)).
Defined.

(** The token that [Math.random() = 0.5] gives occurs inside the plain
    body of this request, and the document is built all the same. *)
Lemma boundary_token_inside_body :
  forallb validateEmail (addresses collidingBody) = true /\
  makeBoundary randomHalf = str "----=_NextPart_i" /\
  (exists doc, buildMultipartEmail randomHalf collidingBody = Ok doc) /\
  includes (body collidingBody) (makeBoundary randomHalf) = true.
Proof.
  repeat split. eexists. reflexivity.
Qed.

End BuilderWitnesses.

(** ** Encoded words *)

Section Base64Facts.

Import Node Decode.

Lemma sextet_cases (P : Z -> Prop) :
  Forall P (map Z.of_nat (seq 0 64)) -> forall v, isSextet v -> P v.
Proof.
  intros HP v Hv. rewrite Forall_forall in HP. apply HP.
  apply in_map_iff. exists (Z.to_nat v). split; [unfold isSextet in Hv; lia|].
  apply in_seq. unfold isSextet in Hv. lia.
Qed.

Lemma base64Char_spec (v : Z) :
  isSextet v ->
  isAscii (base64Char v) /\
  base64Value (base64Char v) = Some v /\
  (base64Char v =? padChar) = false.
Proof.
  revert v. apply sextet_cases.
  repeat constructor; try (cbv; congruence).
Qed.

Lemma base64Value_char (v : Z) :
  isSextet v -> base64Value (base64Char v) = Some v.
Proof. intros Hv. apply (base64Char_spec v Hv). Qed.

Lemma base64Char_not_pad (v : Z) :
  isSextet v -> (base64Char v =? padChar) = false.
Proof. intros Hv. apply (base64Char_spec v Hv). Qed.

Lemma base64Char_ascii (v : Z) : isSextet v -> isAscii (base64Char v).
Proof. intros Hv. apply (base64Char_spec v Hv). Qed.

(** Induction on a byte sequence, three bytes at a time. *)
Lemma triples_ind {A : Type} (P : list A -> Prop) :
  P [] -> (forall a, P [a]) -> (forall a b, P [a; b]) ->
  (forall a b c rest, P rest -> P (a :: b :: c :: rest)) ->
  forall l, P l.
Proof.
  intros H0 H1 H2 H3 l.
  assert (H : P l /\ (forall a, P (a :: l)) /\ (forall a b, P (a :: b :: l))).
  { induction l as [|x l (IH0 & IH1 & IH2)]; auto. }
  apply H.
Qed.

(** The four digit values of a group of bytes. *)
Lemma sextets_of_bytes (a b c : Z) :
  isByte a -> isByte b -> isByte c ->
  isSextet (a / 4) /\ isSextet ((a mod 4) * 16) /\
  isSextet ((a mod 4) * 16 + b / 16) /\ isSextet ((b mod 16) * 4) /\
  isSextet ((b mod 16) * 4 + c / 64) /\ isSextet (c mod 64).
Proof.
  unfold isByte, isSextet. intros Ha Hb Hc.
  repeat split; Z.div_mod_to_equations; lia.
Qed.

Lemma toBase64_ascii (bytes : list Z) :
  Forall isByte bytes -> Forall isAscii (toBase64 bytes).
Proof.
  induction bytes as [|a|a b|a b c rest IH] using triples_ind; intros Hb.
  - constructor.
  - inversion_clear Hb as [|? ? Ha _].
    destruct (sextets_of_bytes a a a Ha Ha Ha) as (? & ? & _).
    cbn [toBase64].
    repeat constructor; try (now apply base64Char_ascii); cbv; congruence.
  - inversion_clear Hb as [|? ? Ha Hb']. inversion_clear Hb' as [|? ? Hb _].
    destruct (sextets_of_bytes a b b Ha Hb Hb) as (? & _ & ? & ? & _).
    cbn [toBase64].
    repeat constructor; try (now apply base64Char_ascii); cbv; congruence.
  - inversion_clear Hb as [|? ? Ha Hb']. inversion_clear Hb' as [|? ? Hb Hb''].
    inversion_clear Hb'' as [|? ? Hc Hrest].
    destruct (sextets_of_bytes a b c Ha Hb Hc) as (? & _ & ? & _ & ? & ?).
    cbn [toBase64].
    repeat (constructor; [now apply base64Char_ascii|]). now apply IH.
Qed.

Lemma fromBase64_toBase64 (bytes : list Z) :
  Forall isByte bytes -> fromBase64 (toBase64 bytes) = Some bytes.
Proof.
  induction bytes as [|a|a b|a b c rest IH] using triples_ind; intros Hb.
  - reflexivity.
  - inversion_clear Hb as [|? ? Ha _].
    destruct (sextets_of_bytes a a a Ha Ha Ha) as (H1 & H2 & _).
    cbn [toBase64 fromBase64].
    rewrite (base64Value_char _ H1), (base64Value_char _ H2).
    rewrite Z.eqb_refl. cbn [andb isNil].
    do 2 f_equal. unfold isByte in Ha. Z.div_mod_to_equations. lia.
  - inversion_clear Hb as [|? ? Ha Hb']. inversion_clear Hb' as [|? ? Hb _].
    destruct (sextets_of_bytes a b b Ha Hb Hb) as (H1 & _ & H2 & H3 & _).
    cbn [toBase64 fromBase64].
    rewrite (base64Value_char _ H1), (base64Value_char _ H2),
      (base64Value_char _ H3), (base64Char_not_pad _ H3).
    rewrite Z.eqb_refl. cbn [isNil].
    unfold isByte in Ha, Hb.
    f_equal. f_equal; [|f_equal]; Z.div_mod_to_equations; lia.
  - inversion_clear Hb as [|? ? Ha Hb']. inversion_clear Hb' as [|? ? Hb Hb''].
    inversion_clear Hb'' as [|? ? Hc Hrest].
    destruct (sextets_of_bytes a b c Ha Hb Hc) as (H1 & _ & H2 & _ & H3 & H4).
    cbn [toBase64 fromBase64].
    rewrite (base64Value_char _ H1), (base64Value_char _ H2),
      (base64Value_char _ H3), (base64Value_char _ H4),
      (base64Char_not_pad _ H3), (base64Char_not_pad _ H4).
    rewrite (IH Hrest). cbn [option_map].
    unfold isByte in Ha, Hb, Hc.
    f_equal. f_equal; [|f_equal; [|f_equal]]; Z.div_mod_to_equations; lia.
Qed.

End Base64Facts.

Section Utf8Facts.

Import Node Decode.

(** Decide the comparisons of the goal by arithmetic. *)
Ltac settle_tests :=
  repeat match goal with
  | |- context [?a <? ?b] =>
      destruct (Z.ltb_spec a b); try (exfalso; Z.div_mod_to_equations; lia)
  | |- context [?a <=? ?b] =>
      destruct (Z.leb_spec a b); try (exfalso; Z.div_mod_to_equations; lia)
  end.

Lemma utf8Bytes_bytes (cp : Z) :
  isScalar cp -> Forall isByte (utf8Bytes cp).
Proof.
  unfold isScalar, utf8Bytes, isByte. intros [Hcp _].
  settle_tests; repeat constructor; Z.div_mod_to_equations; lia.
Qed.

Lemma utf8CodePoints_utf8Bytes (cp : Z) (rest : list Z) :
  isScalar cp ->
  utf8CodePoints (utf8Bytes cp ++ rest)
  = option_map (cons cp) (utf8CodePoints rest).
Proof.
  unfold isScalar, utf8Bytes. intros [Hcp Hsur].
  destruct (Z.ltb_spec cp 0x80);
    [|destruct (Z.ltb_spec cp 0x800); [|destruct (Z.ltb_spec cp 0x10000)]];
    cbn [app utf8CodePoints]; unfold isContinuation, isSurrogate.
  - settle_tests. reflexivity.
  - settle_tests. cbn [andb negb].
    replace ((0xC0 + cp / 0x40 - 0xC0) * 0x40 + (0x80 + cp mod 0x40 - 0x80))
      with cp by (Z.div_mod_to_equations; lia).
    reflexivity.
  - replace ((0xE0 + cp / 0x1000 - 0xE0) * 0x1000
             + (0x80 + (cp / 0x40) mod 0x40 - 0x80) * 0x40
             + (0x80 + cp mod 0x40 - 0x80))
      with cp by (Z.div_mod_to_equations; lia).
    settle_tests; cbn [andb negb]; try reflexivity; exfalso; lia.
  - replace ((0xF0 + cp / 0x40000 - 0xF0) * 0x40000
             + (0x80 + (cp / 0x1000) mod 0x40 - 0x80) * 0x1000
             + (0x80 + (cp / 0x40) mod 0x40 - 0x80) * 0x40
             + (0x80 + cp mod 0x40 - 0x80))
      with cp by (Z.div_mod_to_equations; lia).
    settle_tests. reflexivity.
Qed.

Lemma utf8CodePoints_Buffer (cps : list Z) :
  Forall isScalar cps -> utf8CodePoints (flat_map utf8Bytes cps) = Some cps.
Proof.
  induction 1 as [|cp cps Hcp _ IH]; [reflexivity|].
  cbn [flat_map]. now rewrite utf8CodePoints_utf8Bytes, IH.
Qed.

Lemma Buffer_from_bytes (cps : list Z) :
  Forall isScalar cps -> Forall isByte (flat_map utf8Bytes cps).
Proof.
  induction 1 as [|cp cps Hcp _ IH]; [constructor|].
  cbn [flat_map]. apply Forall_app. split; [now apply utf8Bytes_bytes | exact IH].
Qed.

(** Induction on a string, one or two code units at a time. *)
Lemma pairs_ind {A : Type} (P : list A -> Prop) :
  P [] -> (forall a, P [a]) ->
  (forall a b rest, P rest -> P (b :: rest) -> P (a :: b :: rest)) ->
  forall l, P l.
Proof.
  intros H0 H1 H2 l.
  assert (H : P l /\ forall a, P (a :: l)).
  { induction l as [|x l [IH0 IH1]]; auto. }
  apply H.
Qed.

Lemma isCodeUnits_cons (u : Z) (text : jsstring) :
  isCodeUnits (u :: text) = true <->
  (0 <= u < 0x10000) /\ isCodeUnits text = true.
Proof.
  unfold isCodeUnits. cbn [forallb].
  rewrite !andb_true_iff, Z.leb_le, Z.ltb_lt. tauto.
Qed.

Lemma codePoints_cons (u : Z) (rest : jsstring) :
  codePoints (u :: rest)
  = if isHighSurrogate u then
      match rest with
      | v :: rest' =>
          if isLowSurrogate v
          then (0x10000 + (u - 0xD800) * 0x400 + (v - 0xDC00)) :: codePoints rest'
          else 0xFFFD :: codePoints rest
      | [] => [0xFFFD]
      end
    else if isLowSurrogate u then 0xFFFD :: codePoints rest
    else u :: codePoints rest.
Proof. reflexivity. Qed.

Lemma isWellFormed_cons (u : Z) (rest : jsstring) :
  isWellFormed (u :: rest)
  = if isHighSurrogate u then
      match rest with
      | v :: rest' => isLowSurrogate v && isWellFormed rest'
      | [] => false
      end
    else negb (isLowSurrogate u) && isWellFormed rest.
Proof. reflexivity. Qed.

(** Turn the surrogate tests among the hypotheses into inequalities. *)
Ltac surrogate_bounds :=
  unfold isHighSurrogate, isLowSurrogate in *;
  repeat match goal with
  | H : _ && _ = true |- _ => apply andb_true_iff in H as [? ?]
  | H : _ && _ = false |- _ => apply andb_false_iff in H
  | H : (_ <=? _) = true |- _ => apply Z.leb_le in H
  | H : (_ <=? _) = false |- _ => apply Z.leb_gt in H
  end.

Lemma replacement_scalar : isScalar 0xFFFD.
Proof. unfold isScalar. lia. Qed.

Lemma pair_scalar (u v : Z) :
  isHighSurrogate u = true -> isLowSurrogate v = true ->
  isScalar (0x10000 + (u - 0xD800) * 0x400 + (v - 0xDC00)).
Proof. intros Hu Hv. surrogate_bounds. unfold isScalar. lia. Qed.

Lemma unit_scalar (u : Z) :
  0 <= u < 0x10000 ->
  isHighSurrogate u = false -> isLowSurrogate u = false -> isScalar u.
Proof. intros Hr Hu Hv. surrogate_bounds. unfold isScalar. lia. Qed.

(** Whatever the string, [Buffer.from] reads scalar values from it. *)
Lemma codePoints_scalar (text : jsstring) :
  isCodeUnits text = true -> Forall isScalar (codePoints text).
Proof.
  induction text as [|u|u v rest IH0 IH1] using pairs_ind; intros Hu.
  - constructor.
  - apply isCodeUnits_cons in Hu as [Hu _]. rewrite codePoints_cons.
    destruct (isHighSurrogate u) eqn:Hh;
      [|destruct (isLowSurrogate u) eqn:Hl];
      (apply Forall_cons; [|apply Forall_nil]);
      auto using replacement_scalar, unit_scalar.
  - apply isCodeUnits_cons in Hu as [Hu Hrest].
    pose proof (IH1 Hrest) as Htail.
    apply isCodeUnits_cons in Hrest as [Hv Hrest].
    rewrite codePoints_cons.
    destruct (isHighSurrogate u) eqn:Hh.
    + destruct (isLowSurrogate v) eqn:Hl; apply Forall_cons;
        auto using replacement_scalar, pair_scalar.
    + destruct (isLowSurrogate u) eqn:Hl; apply Forall_cons;
        auto using replacement_scalar, unit_scalar.
Qed.

Lemma utf16Units_unit (u : Z) : u < 0x10000 -> utf16Units u = [u].
Proof.
  intros Hu. unfold utf16Units. now destruct (Z.ltb_spec u 0x10000); [|lia].
Qed.

Lemma utf16Units_pair (u v : Z) :
  isHighSurrogate u = true -> isLowSurrogate v = true ->
  utf16Units (0x10000 + (u - 0xD800) * 0x400 + (v - 0xDC00)) = [u; v].
Proof.
  intros Hu Hv. surrogate_bounds. unfold utf16Units.
  destruct (Z.ltb_spec (0x10000 + (u - 0xD800) * 0x400 + (v - 0xDC00)) 0x10000);
    [lia|].
  f_equal; [|f_equal]; Z.div_mod_to_equations; lia.
Qed.

(** On a well-formed string, the code points that [Buffer.from] reads
    spell the string back. *)
Lemma utf16Units_codePoints (text : jsstring) :
  isCodeUnits text = true -> isWellFormed text = true ->
  flat_map utf16Units (codePoints text) = text.
Proof.
  induction text as [|u|u v rest IH0 IH1] using pairs_ind; intros Hu Hwf.
  - reflexivity.
  - apply isCodeUnits_cons in Hu as [Hu _].
    rewrite isWellFormed_cons in Hwf. rewrite codePoints_cons.
    destruct (isHighSurrogate u); [discriminate|].
    destruct (isLowSurrogate u); [discriminate|].
    cbn [flat_map codePoints app]. rewrite utf16Units_unit by lia. reflexivity.
  - apply isCodeUnits_cons in Hu as [Hu Hrest].
    rewrite isWellFormed_cons in Hwf. rewrite codePoints_cons.
    destruct (isHighSurrogate u) eqn:Hhigh.
    + apply andb_true_iff in Hwf as [Hlow Hwf]. rewrite Hlow.
      apply isCodeUnits_cons in Hrest as [Hv Hrest].
      cbn [flat_map]. rewrite (IH0 Hrest Hwf).
      now rewrite utf16Units_pair.
    + apply andb_true_iff in Hwf as [Hlow Hwf].
      apply negb_true_iff in Hlow. rewrite Hlow.
      cbn [flat_map]. rewrite (IH1 Hrest Hwf).
      rewrite utf16Units_unit by lia. reflexivity.
Qed.

End Utf8Facts.

Section EncodedWordClaims.

Import Node Decode Builder Examples.

Lemma stripPrefix_app (prefix s : jsstring) :
  stripPrefix prefix (prefix ++ s) = Some s.
Proof.
  induction prefix as [|p prefix IH]; cbn; [reflexivity|].
  now rewrite Z.eqb_refl.
Qed.

Lemma stripSuffix_app (suffix s : jsstring) :
  stripSuffix suffix (s ++ suffix) = Some s.
Proof.
  unfold stripSuffix. rewrite rev_app_distr, stripPrefix_app.
  cbn [option_map]. now rewrite rev_involutive.
Qed.

Lemma decodeWord_encoded (payload : jsstring) :
  decodeWord (str "=?UTF-8?B?" ++ payload ++ str "?=")
  = match fromBase64 payload with
    | Some bytes => utf8Decode bytes
    | None => None
    end.
Proof.
  unfold decodeWord. now rewrite stripPrefix_app, stripSuffix_app.
Qed.

Lemma ascii_text (text : jsstring) :
  isCodeUnits text = true -> hasNonAscii text = false -> Forall isAscii text.
Proof.
  unfold hasNonAscii. induction text as [|u text IH]; intros Hu Hascii.
  - constructor.
  - apply isCodeUnits_cons in Hu as [Hu Hrest].
    cbn [existsb] in Hascii. apply orb_false_iff in Hascii as [Hlt Hascii].
    apply Z.ltb_ge in Hlt.
    constructor; [unfold isAscii; lia | now apply IH].
Qed.

(** C8, as the code has it.  For a string of code units, [encodeHeader]
    returns ASCII only; it returns an ASCII-only string unchanged; and for
    a string with a non-ASCII code unit it returns the charset tag, the
    base64 payload of the UTF-8 bytes and the closing mark, which reads
    back as the original string when the string is well formed, that is,
    has no unpaired surrogate. *)
Theorem encodeHeader_round_trip (text : jsstring) :
  isCodeUnits text = true ->
  Forall isAscii (encodeHeader text) /\
  (hasNonAscii text = false -> encodeHeader text = text) /\
  (hasNonAscii text = true ->
   encodeHeader text
   = str "=?UTF-8?B?" ++ toBase64 (Buffer_from text) ++ str "?=" /\
   (isWellFormed text = true ->
    decodeWord (encodeHeader text) = Some text)).
Proof.
  intros Hunits. unfold encodeHeader.
  pose proof (codePoints_scalar text Hunits) as Hscalar.
  destruct (hasNonAscii text) eqn:Hnon; repeat split; try discriminate.
  - rewrite !Forall_app. repeat split.
    + repeat constructor; cbv; congruence.
    + apply toBase64_ascii, Buffer_from_bytes, Hscalar.
    + repeat constructor; cbv; congruence.
  - intros Hwf. rewrite decodeWord_encoded.
    unfold Buffer_from.
    rewrite (fromBase64_toBase64 _ (Buffer_from_bytes _ Hscalar)).
    unfold utf8Decode. rewrite (utf8CodePoints_Buffer _ Hscalar).
    cbn [option_map]. now rewrite utf16Units_codePoints.
  - now apply ascii_text.
Qed.

Lemma encodeHeader_round_trip_witness :
  isCodeUnits cafe = true /\ hasNonAscii cafe = true /\
  isWellFormed cafe = true /\
  encodeHeader cafe = str "=?UTF-8?B?Q2Fmw6kg8J+YgA==?=" /\
  decodeWord (encodeHeader cafe) = Some cafe.
Proof.
  do 3 (split; [reflexivity|]). split; [reflexivity|].
  exact (proj2 (proj2 (proj2 (encodeHeader_round_trip cafe eq_refl)) eq_refl)
           eq_refl).
Defined.

(** A string with an unpaired surrogate is encoded as if the surrogate
    were U+FFFD: the word reads back as a different string, and no reader
    could tell the two originals apart. *)
Lemma unpaired_surrogate_does_not_round_trip :
  isCodeUnits loneSurrogate = true /\ hasNonAscii loneSurrogate = true /\
  encodeHeader loneSurrogate = str "=?UTF-8?B?77+9?=" /\
  decodeWord (encodeHeader loneSurrogate) = Some [0xFFFD] /\
  decodeWord (encodeHeader loneSurrogate) <> Some loneSurrogate /\
  encodeHeader loneSurrogate = encodeHeader [0xFFFD].
Proof.
  repeat split. vm_compute. discriminate.
Qed.

End EncodedWordClaims.

(** ** More on the batch engine: order, call budget, uniform actions *)

Section InterleavingFacts.

Import Accounting.

Context {A : Type}.

Lemma Interleaving_left_only (l : list A) : Interleaving l [] l.
Proof. induction l; constructor; assumption. Qed.

Lemma Interleaving_right_only (r : list A) : Interleaving [] r r.
Proof. induction r; constructor; assumption. Qed.

Lemma Interleaving_app (l1 r1 m1 l2 r2 m2 : list A) :
  Interleaving l1 r1 m1 -> Interleaving l2 r2 m2 ->
  Interleaving (l1 ++ l2) (r1 ++ r2) (m1 ++ m2).
Proof.
  induction 1; intros H2; cbn; try (constructor; auto); assumption.
Qed.

Lemma Interleaving_nil_left (r m : list A) : Interleaving [] r m -> r = m.
Proof.
  revert r. induction m as [|x m IH]; intros r H; inversion H; subst.
  - reflexivity.
  - f_equal. now apply IH.
Qed.

Lemma Interleaving_nil_right (l m : list A) : Interleaving l [] m -> l = m.
Proof.
  revert l. induction m as [|x m IH]; intros l H; inversion H; subst.
  - reflexivity.
  - f_equal. now apply IH.
Qed.

End InterleavingFacts.

Section BatchOrder.

Import Batch Accounting.

Context {T W : Type}.
Variable String_ : T -> jsstring.
Variable processFn : list T -> W -> option thrown * W.

Local Abbreviation processItem := (processItem String_ processFn).
Local Abbreviation processChunk := (processChunk String_ processFn).
Local Abbreviation loop := (loop String_ processFn).
Local Abbreviation run := (run String_ processFn).
Local Abbreviation processBatches := (processBatches String_ processFn).

(** What a piece of the run added, in order. *)
Local Abbreviation adds its acc acc' :=
  (exists (ss : list jsstring) (fs : list Failure),
     acc_successes acc' = acc_successes acc ++ ss /\
     acc_failures acc' = acc_failures acc ++ fs /\
     Interleaving ss (map item fs) (map String_ its)).

Lemma adds_trans (xs ys : list T) (a b c : Acc W) :
  adds xs a b -> adds ys b c -> adds (xs ++ ys) a c.
Proof.
  intros (ss1 & fs1 & Hs1 & Hf1 & I1) (ss2 & fs2 & Hs2 & Hf2 & I2).
  exists (ss1 ++ ss2), (fs1 ++ fs2).
  rewrite Hs2, Hs1, Hf2, Hf1, !app_assoc, !map_app. repeat split.
  now apply Interleaving_app.
Qed.

Lemma adds_nil (acc : Acc W) : adds [] acc acc.
Proof. exists [], []. rewrite !app_nil_r. repeat split. constructor. Qed.

Lemma processItem_adds (acc : Acc W) (it : T) :
  adds [it] acc (processItem acc it).
Proof.
  unfold Batch.processItem.
  destruct (processFn [it] (acc_world acc)) as [[e|] w]; cbn.
  - exists [], [mkFailure (String_ it) (errorMessage e)].
    rewrite app_nil_r. repeat split. repeat constructor.
  - exists [String_ it], []. rewrite app_nil_r. repeat split.
    repeat constructor.
Qed.

Lemma fallback_adds (batch : list T) (acc : Acc W) :
  adds batch acc (fold_left processItem batch acc).
Proof.
  revert acc. induction batch as [|it batch IH]; intros acc; cbn [fold_left].
  - apply adds_nil.
  - apply (adds_trans [it] batch _ (processItem acc it)).
    + apply processItem_adds.
    + apply IH.
Qed.

Lemma processChunk_adds (batch : list T) (acc : Acc W) :
  adds batch acc (processChunk batch acc).
Proof.
  unfold Batch.processChunk.
  destruct (processFn batch (acc_world acc)) as [[e|] w].
  - apply (fallback_adds batch (mkAcc _ _ w)).
  - exists (map String_ batch), []. cbn. rewrite !app_nil_r.
    repeat split. apply Interleaving_left_only.
Qed.

Lemma loop_adds (items : list T) (batchSize : Z) (fuel : nat) :
  1 <= batchSize ->
  forall (i : Z) (acc acc' : Acc W),
    0 <= i ->
    loop items batchSize fuel i acc = Some acc' ->
    adds (skipn (Z.to_nat i) items) acc acc'.
Proof.
  intros Hbs. induction fuel as [|fuel IH]; intros i acc acc' Hi Hrun.
  - discriminate.
  - cbn in Hrun. destruct (Z.ltb_spec i (Z.of_nat (length items))).
    + rewrite (skipn_chunk items i batchSize) by lia.
      eapply adds_trans.
      * apply processChunk_adds.
      * apply IH; [lia | exact Hrun].
    + injection Hrun as <-. rewrite skipn_all2 by lia. apply adds_nil.
Qed.

(** The successes array and the failures list are both in input order:
    the stringified input is the two of them shuffled together, each in
    its own order. *)
Theorem processBatches_keeps_input_order
  (items : list T) (batchSize : Z) (w : W) (fuel : nat) :
  1 <= batchSize -> (length items < fuel)%nat ->
  exists acc : Acc W,
    run fuel items batchSize w = Some acc /\
    processBatches fuel items batchSize w
    = Some (mkBatchResult (Z.of_nat (length (acc_successes acc)))
                          (acc_failures acc), acc_world acc) /\
    Interleaving (acc_successes acc) (map item (acc_failures acc))
                 (map String_ items).
Proof.
  intros Hbs Hfuel.
  destruct (loop_terminates String_ processFn items batchSize fuel Hbs 0
              (mkAcc [] [] w)) as [acc Hacc]; [lia|].
  exists acc. unfold Batch.processBatches, Batch.run. rewrite Hacc.
  repeat split.
  destruct (loop_adds items batchSize fuel Hbs 0 _ _ (Z.le_refl 0) Hacc)
    as (ss & fs & Hs & Hf & I).
  cbn in Hs, Hf, I. now rewrite Hs, Hf.
Qed.

End BatchOrder.

Section BatchCalls.

Import Batch Accounting.

Context {T W : Type}.
Variable String_ : T -> jsstring.
Variable processFn : list T -> W -> option thrown * W.

(** An accumulator of the untraced run, with a call log put beside its
    world. *)
Local Abbreviation withLog a log :=
  (mkAcc (acc_successes a) (acc_failures a) (acc_world a, log)).

Lemma traced_processItem (a : Acc W) (log : list (list T)) (it : T) :
  processItem String_ (traced processFn) (withLog a log) it
  = withLog (processItem String_ processFn a it) (log ++ [[it]]).
Proof.
  unfold processItem, traced. cbn [acc_world acc_successes acc_failures fst snd].
  now destruct (processFn [it] (acc_world a)) as [[e|] w].
Qed.

Lemma traced_fallback (batch : list T) (a : Acc W) (log : list (list T)) :
  fold_left (processItem String_ (traced processFn)) batch (withLog a log)
  = withLog (fold_left (processItem String_ processFn) batch a)
            (log ++ map (fun it => [it]) batch).
Proof.
  revert a log. induction batch as [|it batch IH]; intros a log;
    cbn [fold_left map].
  - now rewrite app_nil_r.
  - rewrite traced_processItem, IH. now rewrite <- app_assoc.
Qed.

(** The calls of one loop iteration: the chunk, and after a rejected
    chunk one call per item, in order. *)
Lemma traced_processChunk (batch : list T) (a : Acc W) (log : list (list T)) :
  processChunk String_ (traced processFn) batch (withLog a log)
  = withLog (processChunk String_ processFn batch a)
            (log ++ [batch]
             ++ match fst (processFn batch (acc_world a)) with
                | None => []
                | Some _ => map (fun it => [it]) batch
                end).
Proof.
  unfold processChunk. unfold traced at 1.
  cbn [acc_world acc_successes acc_failures fst snd].
  destruct (processFn batch (acc_world a)) as [[e|] w] eqn:E; cbn [fst snd].
  - etransitivity;
      [exact (traced_fallback batch
                (mkAcc (acc_successes a) (acc_failures a) w) (log ++ [batch]))|].
    now rewrite <- app_assoc.
  - now rewrite app_nil_r.
Qed.

End BatchCalls.

Section BatchCallBudget.

Import Batch Accounting.

Context {T W : Type}.
Variable String_ : T -> jsstring.
Variable processFn : list T -> W -> option thrown * W.
Variable items : list T.
Variable batchSize : Z.
Hypothesis positive : 1 <= batchSize.

Local Abbreviation withLog a log :=
  (mkAcc (acc_successes a) (acc_failures a) (acc_world a, log)).
Local Abbreviation N := (Z.of_nat (length items)).
Local Abbreviation single := (fun it : T => [it]).

(** The number of loop iterations left at index [i]. *)
Local Abbreviation chunksFrom i := ((Z.max 0 (N - i) + batchSize - 1) / batchSize).

Lemma slice_length (i : Z) :
  0 <= i < N ->
  Z.of_nat (length (slice items i (i + batchSize))) = Z.min batchSize (N - i).
Proof.
  intros Hi. rewrite slice_chunk by lia.
  rewrite length_firstn, length_skipn. lia.
Qed.

Lemma chunksFrom_step (i : Z) :
  0 <= i < N -> chunksFrom i = 1 + chunksFrom (i + batchSize).
Proof.
  intros Hi. rewrite (Z.max_r 0 (N - i)) by lia.
  destruct (Z.le_gt_cases (i + batchSize) N) as [Hin | Hout].
  - rewrite (Z.max_r 0 (N - (i + batchSize))) by lia.
    replace (N - i + batchSize - 1)
      with (N - (i + batchSize) + batchSize - 1 + 1 * batchSize) by lia.
    rewrite Z.div_add by lia. lia.
  - rewrite (Z.max_l 0 (N - (i + batchSize))) by lia.
    replace (N - i + batchSize - 1) with (N - i - 1 + 1 * batchSize) by lia.
    rewrite Z.div_add by lia.
    rewrite (Z.div_small (N - i - 1)) by lia.
    rewrite (Z.div_small (0 + batchSize - 1)) by lia. lia.
Qed.

Lemma chunksFrom_end (i : Z) : N <= i -> chunksFrom i = 0.
Proof.
  intros Hi. rewrite Z.max_l by lia. apply Z.div_small. lia.
Qed.

(** Induction on the calls of a traced run: a property of the index and
    of the calls made from there on holds for the run when it holds at
    the end of the array and is kept by one iteration, whose calls are
    the chunk and, when the chunk was rejected, its items one by one. *)
Lemma traced_loop_calls (P : Z -> list (list T) -> Prop) :
  (forall i, N <= i -> P i []) ->
  (forall i w L,
     0 <= i < N -> P (i + batchSize) L ->
     P i ([slice items i (i + batchSize)]
          ++ match fst (processFn (slice items i (i + batchSize)) w) with
             | None => []
             | Some _ => map single (slice items i (i + batchSize))
             end ++ L)) ->
  forall (fuel : nat) (i : Z) (a : Acc W) (log : list (list T))
         (acc' : Acc (W * list (list T))),
    0 <= i ->
    loop String_ (traced processFn) items batchSize fuel i (withLog a log)
    = Some acc' ->
    exists (a' : Acc W) (L : list (list T)),
      acc' = withLog a' (log ++ L) /\
      loop String_ processFn items batchSize fuel i a = Some a' /\
      P i L.
Proof.
  intros Hend Hstep. induction fuel as [|fuel IH]; intros i a log acc' Hi Hrun.
  - discriminate.
  - cbn [loop] in Hrun |- *.
    destruct (Z.ltb_spec i N) as [Hlt | Hge].
    + rewrite traced_processChunk in Hrun.
      apply IH in Hrun as (a' & L & -> & Hloop & HP); [|lia].
      exists a'. eexists. split; [|split; [exact Hloop|]].
      * rewrite <- !app_assoc. reflexivity.
      * apply Hstep; [lia | exact HP].
    + injection Hrun as <-. exists a, []. rewrite app_nil_r.
      repeat split. apply Hend. lia.
Qed.


Lemma concat_single (l : list T) : concat (map single l) = l.
Proof. induction l as [|x l IH]; cbn; [reflexivity | now rewrite IH]. Qed.

Lemma traced_run_terminates (w : W) (fuel : nat) :
  (length items < fuel)%nat ->
  exists acc',
    loop String_ (traced processFn) items batchSize fuel 0
         (withLog (mkAcc [] [] w) []) = Some acc'.
Proof.
  intros Hfuel.
  apply (loop_terminates String_ (traced processFn) items batchSize fuel
           positive 0). lia.
Qed.

(** Call budget.  A run makes at least one call per chunk and at most one
    more per item.  Every item is handed to the action at least once and
    at most twice (once inside its chunk, once alone after the chunk was
    rejected): whatever property [p] singles out items, the calls hold
    at least as many items with [p] as the input does, and at most twice
    as many. *)
Theorem processBatches_call_budget (w : W) (fuel : nat) :
  (length items < fuel)%nat ->
  exists (r : BatchResult) (w' : W) (calls : list (list T)),
    processBatches String_ (traced processFn) fuel items batchSize (w, [])
    = Some (r, (w', calls)) /\
    processBatches String_ processFn fuel items batchSize w = Some (r, w') /\
    (N + batchSize - 1) / batchSize <= Z.of_nat (length calls)
    <= (N + batchSize - 1) / batchSize + N /\
    N <= Z.of_nat (length (concat calls)) <= 2 * N /\
    forall p : T -> bool,
      (length (filter p items) <= length (filter p (concat calls))
       <= 2 * length (filter p items))%nat.
Proof.
  intros Hfuel.
  destruct (traced_run_terminates w fuel Hfuel) as [acc' Hrun].
  destruct (traced_loop_calls
              (fun i L =>
                 chunksFrom i <= Z.of_nat (length L)
                 <= chunksFrom i + Z.max 0 (N - i) /\
                 Z.max 0 (N - i) <= Z.of_nat (length (concat L))
                 <= 2 * Z.max 0 (N - i) /\
                 forall p : T -> bool,
                   (length (filter p (skipn (Z.to_nat i) items))
                    <= length (filter p (concat L))
                    <= 2 * length (filter p (skipn (Z.to_nat i) items)))%nat))
    with (fuel := fuel) (i := 0) (a := mkAcc [] [] w) (log := @nil (list T))
         (acc' := acc')
    as (a' & L & -> & Hloop & Hcalls & Hitems & Heach);
    try assumption; try lia.
  - intros i Hi. rewrite chunksFrom_end by lia.
    rewrite (Z.max_l 0 (N - i)) by lia. cbn [concat length].
    repeat split; try lia; rewrite skipn_all2 by lia; cbn; lia.
  - intros i w0 L Hi (HL & HcL & HpL).
    pose proof (slice_length i Hi) as Hlen.
    rewrite (chunksFrom_step i Hi).
    rewrite !concat_app, !length_app. cbn [concat length app].
    rewrite app_nil_r.
    split; [|split].
    + destruct (fst (processFn _ w0));
        rewrite ?length_map; cbn [length]; lia.
    + destruct (fst (processFn _ w0));
        rewrite ?concat_single; cbn [concat length]; lia.
    + intros p. specialize (HpL p).
      rewrite (skipn_chunk items i batchSize) by lia.
      rewrite !filter_app, !length_app.
      destruct (fst (processFn _ w0));
        rewrite ?concat_single; cbn [concat filter length]; lia.
  - exists (mkBatchResult (Z.of_nat (length (acc_successes a')))
                          (acc_failures a')), (acc_world a'), L.
    unfold Batch.processBatches, Batch.run.
    change (mkAcc [] [] (w, @nil (list T)))
      with (withLog (mkAcc [] [] w) (@nil (list T))).
    rewrite Hrun, Hloop.
    cbn [acc_successes acc_failures acc_world fst snd app].
    rewrite Z.max_r in Hcalls, Hitems by lia.
    replace (N - 0) with N in Hcalls, Hitems by lia.
    repeat split; try lia; apply (Heach p).
Qed.

(** When every call resolves, no failure is recorded. *)
Lemma loop_all_resolve :
  (forall (batch : list T) (w0 : W), fst (processFn batch w0) = None) ->
  forall (fuel : nat) (i : Z) (a a' : Acc W),
    loop String_ processFn items batchSize fuel i a = Some a' ->
    acc_failures a' = acc_failures a.
Proof.
  intros Hok. induction fuel as [|fuel IH]; intros i a a' Hrun;
    [discriminate|].
  cbn [loop] in Hrun. destruct (i <? N).
  - apply IH in Hrun. rewrite Hrun. unfold processChunk.
    specialize (Hok (slice items i (i + batchSize)) (acc_world a)).
    now destruct (processFn _ (acc_world a)) as [[e|] w1]; [discriminate|].
  - now injection Hrun as <-.
Qed.

(** When every call rejects, no success is recorded. *)
Lemma fallback_all_reject (batch : list T) (a : Acc W) :
  (forall (b : list T) (w0 : W), fst (processFn b w0) <> None) ->
  acc_successes (fold_left (processItem String_ processFn) batch a)
  = acc_successes a.
Proof.
  intros Hfail. revert a. induction batch as [|it batch IH]; intros a;
    cbn [fold_left]; [reflexivity|].
  rewrite IH. unfold processItem.
  specialize (Hfail [it] (acc_world a)).
  now destruct (processFn [it] (acc_world a)) as [[e|] w1].
Qed.

Lemma loop_all_reject :
  (forall (batch : list T) (w0 : W), fst (processFn batch w0) <> None) ->
  forall (fuel : nat) (i : Z) (a a' : Acc W),
    loop String_ processFn items batchSize fuel i a = Some a' ->
    acc_successes a' = acc_successes a.
Proof.
  intros Hfail. induction fuel as [|fuel IH]; intros i a a' Hrun;
    [discriminate|].
  cbn [loop] in Hrun. destruct (i <? N).
  - apply IH in Hrun. rewrite Hrun. unfold processChunk.
    pose proof (Hfail (slice items i (i + batchSize)) (acc_world a)) as Hc.
    destruct (processFn _ (acc_world a)) as [[e|] w1]; [|now cbn in Hc].
    now rewrite fallback_all_reject.
  - now injection Hrun as <-.
Qed.

(** When every call resolves, the calls are exactly the chunks: together
    they are the input, each holds between one and [batchSize] items, and
    there are ceil(N / batchSize) of them; every item is a success. *)
Theorem processBatches_all_resolve (w : W) (fuel : nat) :
  (forall (batch : list T) (w0 : W), fst (processFn batch w0) = None) ->
  (length items < fuel)%nat ->
  exists (w' : W) (calls : list (list T)),
    processBatches String_ (traced processFn) fuel items batchSize (w, [])
    = Some (mkBatchResult N [], (w', calls)) /\
    concat calls = items /\
    Forall (fun c => 1 <= Z.of_nat (length c) <= batchSize) calls /\
    Z.of_nat (length calls) = (N + batchSize - 1) / batchSize.
Proof.
  intros Hok Hfuel.
  destruct (traced_run_terminates w fuel Hfuel) as [acc' Hrun].
  destruct (traced_loop_calls
              (fun i L =>
                 concat L = skipn (Z.to_nat i) items /\
                 Forall (fun c => 1 <= Z.of_nat (length c) <= batchSize) L /\
                 Z.of_nat (length L) = chunksFrom i))
    with (fuel := fuel) (i := 0) (a := mkAcc [] [] w) (log := @nil (list T))
         (acc' := acc')
    as (a' & L & -> & Hloop & Hcat & Hsize & Hcount); try assumption; try lia.
  - intros i Hi. rewrite chunksFrom_end by lia.
    rewrite skipn_all2 by lia. repeat split. constructor.
  - intros i w0 L Hi (HcL & HsL & HnL).
    pose proof (slice_length i Hi) as Hlen.
    rewrite (chunksFrom_step i Hi), Hok. cbn [app concat length].
    rewrite HcL. repeat split.
    + symmetry. apply skipn_chunk; lia.
    + constructor; [lia | exact HsL].
    + lia.
  - destruct (run_extends String_ processFn items batchSize w fuel positive
                Hfuel) as (a'' & Hrun' & Hperm).
    unfold Batch.run in Hrun'. rewrite Hloop in Hrun'. injection Hrun' as <-.
    pose proof (loop_all_resolve Hok fuel 0 _ _ Hloop) as Hnofail.
    cbn [acc_failures] in Hnofail.
    exists (acc_world a'), L.
    unfold Batch.processBatches, Batch.run.
    change (mkAcc [] [] (w, @nil (list T)))
      with (withLog (mkAcc [] [] w) (@nil (list T))).
    rewrite Hrun. cbn [acc_successes acc_failures acc_world fst snd app].
    rewrite Hnofail in *. cbn [map app] in Hperm.
    rewrite app_nil_r in Hperm. apply Permutation_length in Hperm.
    rewrite length_map in Hperm. rewrite <- Hperm.
    rewrite Z.max_r in Hcount by lia.
    replace (N - 0) with N in Hcount by lia.
    repeat split; assumption.
Qed.


(** When every call rejects, nothing is counted as a success and the
    failures list names every item once, in input order. *)
Theorem processBatches_all_reject (w : W) (fuel : nat) :
  (forall (batch : list T) (w0 : W), fst (processFn batch w0) <> None) ->
  (length items < fuel)%nat ->
  exists (r : BatchResult) (w' : W),
    processBatches String_ processFn fuel items batchSize w = Some (r, w') /\
    successes r = 0 /\
    map item (failures r) = map String_ items.
Proof.
  intros Hfail Hfuel.
  destruct (loop_terminates String_ processFn items batchSize fuel positive 0
              (mkAcc [] [] w)) as [acc Hrun]; [lia|].
  destruct (loop_adds String_ processFn items batchSize fuel positive 0 _ _
              (Z.le_refl 0) Hrun) as (ss & fs & Hs & Hf & Hil).
  pose proof (loop_all_reject Hfail fuel 0 _ _ Hrun) as Hnone.
  cbn [acc_successes acc_failures app] in Hs, Hf, Hnone.
  rewrite Hnone in Hs. subst ss fs.
  unfold Batch.processBatches, Batch.run. rewrite Hrun, Hnone.
  eexists. eexists. split; [reflexivity|]. split; [reflexivity|].
  cbn [failures skipn Z.to_nat] in *. now apply Interleaving_nil_left.
Qed.

End BatchCallBudget.

Section BatchOneByOne.

Import Batch Accounting.

Context {T W : Type}.
Variable String_ : T -> jsstring.
Variable f : list T -> option thrown.
Variable items : list T.

Local Abbreviation N := (Z.of_nat (length items)).
Local Abbreviation resolves := (fun it : T => match f [it] with None => true | Some _ => false end).
Local Abbreviation failureOf :=
  (fun it : T =>
     match f [it] with
     | Some e => [mkFailure (String_ it) (errorMessage e)]
     | None => []
     end).

Lemma slice_one (i : Z) :
  0 <= i < N ->
  exists x : T,
    slice items i (i + 1) = [x] /\
    skipn (Z.to_nat i) items = x :: skipn (Z.to_nat (i + 1)) items.
Proof.
  intros Hi. pose proof (slice_length items 1 ltac:(lia) i Hi) as Hlen.
  pose proof (skipn_chunk items i 1 (proj1 Hi) ltac:(lia)) as Hskip.
  destruct (slice items i (i + 1)) as [|x [|y rest]]; cbn [length] in Hlen;
    try lia.
  exists x. now split.
Qed.

Lemma loop_one_by_one (fuel : nat) :
  forall (i : Z) (a : Acc W),
    0 <= i -> Z.max 0 (N - i) < Z.of_nat fuel ->
    loop String_ (stateless f) items 1 fuel i a
    = Some (mkAcc (acc_successes a
                   ++ map String_ (filter resolves (skipn (Z.to_nat i) items)))
                  (acc_failures a
                   ++ flat_map failureOf (skipn (Z.to_nat i) items))
                  (acc_world a)).
Proof.
  induction fuel as [|fuel IH]; intros i a Hi Hfuel; [lia|].
  cbn [loop]. destruct (Z.ltb_spec i N) as [Hlt | Hge].
  - destruct (slice_one i (conj Hi Hlt)) as (x & -> & ->).
    rewrite IH by lia. f_equal.
    unfold processChunk, processItem, stateless.
    cbn [fold_left acc_world acc_successes acc_failures filter flat_map map].
    destruct (f [x]) as [e|];
      cbn [fold_left acc_world acc_successes acc_failures map app];
      now rewrite <- !app_assoc.
  - rewrite skipn_all2 by lia. cbn. rewrite !app_nil_r. now destruct a.
Qed.

(** With batch size 1 and a stateless action the result is exact per
    item: the successes are the items whose own call resolves, the
    failures are the others, in input order, with the message of their
    own call. *)
Theorem processBatches_one_by_one (w : W) (fuel : nat) :
  (length items < fuel)%nat ->
  processBatches String_ (stateless f) fuel items 1 w
  = Some (mkBatchResult
            (Z.of_nat (length (filter resolves items)))
            (flat_map failureOf items), w).
Proof.
  intros Hfuel. unfold Batch.processBatches, Batch.run.
  rewrite loop_one_by_one by lia.
  cbn [acc_successes acc_failures acc_world app skipn Z.to_nat].
  now rewrite length_map.
Qed.

End BatchOneByOne.

Section BatchMoreWitnesses.

Import Batch Accounting Examples.

Lemma processBatches_keeps_input_order_witness :
  1 <= 2 /\ (length items5 < 6)%nat /\
  exists acc : Acc unit,
    run (fun s => s) throwsOnB 6 items5 2 tt = Some acc /\
    processBatches (fun s => s) throwsOnB 6 items5 2 tt
    = Some (mkBatchResult (Z.of_nat (length (acc_successes acc)))
                          (acc_failures acc), acc_world acc) /\
    Interleaving (acc_successes acc) (map item (acc_failures acc))
                 (map (fun s => s) items5).
Proof.
  split; [lia|]. split; [cbn; lia|].
  apply (processBatches_keeps_input_order (fun s => s) throwsOnB items5 2 tt 6);
    [lia | cbn; lia].
Defined.

Lemma processBatches_call_budget_witness :
  1 <= 2 /\ (length items5 < 6)%nat /\
  exists (r : BatchResult) (w' : unit) (calls : list (list jsstring)),
    processBatches (fun s => s) (traced throwsOnCD) 6 items5 2 (tt, [])
    = Some (r, (w', calls)) /\
    processBatches (fun s => s) throwsOnCD 6 items5 2 tt = Some (r, w') /\
    (5 + 2 - 1) / 2 <= Z.of_nat (length calls) <= (5 + 2 - 1) / 2 + 5 /\
    5 <= Z.of_nat (length (concat calls)) <= 2 * 5 /\
    forall p : jsstring -> bool,
      (length (filter p items5) <= length (filter p (concat calls))
       <= 2 * length (filter p items5))%nat.
Proof.
  split; [lia|]. split; [cbn; lia|].
  apply (processBatches_call_budget (fun s => s) throwsOnCD items5 2
           ltac:(lia) tt 6).
  cbn; lia.
Defined.

Lemma processBatches_all_resolve_witness :
  1 <= 2 /\ (length items5 < 6)%nat /\
  exists (w' : unit) (calls : list (list jsstring)),
    processBatches (fun s => s) (traced alwaysResolves) 6 items5 2 (tt, [])
    = Some (mkBatchResult 5 [], (w', calls)) /\
    concat calls = items5 /\
    Forall (fun c => 1 <= Z.of_nat (length c) <= 2) calls /\
    Z.of_nat (length calls) = (5 + 2 - 1) / 2.
Proof.
  split; [lia|]. split; [cbn; lia|].
  apply (processBatches_all_resolve (fun s => s) alwaysResolves items5 2
           ltac:(lia) tt 6); [reflexivity | cbn; lia].
Defined.

Lemma processBatches_all_reject_witness :
  1 <= 2 /\ (length items5 < 6)%nat /\
  exists (r : BatchResult) (w' : unit),
    processBatches (fun s => s) alwaysRejects 6 items5 2 tt = Some (r, w') /\
    successes r = 0 /\
    map item (failures r) = map (fun s => s) items5.
Proof.
  split; [lia|]. split; [cbn; lia|].
  apply (processBatches_all_reject (fun s => s) alwaysRejects items5 2
           ltac:(lia) tt 6); [discriminate | cbn; lia].
Defined.

Lemma processBatches_one_by_one_witness :
  (length items5 < 6)%nat /\
  processBatches (fun s => s) (stateless rejectsOnlyB) 6 items5 1 tt
  = Some (mkBatchResult 4 [mkFailure (str "b") (str "item failed")], tt).
Proof.
  split; [cbn; lia|].
  exact (processBatches_one_by_one (fun s => s) rejectsOnlyB items5 tt 6
           ltac:(cbn; lia)).
Defined.

End BatchMoreWitnesses.

(** ** The raw payload of a send request *)

Section RawPayload.

Import Node Decode Transport.

(** A base64 digit is a letter, a digit, [+] or [/]; it is none of [=],
    [-] and [_]. *)
Lemma base64Char_class (v : Z) :
  isSextet v ->
  isUrlSafe (if base64Char v =? 47 then 95
             else if base64Char v =? 43 then 45 else base64Char v) = true /\
  base64Char v <> padChar /\ base64Char v <> 45 /\ base64Char v <> 95.
Proof.
  revert v. apply sextet_cases.
  repeat constructor; try (cbv; congruence).
Qed.

(** The text that [toString('base64')] gives is a run of digits followed
    by at most two [=], four characters for every three bytes. *)
Lemma toBase64_shape (bytes : list Z) :
  Forall isByte bytes ->
  exists (digits : jsstring) (pad : nat),
    toBase64 bytes = digits ++ repeat padChar pad /\
    (exists vs, Forall isSextet vs /\ digits = map base64Char vs) /\
    (pad < 3)%nat /\
    Z.of_nat (length digits) = (4 * Z.of_nat (length bytes) + 2) / 3 /\
    (Z.of_nat (length digits) + Z.of_nat pad) mod 4 = 0.
Proof.
  induction bytes as [|a|a b|a b c rest IH] using triples_ind; intros Hb.
  - exists [], 0%nat. repeat split; try reflexivity; try lia.
    exists []. now split.
  - inversion_clear Hb as [|? ? Ha _].
    destruct (sextets_of_bytes a a a Ha Ha Ha) as (H1 & H2 & _).
    exists [base64Char (a / 4); base64Char (a mod 4 * 16)], 2%nat.
    repeat split; try reflexivity; try lia.
    exists [a / 4; a mod 4 * 16]. split; [repeat (apply Forall_cons; [assumption|]); apply Forall_nil | reflexivity].
  - inversion_clear Hb as [|? ? Ha Hb']. inversion_clear Hb' as [|? ? Hb _].
    destruct (sextets_of_bytes a b b Ha Hb Hb) as (H1 & _ & H2 & H3 & _).
    exists [base64Char (a / 4); base64Char (a mod 4 * 16 + b / 16);
            base64Char (b mod 16 * 4)], 1%nat.
    repeat split; try reflexivity; try lia.
    exists [a / 4; a mod 4 * 16 + b / 16; b mod 16 * 4].
    split; [repeat (apply Forall_cons; [assumption|]); apply Forall_nil | reflexivity].
  - inversion_clear Hb as [|? ? Ha Hb']. inversion_clear Hb' as [|? ? Hb Hb''].
    inversion_clear Hb'' as [|? ? Hc Hrest].
    destruct (sextets_of_bytes a b c Ha Hb Hc) as (H1 & _ & H2 & _ & H3 & H4).
    destruct (IH Hrest) as (digits & pad & Heq & (vs & Hvs & Hd) & Hpad & Hlen & Hmod).
    exists (base64Char (a / 4) :: base64Char (a mod 4 * 16 + b / 16)
            :: base64Char (b mod 16 * 4 + c / 64) :: base64Char (c mod 64)
            :: digits), pad.
    cbn [toBase64]. rewrite Heq. repeat split; try assumption.
    + exists (a / 4 :: a mod 4 * 16 + b / 16 :: b mod 16 * 4 + c / 64
              :: c mod 64 :: vs).
      split; [repeat (apply Forall_cons; [assumption|]); exact Hvs | now rewrite Hd].
    + cbn [length]. rewrite !Nat2Z.inj_succ.
      replace (4 * Z.succ (Z.succ (Z.succ (Z.of_nat (length rest)))) + 2)
        with (4 * Z.of_nat (length rest) + 2 + 4 * 3) by lia.
      rewrite Z.div_add by lia. lia.
    + cbn [length]. rewrite !Nat2Z.inj_succ.
      replace (Z.succ (Z.succ (Z.succ (Z.succ (Z.of_nat (length digits)))))
               + Z.of_nat pad)
        with (Z.of_nat (length digits) + Z.of_nat pad + 1 * 4) by lia.
      now rewrite Z.mod_add by lia.
Qed.


Lemma replaceAll_app (c r : Z) (s t : jsstring) :
  replaceAll c r (s ++ t) = replaceAll c r s ++ replaceAll c r t.
Proof. apply map_app. Qed.

Lemma replaceAll_pad (c r : Z) (k : nat) :
  c <> padChar -> replaceAll c r (repeat padChar k) = repeat padChar k.
Proof.
  intros Hc. unfold replaceAll.
  induction k as [|k IH]; cbn [repeat map]; [reflexivity|].
  destruct (Z.eqb_spec padChar c); [congruence|]. now rewrite IH.
Qed.

Lemma rev_repeat {A : Type} (x : A) (k : nat) : rev (repeat x k) = repeat x k.
Proof.
  induction k as [|k IH]; cbn; [reflexivity|].
  rewrite IH. symmetry. apply repeat_cons.
Qed.

Lemma dropLeadingPad_digits (s : jsstring) :
  Forall (fun u => u <> padChar) s -> dropLeadingPad s = s.
Proof.
  intros Hs. destruct Hs as [|u s Hu _]; cbn [dropLeadingPad]; [reflexivity|].
  now destruct (Z.eqb_spec u padChar).
Qed.

Lemma stripTrailingPad_digits (digits : jsstring) (k : nat) :
  Forall (fun u => u <> padChar) digits ->
  stripTrailingPad (digits ++ repeat padChar k) = digits.
Proof.
  intros Hd. unfold stripTrailingPad. rewrite rev_app_distr, rev_repeat.
  assert (Hdrop : forall t, dropLeadingPad (repeat padChar k ++ t)
                            = dropLeadingPad t).
  { intros t. induction k as [|k IH]; cbn [repeat app dropLeadingPad];
      [reflexivity|]. now rewrite Z.eqb_refl. }
  rewrite Hdrop, dropLeadingPad_digits.
  - apply rev_involutive.
  - apply Forall_rev, Hd.
Qed.

(** The payload is the digits of the base64 text with [+] and [/]
    replaced; the padding is gone. *)
Lemma encodeMessage_digits (message : jsstring) :
  isCodeUnits message = true ->
  exists (vs : list Z) (pad : nat),
    Forall isSextet vs /\
    toBase64 (Buffer_from message) = map base64Char vs ++ repeat padChar pad /\
    encodeMessage message
    = replaceAll 47 95 (replaceAll 43 45 (map base64Char vs)) /\
    (pad < 3)%nat /\
    Z.of_nat (length vs)
    = (4 * Z.of_nat (length (Buffer_from message)) + 2) / 3 /\
    (Z.of_nat (length vs) + Z.of_nat pad) mod 4 = 0.
Proof.
  intros Hunits.
  pose proof (Buffer_from_bytes _ (codePoints_scalar message Hunits)) as Hbytes.
  destruct (toBase64_shape _ Hbytes)
    as (digits & pad & Heq & (vs & Hvs & ->) & Hpad & Hlen & Hmod).
  rewrite length_map in Hlen, Hmod.
  exists vs, pad. repeat split; try assumption.
  unfold encodeMessage, Buffer_from. rewrite Heq.
  rewrite !replaceAll_app, !replaceAll_pad by (cbv; congruence).
  apply stripTrailingPad_digits.
  unfold replaceAll. rewrite !map_map. apply Forall_map.
  eapply Forall_impl; [|exact Hvs].
  intros v Hv. cbv beta. destruct (base64Char_class v Hv) as (_ & Hp & _).
  destruct (Z.eqb_spec (base64Char v) 43) as [E|E]; [cbv; congruence|].
  destruct (Z.eqb_spec (base64Char v) 47) as [E'|E']; [cbv; congruence|].
  exact Hp.
Qed.

(** The raw payload uses the URL-safe alphabet only (letters, digits,
    [-] and [_]: no [+], [/] or [=]) and has ceil(4n/3) characters for
    the n bytes of the UTF-8 document. *)
Theorem encodeMessage_url_safe (message : jsstring) :
  isCodeUnits message = true ->
  forallb isUrlSafe (encodeMessage message) = true /\
  Z.of_nat (length (encodeMessage message))
  = (4 * Z.of_nat (length (Buffer_from message)) + 2) / 3.
Proof.
  intros Hunits.
  destruct (encodeMessage_digits message Hunits)
    as (vs & pad & Hvs & _ & -> & _ & Hlen & _).
  unfold replaceAll. rewrite !map_map, length_map. split; [|exact Hlen].
  apply forallb_forall. intros u Hu. apply in_map_iff in Hu as (v & <- & Hv).
  rewrite Forall_forall in Hvs.
  destruct (base64Char_class v (Hvs v Hv)) as (Hsafe & _).
  destruct (Z.eqb_spec (base64Char v) 43) as [E|E].
  - reflexivity.
  - exact Hsafe.
Qed.

Lemma undo_replacements (vs : list Z) :
  Forall isSextet vs ->
  replaceAll 45 43
    (replaceAll 95 47 (replaceAll 47 95 (replaceAll 43 45 (map base64Char vs))))
  = map base64Char vs.
Proof.
  intros Hvs. unfold replaceAll. rewrite !map_map.
  apply map_ext_in. intros v Hv. rewrite Forall_forall in Hvs.
  destruct (base64Char_class v (Hvs v Hv)) as (_ & _ & H45 & H95).
  destruct (Z.eqb_spec (base64Char v) 43) as [H43|H43];
    [now rewrite H43|].
  destruct (Z.eqb_spec (base64Char v) 47) as [H47|H47];
    [now rewrite H47|].
  destruct (Z.eqb_spec (base64Char v) 95); [contradiction|].
  now destruct (Z.eqb_spec (base64Char v) 45).
Qed.

Lemma decodeMessage_encodeMessage (message : jsstring) :
  isCodeUnits message = true -> isWellFormed message = true ->
  decodeMessage (encodeMessage message) = Some message.
Proof.
  intros Hunits Hwf.
  pose proof (codePoints_scalar message Hunits) as Hscalar.
  destruct (encodeMessage_digits message Hunits)
    as (vs & pad & Hvs & Hshape & -> & Hpad & _ & Hmod).
  unfold decodeMessage. rewrite undo_replacements by assumption.
  rewrite length_map.
  replace (Z.to_nat ((4 - Z.of_nat (length vs) mod 4) mod 4)) with pad
    by (Z.div_mod_to_equations; lia).
  rewrite <- Hshape. unfold Buffer_from.
  rewrite (fromBase64_toBase64 _ (Buffer_from_bytes _ Hscalar)).
  unfold utf8Decode. rewrite (utf8CodePoints_Buffer _ Hscalar).
  cbn [option_map]. now rewrite utf16Units_codePoints.
Qed.

(** Two well-formed documents with the same raw payload are the same
    document: nothing is lost by dropping the padding and replacing [+]
    and [/]. *)
Theorem encodeMessage_injective (m1 m2 : jsstring) :
  isCodeUnits m1 = true -> isWellFormed m1 = true ->
  isCodeUnits m2 = true -> isWellFormed m2 = true ->
  encodeMessage m1 = encodeMessage m2 -> m1 = m2.
Proof.
  intros Hu1 Hw1 Hu2 Hw2 Heq.
  pose proof (decodeMessage_encodeMessage m1 Hu1 Hw1) as H1.
  pose proof (decodeMessage_encodeMessage m2 Hu2 Hw2) as H2.
  rewrite Heq in H1. congruence.
Qed.

End RawPayload.

Section RawPayloadWitnesses.

Import Node Decode Transport Examples.

Lemma encodeMessage_url_safe_witness :
  isCodeUnits cafe = true /\
  forallb isUrlSafe (encodeMessage cafe) = true /\
  Z.of_nat (length (encodeMessage cafe))
  = (4 * Z.of_nat (length (Buffer_from cafe)) + 2) / 3.
Proof.
  split; [reflexivity|]. exact (encodeMessage_url_safe cafe eq_refl).
Defined.

Lemma encodeMessage_injective_witness :
  isCodeUnits cafe = true /\ isWellFormed cafe = true /\
  encodeMessage cafe = str "Q2Fmw6kg8J-YgA" /\
  cafe = cafe.
Proof.
  do 3 (split; [reflexivity|]).
  exact (encodeMessage_injective cafe cafe eq_refl eq_refl eq_refl eq_refl
           eq_refl).
Defined.

End RawPayloadWitnesses.

(** ** More on header values and addresses *)

Section HeaderValues.

Import Node Decode Validation Builder.

Lemma hasNonAscii_ascii (text : jsstring) :
  Forall isAscii text -> hasNonAscii text = false.
Proof.
  unfold hasNonAscii. induction 1 as [|u text Hu _ IH]; [reflexivity|].
  cbn [existsb]. rewrite IH. unfold isAscii in Hu.
  destruct (Z.ltb_spec 0x7F u); [lia | reflexivity].
Qed.

Lemma encodeHeader_is_ascii (text : jsstring) :
  isCodeUnits text = true -> Forall isAscii (encodeHeader text).
Proof.
  intros Hunits. unfold encodeHeader.
  destruct (hasNonAscii text) eqn:Hnon; [|now apply ascii_text].
  rewrite !Forall_app. repeat split.
  - repeat constructor; cbv; congruence.
  - apply toBase64_ascii, Buffer_from_bytes, codePoints_scalar, Hunits.
  - repeat constructor; cbv; congruence.
Qed.

(** Encoding a header value twice is encoding it once: the encoded word
    is ASCII and passes through unchanged the second time. *)
Theorem encodeHeader_idempotent (text : jsstring) :
  isCodeUnits text = true ->
  encodeHeader (encodeHeader text) = encodeHeader text.
Proof.
  intros Hunits. unfold encodeHeader at 1.
  now rewrite (hasNonAscii_ascii _ (encodeHeader_is_ascii text Hunits)).
Qed.

Lemma base64Char_not_space (v : Z) :
  isSextet v -> isWhiteSpace (base64Char v) = false.
Proof.
  revert v. apply sextet_cases. repeat constructor.
Qed.

Lemma toBase64_length (bytes : list Z) :
  Z.of_nat (length (toBase64 bytes))
  = 4 * ((Z.of_nat (length bytes) + 2) / 3).
Proof.
  induction bytes as [|a|a b|a b c rest IH] using triples_ind;
    try reflexivity.
  cbn [toBase64 length]. rewrite !Nat2Z.inj_succ, IH.
  replace (Z.succ (Z.succ (Z.succ (Z.of_nat (length rest)))) + 2)
    with (Z.of_nat (length rest) + 2 + 1 * 3) by lia.
  rewrite Z.div_add by lia. lia.
Qed.

(** The word that stands for a non-ASCII header value is one token: it
    holds no white space and no line break, whatever the value holds; it
    is not folded, and has 12 + 4 * ceil(n / 3) characters for the n
    UTF-8 bytes of the value. *)
Theorem encoded_word_is_one_token (text : jsstring) :
  isCodeUnits text = true -> hasNonAscii text = true ->
  forallb (fun u => negb (isWhiteSpace u)) (encodeHeader text) = true /\
  Z.of_nat (length (encodeHeader text))
  = 12 + 4 * ((Z.of_nat (length (Buffer_from text)) + 2) / 3).
Proof.
  intros Hunits Hnon. unfold encodeHeader. rewrite Hnon. split.
  - pose proof (Buffer_from_bytes _ (codePoints_scalar text Hunits)) as Hbytes.
    destruct (toBase64_shape _ Hbytes)
      as (digits & pad & Heq & (vs & Hvs & ->) & _).
    unfold Buffer_from. rewrite Heq, !forallb_app.
    rewrite !andb_true_iff. repeat split.
    + apply forallb_forall. intros u Hu.
      apply in_map_iff in Hu as (v & <- & Hv). rewrite Forall_forall in Hvs.
      now rewrite base64Char_not_space by auto.
    + apply forallb_forall. intros u Hu. apply repeat_spec in Hu. now subst.
  - rewrite !length_app, !Nat2Z.inj_add, toBase64_length.
    change (Z.of_nat (length (str "=?UTF-8?B?"))) with 10.
    change (Z.of_nat (length (str "?="))) with 2. lia.
Qed.

(** An address that [validateEmail] accepts holds no white space (so no
    line break) and exactly one at-sign. *)
Theorem validateEmail_shape (email : jsstring) :
  validateEmail email = true ->
  forallb (fun u => negb (isWhiteSpace u)) email = true /\
  count_occ Z.eq_dec email atSign = 1%nat.
Proof.
  intros Hvalid. apply validateEmail_regex in Hvalid
    as (a & b & c & -> & _ & _ & _ & Ha & Hb & Hc).
  assert (Hclass : forall s, forallb addrChar s = true ->
            forallb (fun u => negb (isWhiteSpace u)) s = true /\
            count_occ Z.eq_dec s atSign = 0%nat).
  { induction s as [|u s IH]; cbn [forallb count_occ]; [easy|].
    rewrite andb_true_iff. intros [Hu Hs]. destruct (IH Hs) as [-> ->].
    unfold addrChar in Hu. apply andb_true_iff in Hu as [Hw Hat].
    rewrite Hw. split; [reflexivity|].
    destruct (Z.eq_dec u atSign) as [->|]; [discriminate | reflexivity]. }
  destruct (Hclass a Ha) as [Wa Ca], (Hclass b Hb) as [Wb Cb],
    (Hclass c Hc) as [Wc Cc].
  split.
  - rewrite forallb_app. cbn [forallb]. rewrite forallb_app. cbn [forallb].
    now rewrite Wa, Wb, Wc.
  - rewrite count_occ_app. cbn [count_occ].
    destruct (Z.eq_dec atSign atSign); [|contradiction].
    rewrite count_occ_app. cbn [count_occ].
    destruct (Z.eq_dec dot atSign); [discriminate|].
    rewrite Ca, Cb, Cc. reflexivity.
Qed.

(** A text in which the only white space is the space that directly
    follows a comma. *)
Local Abbreviation spacesFollowCommas s :=
  (forall (pre : jsstring) (u : Z) (post : jsstring),
     s = pre ++ u :: post -> isWhiteSpace u = true ->
     u = 32 /\ exists pre' : jsstring, pre = pre' ++ [44]).

Lemma valid_address_clean (email : jsstring) :
  validateEmail email = true ->
  forallb (fun u => negb (isWhiteSpace u)) email = true.
Proof.
  intros Hvalid. apply validateEmail_regex in Hvalid
    as (a & b & c & -> & _ & _ & _ & Ha & Hb & Hc).
  assert (Hclass : forall s, forallb addrChar s = true ->
            forallb (fun u => negb (isWhiteSpace u)) s = true).
  { induction s as [|u s IH]; cbn [forallb]; [easy|].
    rewrite andb_true_iff. intros [Hu Hs]. rewrite (IH Hs).
    unfold addrChar in Hu. apply andb_true_iff in Hu as [-> _]. reflexivity. }
  rewrite forallb_app. cbn [forallb]. rewrite forallb_app. cbn [forallb].
  now rewrite (Hclass a Ha), (Hclass b Hb), (Hclass c Hc).
Qed.

Lemma clean_no_space (s : jsstring) :
  forallb (fun u => negb (isWhiteSpace u)) s = true ->
  count_occ Z.eq_dec s 32 = 0%nat.
Proof.
  induction s as [|u s IH]; cbn [forallb count_occ]; [reflexivity|].
  rewrite andb_true_iff. intros [Hu Hs].
  destruct (Z.eq_dec u 32) as [->|]; [discriminate | now apply IH].
Qed.

(** Text without white space put before a text keeps the property. *)
Lemma spacesFollowCommas_after (a s : jsstring) :
  forallb (fun u => negb (isWhiteSpace u)) a = true ->
  spacesFollowCommas s -> spacesFollowCommas (a ++ s).
Proof.
  intros Ha Hs. induction a as [|x a IH]; [exact Hs|].
  cbn [forallb] in Ha. apply andb_true_iff in Ha as [Hx Ha].
  intros pre u post Heq Hu. destruct pre as [|y pre].
  - injection Heq as -> _. rewrite Hu in Hx. discriminate.
  - injection Heq as <- Heq.
    destruct (IH Ha pre u post Heq Hu) as [-> [pre' ->]].
    split; [reflexivity|]. now exists (x :: pre').
Qed.

(** The separator [", "] put before a text keeps the property. *)
Lemma spacesFollowCommas_separator (s : jsstring) :
  spacesFollowCommas s -> spacesFollowCommas (str ", " ++ s).
Proof.
  intros Hs pre u post Heq Hu. change (str ", " ++ s) with (44 :: 32 :: s) in Heq.
  destruct pre as [|y [|z pre]].
  - injection Heq as <- _. discriminate.
  - injection Heq as <- <- _. split; [reflexivity|]. now exists [].
  - injection Heq as <- <- Heq.
    destruct (Hs pre u post Heq Hu) as [-> [pre' ->]].
    split; [reflexivity|]. now exists (44 :: 32 :: pre').
Qed.

(** In the joined recipient list of validated addresses the only white
    space is the single space that follows each separating comma: every
    white-space character of the list is a space that comes directly
    after a comma, and there is one space per separator.  No address
    can break the header line. *)
Theorem joined_recipients_stay_on_one_line (emails : list jsstring) :
  forallb validateEmail emails = true ->
  spacesFollowCommas (join (str ", ") emails) /\
  count_occ Z.eq_dec (join (str ", ") emails) 32 = (length emails - 1)%nat.
Proof.
  induction emails as [|e emails IH]; intros Hvalid.
  - split; [|reflexivity]. intros [|y pre] u post Heq; discriminate Heq.
  - cbn [forallb] in Hvalid. apply andb_true_iff in Hvalid as [He Hrest].
    apply valid_address_clean in He.
    destruct (IH Hrest) as [Hspaces Hcount].
    destruct emails as [|e' emails].
    + cbn [join length]. split.
      * rewrite <- (app_nil_r e). apply spacesFollowCommas_after; [exact He|].
        intros [|y pre] u post Heq; discriminate Heq.
      * now rewrite clean_no_space.
    + rewrite join_cons by discriminate. split.
      * apply spacesFollowCommas_after; [exact He|].
        now apply spacesFollowCommas_separator.
      * rewrite count_occ_app, (clean_no_space e He).
        change (str ", " ++ join (str ", ") (e' :: emails))
          with (44 :: 32 :: join (str ", ") (e' :: emails)).
        cbn [count_occ].
        destruct (Z.eq_dec 44 32); [discriminate|].
        destruct (Z.eq_dec 32 32); [|contradiction].
        rewrite Hcount. cbn [length]. lia.
Qed.

End HeaderValues.

Section HeaderValueWitnesses.

Import Node Decode Validation Builder Examples.

Lemma encodeHeader_idempotent_witness :
  isCodeUnits cafe = true /\
  encodeHeader (encodeHeader cafe) = encodeHeader cafe.
Proof.
  split; [reflexivity|]. exact (encodeHeader_idempotent cafe eq_refl).
Defined.

Lemma encoded_word_is_one_token_witness :
  isCodeUnits cafe = true /\ hasNonAscii cafe = true /\
  forallb (fun u => negb (isWhiteSpace u)) (encodeHeader cafe) = true /\
  Z.of_nat (length (encodeHeader cafe))
  = 12 + 4 * ((Z.of_nat (length (Buffer_from cafe)) + 2) / 3).
Proof.
  do 2 (split; [reflexivity|]).
  exact (encoded_word_is_one_token cafe eq_refl eq_refl).
Defined.

Lemma validateEmail_shape_witness :
  validateEmail alice = true /\
  forallb (fun u => negb (isWhiteSpace u)) alice = true /\
  count_occ Z.eq_dec alice atSign = 1%nat.
Proof.
  split; [reflexivity|]. exact (validateEmail_shape alice eq_refl).
Defined.

Lemma joined_recipients_stay_on_one_line_witness :
  forallb validateEmail [alice; str "bob@example.org"] = true /\
  (forall (pre : jsstring) (u : Z) (post : jsstring),
     join (str ", ") [alice; str "bob@example.org"] = pre ++ u :: post ->
     isWhiteSpace u = true ->
     u = 32 /\ exists pre' : jsstring, pre = pre' ++ [44]) /\
  count_occ Z.eq_dec (join (str ", ") [alice; str "bob@example.org"]) 32
  = 1%nat.
Proof.
  split; [reflexivity|].
  exact (joined_recipients_stay_on_one_line [alice; str "bob@example.org"]
           eq_refl).
Defined.

(** The validator is lenient: a trailing dot and two dots in a row
    pass, a display name does not. *)
Example validateEmail_edge_cases :
  validateEmail (str "a@b.c.") = true /\
  validateEmail (str "a@b..c") = true /\
  validateEmail (str "Alice <alice@example.com>") = false /\
  validateEmail (str "a@b") = false /\
  validateEmail [] = false.
Proof. repeat split. Qed.

End HeaderValueWitnesses.

(** ** Filter templates *)

Section FilterTemplates.

Import Errors Filters.

Variable template : jsstring.
Variable params : FilterTemplateParams.

(** The templates, and what each one requires. *)
Local Abbreviation requirementMet :=
  ((template = str "fromSender" /\ truthyOpt (senderEmail params) = true) \/
   (template = str "withSubject" /\ truthyOpt (subjectText params) = true) \/
   template = str "withAttachments" \/
   (template = str "largeEmails" /\ truthyNumber (sizeInBytes params) = true) \/
   (template = str "containingText" /\ truthyOpt (searchText params) = true) \/
   (template = str "mailingList" /\ truthyOpt (listIdentifier params) = true)).

(** Walk the [switch]: one goal per [case], with the template known. *)
Ltac switch_cases :=
  unfold createFilterFromTemplate;
  repeat match goal with
  | |- context [jsstring_eqb template ?lit] =>
      let E := fresh "E" in
      destruct (jsstring_eqb template lit) eqn:E;
      [apply jsstring_eqb_eq in E|]
  end.


(** The [case] that each known template name selects. *)
Lemma fromSender_template :
  createFilterFromTemplate (str "fromSender") params
  = if negb (truthyOpt (senderEmail params)) then
      Threw (Mcp (createAPIError
                    (str "senderEmail is required for fromSender template")
                    (Some 400)))
    else
      Returned (mkConfig
        (mkCriteria (senderEmail params) None None None None None None None None)
        (mkAction (labelIds params) (labelIf (archive params) (str "INBOX"))
                  None)).
Proof. reflexivity. Qed.

Lemma withSubject_template :
  createFilterFromTemplate (str "withSubject") params
  = if negb (truthyOpt (subjectText params)) then
      Threw (Mcp (createAPIError
                    (str "subjectText is required for withSubject template")
                    (Some 400)))
    else
      Returned (mkConfig
        (mkCriteria None None (subjectText params) None None None None None None)
        (mkAction (labelIds params) (labelIf (markAsRead params) (str "UNREAD"))
                  None)).
Proof. reflexivity. Qed.

Lemma withAttachments_template :
  createFilterFromTemplate (str "withAttachments") params
  = Returned (mkConfig
      (mkCriteria None None None None None (Some true) None None None)
      (mkAction (labelIds params) None None)).
Proof. reflexivity. Qed.

Lemma largeEmails_template :
  createFilterFromTemplate (str "largeEmails") params
  = if negb (truthyNumber (sizeInBytes params)) then
      Threw (Mcp (createAPIError
                    (str "sizeInBytes is required for largeEmails template")
                    (Some 400)))
    else
      Returned (mkConfig
        (mkCriteria None None None None None None None (sizeInBytes params)
                    (Some larger))
        (mkAction (labelIds params) None None)).
Proof. reflexivity. Qed.

Lemma containingText_template :
  createFilterFromTemplate (str "containingText") params
  = match searchText params with
    | Some (u :: text) =>
        Returned (mkConfig
          (mkCriteria None None None (Some (34 :: (u :: text) ++ [34])) None
                      None None None None)
          (mkAction
             (if truthyFlag (markImportant params)
              then Some (match labelIds params with
                         | Some ids => ids
                         | None => []
                         end ++ [str "IMPORTANT"])
              else labelIds params)
             None None))
    | _ =>
        Threw (Mcp (createAPIError
                      (str "searchText is required for containingText template")
                      (Some 400)))
    end.
Proof.
  unfold createFilterFromTemplate.
  destruct (searchText params) as [[|u text]|]; reflexivity.
Qed.

Lemma mailingList_template :
  createFilterFromTemplate (str "mailingList") params
  = match listIdentifier params with
    | Some (u :: id) =>
        Returned (mkConfig
          (mkCriteria None None None
             (Some (str "list:" ++ (u :: id) ++ str " OR subject:["
                    ++ (u :: id) ++ str "]"))
             None None None None None)
          (mkAction (labelIds params)
                    (labelIf (archive params) (str "INBOX")) None))
    | _ =>
        Threw (Mcp (createAPIError
                      (str "listIdentifier is required for mailingList template")
                      (Some 400)))
    end.
Proof.
  unfold createFilterFromTemplate.
  destruct (listIdentifier params) as [[|u id]|]; reflexivity.
Qed.

(** A template yields a filter exactly when it is one of the six known
    ones and its required parameter is present and truthy (an empty
    string and a size of 0 count as missing); every other call throws an
    API error with status 400. *)
Theorem template_succeeds_iff_requirement_met :
  ((exists config, createFilterFromTemplate template params = Returned config)
   <-> requirementMet) /\
  (forall t, createFilterFromTemplate template params = Threw t ->
     exists m, t = Mcp (createAPIError m (Some 400))).
Proof.
  split; [split|].
  - intros [config Hret]. revert Hret. switch_cases.
    + destruct (truthyOpt (senderEmail params)); [|discriminate].
      intros _. left. now split.
    + destruct (truthyOpt (subjectText params)); [|discriminate].
      intros _. right; left. now split.
    + intros _. do 2 right; left. assumption.
    + destruct (truthyNumber (sizeInBytes params)); [|discriminate].
      intros _. do 3 right; left. now split.
    + destruct (searchText params) as [[|u text]|]; try discriminate.
      intros _. do 4 right; left. now split.
    + destruct (listIdentifier params) as [[|u text]|]; try discriminate.
      intros _. do 5 right. now split.
    + discriminate.
  - intros [[-> H] | [[-> H] | [-> | [[-> H] | [[-> H] | [-> H]]]]]].
    + rewrite fromSender_template, H. cbn [negb]. eauto.
    + rewrite withSubject_template, H. cbn [negb]. eauto.
    + rewrite withAttachments_template. eauto.
    + rewrite largeEmails_template, H. cbn [negb]. eauto.
    + rewrite containingText_template. revert H.
      destruct (searchText params) as [[|u text]|]; try discriminate. eauto.
    + rewrite mailingList_template. revert H.
      destruct (listIdentifier params) as [[|u text]|]; try discriminate. eauto.
  - intros t. switch_cases;
      repeat match goal with
      | |- context [if ?b then _ else _] => destruct b
      | |- context [match ?o with Some _ => _ | None => _ end] => destruct o
      end;
      intros [= <-]; eauto.
Qed.


(** What a template filter does to a matching message: it never
    forwards; it removes INBOX only for the templates fromSender and
    mailingList with [archive] set, and UNREAD only for withSubject with
    [markAsRead] set (the flags are ignored elsewhere); it adds the
    requested labels, and IMPORTANT after them only for containingText
    with [markImportant] set. *)
Theorem template_action (config : FilterConfig) :
  createFilterFromTemplate template params = Returned config ->
  forward (action config) = None /\
  removeLabelIds (action config)
  = (if (jsstring_eqb template (str "fromSender")
         || jsstring_eqb template (str "mailingList"))
        && truthyFlag (archive params)
     then Some [str "INBOX"]
     else if jsstring_eqb template (str "withSubject")
             && truthyFlag (markAsRead params)
     then Some [str "UNREAD"]
     else None) /\
  addLabelIds (action config)
  = (if jsstring_eqb template (str "containingText")
        && truthyFlag (markImportant params)
     then Some (match labelIds params with
                | Some ids => ids
                | None => []
                end ++ [str "IMPORTANT"])
     else labelIds params).
Proof.
  unfold createFilterFromTemplate, labelIf.
  destruct (jsstring_eqb template (str "fromSender")) eqn:E1;
    [|destruct (jsstring_eqb template (str "withSubject")) eqn:E2;
      [|destruct (jsstring_eqb template (str "withAttachments")) eqn:E3;
        [|destruct (jsstring_eqb template (str "largeEmails")) eqn:E4;
          [|destruct (jsstring_eqb template (str "containingText")) eqn:E5;
            [|destruct (jsstring_eqb template (str "mailingList")) eqn:E6]]]]];
    try match goal with
        | E : jsstring_eqb template _ = true |- _ =>
            let E' := fresh in
            pose proof E as E'; apply jsstring_eqb_eq in E'; subst template;
            clear E; cbn [orb andb]
        end.
  - destruct (truthyOpt (senderEmail params)); [|discriminate].
    intros [= <-]. cbn [action forward removeLabelIds addLabelIds negb].
    destruct (truthyFlag (archive params)); repeat split.
  - destruct (truthyOpt (subjectText params)); [|discriminate].
    intros [= <-]. cbn [action forward removeLabelIds addLabelIds negb].
    destruct (truthyFlag (markAsRead params)), (truthyFlag (archive params));
      repeat split.
  - intros [= <-]. cbn [action forward removeLabelIds addLabelIds].
    destruct (truthyFlag (markAsRead params)), (truthyFlag (archive params));
      repeat split.
  - destruct (truthyNumber (sizeInBytes params)); [|discriminate].
    intros [= <-]. cbn [action forward removeLabelIds addLabelIds negb].
    destruct (truthyFlag (markAsRead params)), (truthyFlag (archive params));
      repeat split.
  - destruct (searchText params) as [[|u text]|]; try discriminate.
    intros [= <-]. cbn [action forward removeLabelIds addLabelIds truthy].
    destruct (truthyFlag (markAsRead params)), (truthyFlag (archive params)),
      (truthyFlag (markImportant params)); repeat split.
  - destruct (listIdentifier params) as [[|u id]|]; try discriminate.
    intros [= <-]. cbn [action forward removeLabelIds addLabelIds truthy].
    destruct (truthyFlag (archive params)); repeat split.
  - discriminate.
Qed.

(** A template never yields a filter that matches every message: some
    criterion is set, a criterion that is a text is not empty, and a
    size threshold is not 0 and comes with the comparison [larger]. *)
Theorem template_criteria_not_empty (config : FilterConfig) :
  createFilterFromTemplate template params = Returned config ->
  criteria config <> noCriteria /\
  (forall s, from (criteria config) = Some s \/
             subject (criteria config) = Some s \/
             query (criteria config) = Some s -> s <> []) /\
  (forall n, size (criteria config) = Some n ->
             n <> 0 /\ sizeComparison (criteria config) = Some larger).
Proof.
  assert (Hgoal : forall c : GmailFilterCriteria,
            c <> noCriteria ->
            (forall s, from c = Some s \/ subject c = Some s \/ query c = Some s ->
                       s <> []) ->
            (forall n, size c = Some n ->
                       n <> 0 /\ sizeComparison c = Some larger) ->
            forall cfg, criteria cfg = c ->
            criteria cfg <> noCriteria /\
            (forall s, from (criteria cfg) = Some s \/
                       subject (criteria cfg) = Some s \/
                       query (criteria cfg) = Some s -> s <> []) /\
            (forall n, size (criteria cfg) = Some n ->
                       n <> 0 /\ sizeComparison (criteria cfg) = Some larger)).
  { intros c H1 H2 H3 cfg ->. auto. }
  switch_cases.
  - destruct (senderEmail params) as [[|u s0]|]; try discriminate.
    intros [= <-]. eapply Hgoal; [| | |reflexivity]; cbn; try discriminate.
    intros s [[= <-] | [H | H]]; discriminate.
  - destruct (subjectText params) as [[|u s0]|]; try discriminate.
    intros [= <-]. eapply Hgoal; [| | |reflexivity]; cbn; try discriminate.
    intros s [H | [[= <-] | H]]; discriminate.
  - intros [= <-]. eapply Hgoal; [| | |reflexivity]; cbn; try discriminate.
    intros s [H | [H | H]]; discriminate.
  - destruct (sizeInBytes params) as [n|]; [|discriminate].
    cbn [truthyNumber]. destruct (Z.eqb_spec n 0); [discriminate|].
    intros [= <-]. eapply Hgoal; [| | |reflexivity]; cbn; try discriminate.
    + intros s [H | [H | H]]; discriminate.
    + intros m [= <-]. now split.
  - destruct (searchText params) as [[|u s0]|]; try discriminate.
    intros [= <-]. eapply Hgoal; [| | |reflexivity]; cbn; try discriminate.
    intros s [H | [H | [= <-]]]; discriminate.
  - destruct (listIdentifier params) as [[|u s0]|]; try discriminate.
    intros [= <-]. eapply Hgoal; [| | |reflexivity]; cbn; try discriminate.
    intros s [H | [H | [= <-]]]; discriminate.
  - discriminate.
Qed.

End FilterTemplates.

Section FilterTemplateWitnesses.

Import Errors Filters MoreExamples.

Lemma template_succeeds_iff_requirement_met_witness :
  truthyOpt (senderEmail newsletter) = true /\
  (exists config,
     createFilterFromTemplate (str "fromSender") newsletter = Returned config) /\
  createFilterFromTemplate (str "largeEmails") zeroSize
  = Threw (Mcp (createAPIError
                  (str "sizeInBytes is required for largeEmails template")
                  (Some 400))).
Proof.
  split; [reflexivity|]. split; [|reflexivity].
  apply (proj1 (template_succeeds_iff_requirement_met (str "fromSender")
                  newsletter)).
  left. split; reflexivity.
Defined.

Lemma template_action_witness :
  createFilterFromTemplate (str "withSubject") newsletter
  = Returned newsletterBySubject /\
  forward (action newsletterBySubject) = None /\
  removeLabelIds (action newsletterBySubject) = None /\
  addLabelIds (action newsletterBySubject) = Some [str "Label_7"].
Proof.
  split; [reflexivity|].
  exact (template_action (str "withSubject") newsletter newsletterBySubject
           eq_refl).
Defined.

Lemma template_criteria_not_empty_witness :
  createFilterFromTemplate (str "withSubject") newsletter
  = Returned newsletterBySubject /\
  criteria newsletterBySubject <> noCriteria /\
  (forall s, from (criteria newsletterBySubject) = Some s \/
             subject (criteria newsletterBySubject) = Some s \/
             query (criteria newsletterBySubject) = Some s -> s <> []) /\
  (forall n, size (criteria newsletterBySubject) = Some n ->
             n <> 0 /\ sizeComparison (criteria newsletterBySubject) = Some larger).
Proof.
  split; [reflexivity|].
  exact (template_criteria_not_empty (str "withSubject") newsletter
           newsletterBySubject eq_refl).
Defined.

End FilterTemplateWitnesses.

(** ** Message parts *)

Section MessageParts.

Import Mime.

(** Induction on a message part, with the property known for every
    subpart. *)
Lemma part_induction (P : GmailMessagePart -> Prop) :
  (forall pid m f b ps, Forall P ps -> P (mkPart pid m f b ps)) ->
  forall p, P p.
Proof.
  intros Hstep. fix IH 1. intros [pid m f b ps]. apply Hstep.
  induction ps as [|q ps IHps]; constructor; [apply IH | exact IHps].
Qed.

Lemma flat_map_flat_map {A B C : Type} (f : B -> list C) (g : A -> list B)
  (l : list A) :
  flat_map f (flat_map g l) = flat_map (fun x => flat_map f (g x)) l.
Proof.
  induction l as [|x l IH]; cbn; [reflexivity|].
  now rewrite flat_map_app, IH.
Qed.

(** [extractAttachments] appends, in document order, the attachment of
    every part that carries one. *)
Lemma extractAttachments_allParts (part : GmailMessagePart) :
  forall attachments,
    extractAttachments part attachments
    = attachments ++ flat_map ownAttachment (allParts part).
Proof.
  induction part as [pid m f b ps IH] using part_induction.
  intros attachments. cbn [extractAttachments allParts flat_map].
  rewrite flat_map_flat_map.
  generalize (ownAttachment (mkPart pid m f b ps)) as own. intros own.
  rewrite app_assoc. generalize (attachments ++ own) as collected.
  induction IH as [|q ps Hq _ IHps]; intros collected; cbn [fold_left flat_map].
  - now rewrite app_nil_r.
  - rewrite IHps, Hq. now rewrite <- app_assoc.
Qed.


(** Every attachment listed for a message has an id, a file name and a
    MIME type that are not empty, and the list holds one entry per part
    with an attachment id, in document order. *)
Theorem extractAttachments_well_formed (payload : GmailMessagePart) :
  extractAttachments payload [] = flat_map ownAttachment (allParts payload) /\
  Forall (fun a => att_id a <> [] /\ att_filename a <> [] /\
                   att_mimeType a <> [])
         (extractAttachments payload []) /\
  map att_id (extractAttachments payload [])
  = flat_map (fun p => match ownAttachmentId p with
                       | Some id => [id]
                       | None => []
                       end) (allParts payload).
Proof.
  rewrite extractAttachments_allParts. cbn [app]. split; [reflexivity|].
  generalize (allParts payload) as ps. intros ps. split.
  - apply Forall_flat_map, Forall_forall. intros p _.
    unfold ownAttachment, ownAttachmentId.
    destruct (body p) as [b|]; [|constructor].
    destruct (attachmentId b) as [[|u id]|]; cbn [truthy]; try constructor;
      [|constructor].
    cbn [att_id att_filename att_mimeType]. repeat split; try discriminate.
    + unfold Builder.orElse. destruct (filename p) as [[|c n]|]; discriminate.
    + unfold Builder.orElse. destruct (mimeType p) as [[|c n]|]; discriminate.
  - induction ps as [|p ps IH]; [reflexivity|].
    cbn [flat_map]. rewrite map_app, IH. f_equal.
    unfold ownAttachment. destruct (ownAttachmentId p) as [id|] eqn:E;
      [|reflexivity].
    unfold ownAttachmentId in E. now destruct (body p).
Qed.

Lemma find_over_app {A : Type} (f : A -> bool) (l1 l2 : list A) :
  find f (l1 ++ l2)
  = match find f l1 with
    | Some x => Some x
    | None => find f l2
    end.
Proof.
  induction l1 as [|x l1 IH]; cbn [app find]; [reflexivity|].
  now destruct (f x).
Qed.

(** Whether [findAttachment] stops at a part. *)
Local Abbreviation carries wanted :=
  (fun p : GmailMessagePart =>
     match body p with
     | Some b => isString (attachmentId b) wanted
     | None => false
     end).

Lemma orElse_truthy (o : option jsstring) (u : Z) (d : jsstring) :
  truthy (Builder.orElse o (u :: d)) = true.
Proof. unfold Builder.orElse. now destruct o as [[|c n]|]. Qed.

(** [findAttachment] answers for the first part, in document order, that
    carries the wanted id. *)
Lemma findAttachment_allParts (wanted : jsstring) (part : GmailMessagePart) :
  findAttachment wanted part
  = option_map (fun p => Builder.orElse (filename p)
                           (str "attachment-" ++ wanted))
               (find (carries wanted) (allParts part)).
Proof.
  induction part as [pid m f b ps IH] using part_induction.
  cbn [findAttachment allParts find body filename].
  destruct (match b with
            | Some b0 => isString (attachmentId b0) wanted
            | None => false
            end); [reflexivity|].
  induction IH as [|q ps Hq _ IHps]; [reflexivity|].
  cbn [flat_map]. rewrite find_over_app, Hq.
  destruct (find (carries wanted) (allParts q)) as [p|]; cbn [option_map].
  - change (str "attachment-" ++ wanted) with (97 :: str "ttachment-" ++ wanted).
    now rewrite orElse_truthy.
  - exact IHps.
Qed.

Lemma find_ownAttachment (wanted : jsstring) (ps : list GmailMessagePart) :
  truthy wanted = true ->
  find (fun a => jsstring_eqb (att_id a) wanted) (flat_map ownAttachment ps)
  = match find (carries wanted) ps with
    | Some p =>
        Some (mkAttachment wanted
                (Builder.orElse (filename p) (str "attachment-" ++ wanted))
                (Builder.orElse (mimeType p) (str "application/octet-stream"))
                (match body p with
                 | Some b => match size b with Some n => n | None => 0 end
                 | None => 0
                 end))
    | None => None
    end.
Proof.
  intros Hwanted. induction ps as [|p ps IH]; [reflexivity|].
  cbn [flat_map find]. rewrite find_over_app.
  unfold ownAttachment, ownAttachmentId, isString.
  destruct (body p) as [b|] eqn:Hb; [|exact IH].
  destruct (attachmentId b) as [id|] eqn:Hid; [|exact IH].
  destruct (jsstring_eqb id wanted) eqn:Heq.
  - apply jsstring_eqb_eq in Heq. subst id. rewrite Hwanted, Hb.
    cbn [find att_id].
    now rewrite (proj2 (jsstring_eqb_eq wanted wanted) eq_refl).
  - destruct (truthy id); [|exact IH].
    cbn [find att_id]. rewrite Heq. exact IH.
Qed.

(** The file name under which [downloadAttachment] saves an attachment
    when the caller gives none is the file name that [readEmail] lists
    for the first attachment with that id; when the message has no
    attachment with that id it is "attachment-" followed by the id. *)
Theorem download_name_is_listed_name (wanted : jsstring)
  (payload : GmailMessagePart) :
  truthy wanted = true ->
  finalFilename wanted payload
  = match find (fun a => jsstring_eqb (att_id a) wanted)
               (extractAttachments payload []) with
    | Some a => att_filename a
    | None => str "attachment-" ++ wanted
    end.
Proof.
  intros Hwanted. unfold finalFilename.
  rewrite findAttachment_allParts, extractAttachments_allParts. cbn [app].
  rewrite (find_ownAttachment wanted _ Hwanted).
  destruct (find (carries wanted) (allParts payload)) as [p|];
    cbn [option_map att_filename]; [|reflexivity].
  unfold Builder.orElse at 1.
  change (str "attachment-" ++ wanted) with (97 :: str "ttachment-" ++ wanted).
  now rewrite orElse_truthy.
Qed.

Section ContentOrder.

Variable decodeBody : jsstring -> jsstring.



End ContentOrder.

End MessageParts.

Section MessagePartWitnesses.

Import Mime MoreExamples.

Lemma download_name_is_listed_name_witness :
  truthy (str "att-2") = true /\
  finalFilename (str "att-2") sampleMessage = str "attachment-att-2" /\
  finalFilename (str "att-2") sampleMessage
  = match find (fun a => jsstring_eqb (att_id a) (str "att-2"))
               (extractAttachments sampleMessage []) with
    | Some a => att_filename a
    | None => str "attachment-" ++ str "att-2"
    end.
Proof.
  split; [reflexivity|]. split; [reflexivity|].
  exact (download_name_is_listed_name (str "att-2") sampleMessage eq_refl).
Defined.

(** The sample message: two attachments in document order, the second
    one named after its id. *)
Example sampleMessage_attachments :
  map att_filename (extractAttachments sampleMessage [])
  = [str "report.pdf"; str "attachment-att-2"]
  /\ map att_mimeType (extractAttachments sampleMessage [])
  = [str "application/pdf"; str "application/octet-stream"]
  /\ finalFilename (str "att-1") sampleMessage = str "report.pdf"
  /\ finalFilename (str "missing") sampleMessage = str "attachment-missing".
Proof. repeat split. Qed.

End MessagePartWitnesses.

(** ** Where the digits 404 can be found *)

Section NotFoundDigits.

Lemma includes_404_before (x : jsstring) (c : Z) (s : jsstring) :
  c <> 52 -> c <> 48 ->
  includes (x ++ c :: s) (str "404")
  = includes x (str "404") || includes (c :: s) (str "404").
Proof.
  intros H4 H0. change (str "404") with [52; 48; 52].
  induction x as [|u x IH]; [reflexivity|].
  cbn [app]. cbn [includes]. rewrite IH, <- orb_assoc. f_equal.
  apply Z.eqb_neq in H4, H0.
  destruct x as [|a [|b x]]; cbn [app startsWith].
  - now rewrite H0, !andb_false_r.
  - now rewrite H4, !andb_false_r.
  - reflexivity.
Qed.

(** A text around [x] that holds no digit 4 before it and starts with
    neither 4 nor 0 after it adds no 404. *)
Lemma includes_404_between (p x : jsstring) (c : Z) (s : jsstring) :
  forallb (fun u => negb (u =? 52)) p = true ->
  c <> 52 -> c <> 48 ->
  includes (c :: s) (str "404") = false ->
  includes (p ++ x ++ c :: s) (str "404") = includes x (str "404").
Proof.
  intros Hp H4 H0 Hs. induction p as [|a p IH].
  - cbn [app]. now rewrite includes_404_before, Hs, orb_false_r.
  - cbn [forallb] in Hp. apply andb_true_iff in Hp as [Ha Hp].
    cbn [app]. change (str "404") with [52; 48; 52] in *.
    cbn [includes startsWith]. apply negb_true_iff in Ha. rewrite Ha.
    now apply IH.
Qed.

End NotFoundDigits.

(** ** The label service *)

Section LabelService.

Import Errors Remote Labels.

Context {W : Type}.
Variable getGmailAPI : M W unit.
Variable labelsList : M W (option (list GmailLabel)).
Variable labelsCreate :
  jsstring -> MessageListVisibility -> LabelListVisibility -> M W GmailLabel.
Variable labelsGet : jsstring -> M W GmailLabel.
Variable labelsDelete : jsstring -> M W unit.
Variable toLowerCase : jsstring -> jsstring.

Local Abbreviation listLabels := (listLabels getGmailAPI labelsList).
Local Abbreviation findLabelByName :=
  (findLabelByName getGmailAPI labelsList toLowerCase).
Local Abbreviation createLabel := (createLabel getGmailAPI labelsCreate).
Local Abbreviation getOrCreateLabel :=
  (getOrCreateLabel getGmailAPI labelsList labelsCreate toLowerCase).
Local Abbreviation deleteLabel :=
  (deleteLabel getGmailAPI labelsGet labelsDelete).

(** Names that are the same apart from case. *)
Local Abbreviation sameName requested :=
  (fun label : GmailLabel =>
     jsstring_eqb (toLowerCase (name label)) (toLowerCase requested)).

Lemma findLabelByName_listed (requested : jsstring) (w w0 w1 : W)
  (response : option (list GmailLabel)) :
  getGmailAPI w = (Returned tt, w0) ->
  labelsList w0 = (Returned response, w1) ->
  findLabelByName requested w
  = (Returned (find (sameName requested)
                    (match response with Some l => l | None => [] end)), w1).
Proof.
  intros Hauth Hlist.
  unfold Labels.findLabelByName, Labels.listLabels, tryCatch, bindM, ret.
  now rewrite Hauth, Hlist.
Qed.

(** When a label with the requested name, apart from case, is listed,
    [getOrCreateLabel] returns the first such label and the mailbox is
    as the listing left it: nothing is created. *)
Theorem getOrCreateLabel_returns_listed_label
  (requested : jsstring) (options : LabelOptions) (w w0 w1 : W)
  (response : option (list GmailLabel)) (label : GmailLabel) :
  getGmailAPI w = (Returned tt, w0) ->
  labelsList w0 = (Returned response, w1) ->
  find (sameName requested) (match response with Some l => l | None => [] end)
  = Some label ->
  getOrCreateLabel requested options w = (Returned label, w1).
Proof.
  intros Hauth Hlist Hfind. unfold Labels.getOrCreateLabel.
  unfold tryCatch at 1. unfold bindM at 1.
  rewrite (findLabelByName_listed requested w w0 w1 response Hauth Hlist).
  now rewrite Hfind.
Qed.

(** The reply of the handler calls a label that was found "created new"
    when its name differs from the requested one by case only. *)
Theorem found_label_reported_as_created
  (requested : jsstring) (options : LabelOptions) (w w0 w1 : W)
  (response : option (list GmailLabel)) (label : GmailLabel) :
  getGmailAPI w = (Returned tt, w0) ->
  labelsList w0 = (Returned response, w1) ->
  find (sameName requested) (match response with Some l => l | None => [] end)
  = Some label ->
  name label <> requested ->
  getOrCreateLabel requested options w = (Returned label, w1) /\
  replyAction label requested = str "created new".
Proof.
  intros Hauth Hlist Hfind Hname. split.
  - unfold Labels.getOrCreateLabel.
    unfold tryCatch at 1. unfold bindM at 1.
    rewrite (findLabelByName_listed requested w w0 w1 response Hauth Hlist).
    now rewrite Hfind.
  - unfold replyAction.
    destruct (jsstring_eqb (name label) requested) eqn:E; [|reflexivity].
    apply jsstring_eqb_eq in E. contradiction.
Qed.

(** Every failure of [getOrCreateLabel] reaches the caller as an API
    error without a status code whose message starts with "Failed to
    get or create label: ": the 401 of a missing authentication and the
    409 of a name that exists are not passed on. *)
Theorem getOrCreateLabel_failures_are_wrapped
  (requested : jsstring) (options : LabelOptions) (w w' : W) (t : thrown) :
  getOrCreateLabel requested options w = (Threw t, w') ->
  exists m : jsstring,
    t = Mcp (createAPIError (str "Failed to get or create label: " ++ m) None).
Proof.
  unfold Labels.getOrCreateLabel. unfold tryCatch at 1.
  destruct (bindM _ _ w) as [[label|t0] w1].
  - discriminate.
  - unfold throw. intros [= <- <-]. eexists. reflexivity.
Qed.

(** When the listing is rejected, the failure is reported with the
    three prefixes of the three functions it went through, and no label
    is created. *)
Theorem getOrCreateLabel_listing_rejected
  (requested : jsstring) (options : LabelOptions) (w w0 w1 : W) (t : thrown) :
  getGmailAPI w = (Returned tt, w0) ->
  labelsList w0 = (Threw t, w1) ->
  getOrCreateLabel requested options w
  = (Threw (Mcp (createAPIError
                   (str "Failed to get or create label: "
                    ++ str "Failed to find label: "
                    ++ str "Failed to list labels: " ++ errorMessageOf t)
                   None)), w1).
Proof.
  intros Hauth Hlist.
  unfold Labels.getOrCreateLabel, Labels.findLabelByName, Labels.listLabels,
    tryCatch, bindM, throw.
  now rewrite Hauth, Hlist.
Qed.

(** A system label is never deleted: after the label was fetched no
    further call is made, and the caller gets an error.  The status 403
    of that error is lost on the way: it arrives as an API error without
    status, or, when the id contains the digits 404, as a not-found
    error. *)
Theorem deleteLabel_spares_system_labels
  (labelId : jsstring) (w w0 w1 : W) (label : GmailLabel) :
  getGmailAPI w = (Returned tt, w0) ->
  labelsGet labelId w0 = (Returned label, w1) ->
  type label = Some system ->
  deleteLabel labelId w
  = (Threw (Mcp
       (if includes labelId (str "404")
        then createNotFoundError
               (str "Label with ID " ++ 34 :: labelId ++ 34 :: str " not found.")
        else createAPIError
               (str "Failed to delete label: "
                ++ str "Cannot delete system label with ID "
                ++ 34 :: labelId ++ 34 :: str ".") None)), w1).
Proof.
  intros Hauth Hget Htype.
  unfold Labels.deleteLabel, tryCatch, bindM, throw, hasType.
  rewrite Hauth, Hget, Htype.
  cbn [isErrorWith message createAPIError errorMessageOf].
  change (str "Cannot delete system label with ID " ++ 34 :: labelId
            ++ 34 :: str ".")
    with ((str "Cannot delete system label with ID " ++ [34]) ++ labelId
            ++ 34 :: str ".").
  rewrite includes_404_between by (reflexivity || discriminate).
  now destruct (includes labelId (str "404")).
Qed.

(** The counts of [listLabels]: the total is the number of labels, and
    it is the system count plus the user count plus the number of labels
    that carry no type; the two lists hold the labels of their type in
    the order of the listing. *)
Theorem listLabels_counts (w w' : W) (result : LabelListResult) :
  listLabels w = (Returned result, w') ->
  count_total (count result) = Z.of_nat (length (all result)) /\
  count_total (count result)
  = count_system (count result) + count_user (count result)
    + Z.of_nat (length (filter (fun l => match type l with
                                         | None => true
                                         | Some _ => false
                                         end) (all result))) /\
  systemLabels result = filter (hasType system) (all result) /\
  userLabels result = filter (hasType user) (all result).
Proof.
  unfold Labels.listLabels, tryCatch, bindM, ret, throw.
  destruct (getGmailAPI w) as [[[]|t] w0]; [|discriminate].
  destruct (labelsList w0) as [[response|t] w1]; [|discriminate].
  intros [= <- <-]. cbn [count all systemLabels userLabels count_total
                         count_system count_user].
  repeat split.
  generalize (match response with Some l => l | None => [] end) as labels.
  induction labels as [|l labels IH]; [reflexivity|].
  unfold hasType in *. cbn [filter length].
  destruct (type l) as [[|]|]; cbn [length]; lia.
Qed.

End LabelService.

(** ** Sending and reading *)

Section EmailServiceFacts.

Import Errors Remote Builder Transport Mime EmailService.

Context {W : Type}.
Variable getGmailAPI : M W unit.
Variable messagesSend : MessageRequest -> M W (option jsstring).
Variable messagesGet : jsstring -> M W MessageResponse.
Variable existsSync : jsstring -> bool.
Variable basename : jsstring -> jsstring.
Variable sendMail : MailOptions -> result jsstring.
Variable decodeBody : jsstring -> jsstring.
Variable toLowerCase : jsstring -> jsstring.

Local Abbreviation buildEmail := (buildEmail existsSync basename sendMail).
Local Abbreviation sendEmail :=
  (sendEmail getGmailAPI messagesSend existsSync basename sendMail).
Local Abbreviation readEmail :=
  (readEmail getGmailAPI messagesGet decodeBody toLowerCase).

(** The request that [sendEmail] makes of a document. *)
Local Abbreviation requestOf params document :=
  (mkRequest (encodeMessage document)
             (if truthyOpt (Builder.threadId params)
              then Builder.threadId params else None)).

(** When the document cannot be built, [sendEmail] rejects with the
    error of the builder as it is, without the prefix "Failed to send
    email: ", and the mailbox is as the authentication left it: nothing
    is sent. *)
Theorem sendEmail_build_failure_sends_nothing
  (random36 : jsstring) (params : SendEmailParams) (w w0 : W) (m : jsstring) :
  getGmailAPI w = (Returned tt, w0) ->
  buildEmail random36 params = Throw m ->
  sendEmail random36 params w = (Threw (PlainError m), w0).
Proof.
  intros Hauth Hbuild.
  unfold EmailService.sendEmail, bindM at 1. rewrite Hauth.
  unfold bindM at 1. now rewrite Hbuild.
Qed.

(** When the mailbox accepts the message and answers without an id, the
    error that [sendEmail] throws inside its own [try] is caught by its
    own [catch]: the caller sees the prefix twice, and the message has
    been sent. *)
Theorem sendEmail_missing_id_doubles_the_prefix
  (random36 : jsstring) (params : SendEmailParams) (w w0 w1 : W)
  (document : jsstring) (response : option jsstring) :
  getGmailAPI w = (Returned tt, w0) ->
  buildEmail random36 params = Ok document ->
  messagesSend (requestOf params document) w0 = (Returned response, w1) ->
  truthyOpt response = false ->
  sendEmail random36 params w
  = (Threw (Mcp (createAPIError
                   (str "Failed to send email: "
                    ++ str "Failed to send email: No message ID returned")
                   None)), w1).
Proof.
  intros Hauth Hbuild Hsend Hid.
  unfold EmailService.sendEmail, bindM at 1. rewrite Hauth.
  unfold bindM at 1. rewrite Hbuild. unfold awaitBuild, ret.
  unfold tryCatch, bindM. rewrite Hsend, Hid. reflexivity.
Qed.

(** What a returned id stands for: the document was built, one request
    whose [raw] is the encoded document was accepted by the mailbox, and
    the id is the non-empty id of the answer. *)
Theorem sendEmail_returns_the_id_of_the_answer
  (random36 : jsstring) (params : SendEmailParams) (w w' : W) (sent : jsstring) :
  sendEmail random36 params w = (Returned sent, w') ->
  exists (w0 : W) (document : jsstring),
    getGmailAPI w = (Returned tt, w0) /\
    buildEmail random36 params = Ok document /\
    messagesSend (requestOf params document) w0 = (Returned (Some sent), w') /\
    sent <> [].
Proof.
  unfold EmailService.sendEmail, bindM at 1.
  destruct (getGmailAPI w) as [[[]|t] w0]; [|discriminate].
  unfold bindM at 1.
  destruct (Builder.buildEmail _ _ _ _ _) as [document|m]; [|discriminate].
  unfold awaitBuild, ret, tryCatch, bindM, throw.
  destruct (messagesSend _ w0) as [[response|t] w1] eqn:Hsend; [|discriminate].
  destruct response as [[|u sent']|]; cbn; try discriminate.
  intros [= <- <-]. exists w0, document. repeat split; try assumption.
  discriminate.
Qed.

(** Whatever [readEmail] returns, the handler's note about an email
    without a plain text version is empty: [text] already holds the
    html when no plain text was found. *)
Theorem readEmail_note_is_never_shown
  (messageId : jsstring) (w w' : W) (email : EmailContent) :
  readEmail messageId w = (Returned email, w') ->
  contentTypeNote email = [].
Proof.
  unfold EmailService.readEmail, bindM at 1.
  destruct (getGmailAPI w) as [[[]|t] w0]; [|discriminate].
  unfold tryCatch, bindM.
  destruct (messagesGet messageId w0) as [[response|t] w1].
  - destruct (payload response) as [[payloadHeaders part]|].
    + destruct (extractEmailContent decodeBody part) as [t h].
      unfold ret. intros [= <- <-]. unfold contentTypeNote.
      cbn [text html]. destruct (truthy t) eqn:Ht.
      * now rewrite Ht.
      * now destruct (truthy h).
    + unfold throw. destruct (isErrorWith _ _); discriminate.
  - unfold throw. destruct (isErrorWith _ _); discriminate.
Qed.

(** An answer without a payload: the not-found error thrown inside the
    [try] is caught by the [catch] of [readEmail], which tells a
    not-found error by the digits 404 in its message.  Unless the id
    contains these digits the caller gets an API error without status
    instead of the not-found error with status 404. *)
Theorem readEmail_missing_payload
  (messageId : jsstring) (w w0 w1 : W) (response : MessageResponse) :
  getGmailAPI w = (Returned tt, w0) ->
  messagesGet messageId w0 = (Returned response, w1) ->
  payload response = None ->
  readEmail messageId w
  = (Threw (Mcp
       (if includes messageId (str "404")
        then createNotFoundError
               (str "Email with ID " ++ messageId ++ str " not found")
        else createAPIError
               (str "Failed to read email: "
                ++ str "Email with ID " ++ messageId ++ str " not found")
               None)), w1).
Proof.
  intros Hauth Hget Hpayload.
  unfold EmailService.readEmail, bindM at 1. rewrite Hauth.
  unfold tryCatch, bindM. rewrite Hget, Hpayload. unfold throw.
  cbn [isErrorWith message createNotFoundError errorMessageOf].
  change (str " not found") with (32 :: str "not found").
  rewrite includes_404_between by (reflexivity || discriminate).
  now destruct (includes messageId (str "404")).
Qed.

End EmailServiceFacts.


Section ServiceWitnesses.

Import Errors Remote Labels EmailService Examples MoreExamples.

Lemma getOrCreateLabel_returns_listed_label_witness :
  find (fun label => jsstring_eqb (asciiLower (name label))
                                  (asciiLower (str "Work"))) twoLabels
  = Some work /\
  getOrCreateLabel signedIn listAll createIn asciiLower
                   (str "Work") (mkOptions None None) twoLabels
  = (Returned work, twoLabels).
Proof.
  split; [reflexivity|].
  apply (getOrCreateLabel_returns_listed_label
           signedIn listAll createIn asciiLower (str "Work")
           (mkOptions None None) twoLabels twoLabels twoLabels
           (Some twoLabels) work); reflexivity.
Defined.

Lemma found_label_reported_as_created_witness :
  name work <> str "work" /\
  getOrCreateLabel signedIn listAll createIn asciiLower
                   (str "work") (mkOptions None None) twoLabels
  = (Returned work, twoLabels) /\
  replyAction work (str "work") = str "created new".
Proof.
  split; [discriminate|].
  apply (found_label_reported_as_created
           signedIn listAll createIn asciiLower (str "work")
           (mkOptions None None) twoLabels twoLabels twoLabels
           (Some twoLabels) work); [reflexivity..|discriminate].
Defined.

Lemma getOrCreateLabel_failures_are_wrapped_witness :
  exists m : jsstring,
    Mcp (createAPIError
           (str "Failed to get or create label: Label "
            ++ 34 :: str "Work" ++ 34
            :: str " already exists. Please use a different name.") None)
    = Mcp (createAPIError (str "Failed to get or create label: " ++ m) None).
Proof.
  apply (getOrCreateLabel_failures_are_wrapped
           signedIn (ret (Some []))
           (fun _ _ _ => throw (PlainError (str "Label name already exists")))
           asciiLower (str "Work") (mkOptions None None) twoLabels twoLabels).
  reflexivity.
Defined.

Lemma getOrCreateLabel_listing_rejected_witness :
  getOrCreateLabel signedIn listFails createIn asciiLower
                   (str "Work") (mkOptions None None) twoLabels
  = (Threw (Mcp (createAPIError
                   (str "Failed to get or create label: Failed to find label: Failed to list labels: quota exceeded")
                   None)), twoLabels).
Proof.
  apply (getOrCreateLabel_listing_rejected
           signedIn listFails createIn asciiLower (str "Work")
           (mkOptions None None) twoLabels twoLabels twoLabels
           (PlainError (str "quota exceeded"))); reflexivity.
Defined.

Lemma deleteLabel_spares_system_labels_witness :
  type inbox = Some system /\
  deleteLabel signedIn getFrom deleteFrom (str "INBOX") twoLabels
  = (Threw (Mcp (createAPIError
                   (str "Failed to delete label: Cannot delete system label with ID "
                    ++ 34 :: str "INBOX" ++ 34 :: str ".") None)), twoLabels).
Proof.
  split; [reflexivity|].
  apply (deleteLabel_spares_system_labels
           signedIn getFrom deleteFrom (str "INBOX")
           twoLabels twoLabels twoLabels inbox); reflexivity.
Defined.

Lemma listLabels_counts_witness :
  exists result : LabelListResult,
    listLabels signedIn listAll twoLabels = (Returned result, twoLabels) /\
    count_total (count result) = 2 /\
    count_total (count result)
    = count_system (count result) + count_user (count result) + 0.
Proof.
  eexists. split; [reflexivity|].
  pose proof (listLabels_counts signedIn listAll twoLabels twoLabels _ eq_refl)
    as [Htotal [Hsum _]].
  split; [exact Htotal | exact Hsum].
Defined.

Lemma sendEmail_build_failure_sends_nothing_witness :
  sendEmail signedIn sendAccepted noFiles sameName renderSubject
            randomHalf badCc []
  = (Threw (PlainError (str "Invalid email address: not an address")), []).
Proof.
  apply (sendEmail_build_failure_sends_nothing
           signedIn sendAccepted noFiles sameName renderSubject
           randomHalf badCc [] []); reflexivity.
Defined.

Lemma sendEmail_missing_id_doubles_the_prefix_witness :
  exists sent : list MessageRequest,
    sent <> [] /\
    sendEmail signedIn sendWithoutId noFiles sameName renderSubject
              randomHalf plainSample []
    = (Threw (Mcp (createAPIError
                     (str "Failed to send email: Failed to send email: No message ID returned")
                     None)), sent).
Proof.
  eexists. split; cycle 1.
  - eapply (sendEmail_missing_id_doubles_the_prefix
              signedIn sendWithoutId noFiles sameName renderSubject
              randomHalf plainSample [] []); reflexivity.
  - discriminate.
Defined.

Lemma sendEmail_returns_the_id_of_the_answer_witness :
  exists w' : list MessageRequest,
    sendEmail signedIn sendAccepted noFiles sameName renderSubject
              randomHalf plainSample []
    = (Returned (str "msg-1"), w') /\
    exists (w0 : list MessageRequest) (document : jsstring),
      signedIn [] = (Returned tt, w0) /\
      Builder.buildEmail noFiles sameName renderSubject randomHalf plainSample
      = Ok document /\
      sendAccepted
        (mkRequest (Transport.encodeMessage document)
                   (if truthyOpt (Builder.threadId plainSample)
                    then Builder.threadId plainSample else None)) w0
      = (Returned (Some (str "msg-1")), w') /\
      str "msg-1" <> [].
Proof.
  eexists. split; [vm_compute; reflexivity|].
  apply (sendEmail_returns_the_id_of_the_answer
           signedIn sendAccepted noFiles sameName renderSubject
           randomHalf plainSample []).
  reflexivity.
Defined.

Lemma readEmail_note_is_never_shown_witness :
  exists email : EmailContent,
    readEmail signedIn getHtmlOnly (fun d => d) asciiLower (str "m1") []
    = (Returned email, []) /\
    text email = str "PHA-SGk8L3A-" /\
    html email = str "PHA-SGk8L3A-" /\
    contentTypeNote email = [].
Proof.
  eexists. split; [reflexivity|]. split; [reflexivity|]. split; [reflexivity|].
  apply (readEmail_note_is_never_shown
           signedIn getHtmlOnly (fun d => d) asciiLower (str "m1") [] []).
  reflexivity.
Defined.

Lemma readEmail_missing_payload_witness :
  readEmail signedIn getNothing (fun d => d) asciiLower (str "m1") []
  = (Threw (Mcp (createAPIError
                   (str "Failed to read email: Email with ID m1 not found")
                   None)), []).
Proof.
  apply (readEmail_missing_payload
           signedIn getNothing (fun d => d) asciiLower (str "m1") [] [] []
           (mkResponse None None)); reflexivity.
Defined.

End ServiceWitnesses.
